(** * OpenBR core: a shallow embedding of [openbr/core/core.cpp]

    The file follows the source top-down: the data the core passes around
    ([File], [Template], galleries, outputs), the collaborators it only
    calls through an interface ([Transform], [Distance], the platform), then
    [AlgorithmCore] (store / load / init / enroll / retrieveOrEnroll /
    compare) and [AlgorithmManager], then [train], the gallery branches of
    [Convert] and [Cat], and [finalize].  Theorems come after the
    definitions.  Left out: the [br::] entry points that only forward to
    these, the format and matrix branches of [Convert] and [Cat], and
    everything that only logs, times or prints progress.

    Conventions.
    - C++ [int] values are [Z]; sizes of Qt containers are [Z.of_nat] of a
      list length.  No theorem relies on arithmetic outside the [int] range.
    - [qFatal] ends the process: operations return [Fatal msg].
    - The two unbounded loops of the source ([do .. while] in [enroll],
      [while (!done)] in [compare]) and the [init]/[load] recursion take a
      fuel argument; [None] means the fuel ran out. *)

From Stdlib Require Import ZArith String Ascii List Lia Permutation.
From Stdlib.Strings Require Import Byte.
From stdpp Require Import base option list gmap strings.

Local Open Scope string_scope.
Local Open Scope list_scope.
Local Open Scope Z_scope.

(** ** Results of operations that may end in [qFatal] *)

Inductive result (A : Type) : Type :=
| Ok (a : A)
| Fatal (msg : string).
Arguments Ok {A} a.
Arguments Fatal {A} msg.

(** ** Qt container helpers *)

(** [QList::mid(pos, length)]: the sub-list starting at [pos]; [length]
    elements, or all remaining ones when fewer are left or [length] is
    negative. *)
Definition mid {A} (l : list A) (pos len : Z) : list A :=
  let size := Z.of_nat (length l) in
  if size <? pos then []
  else if pos <? 0 then
    if (len <? 0) || (size <=? len + pos) then l
    else if len + pos <=? 0 then []
    else take (Z.to_nat (len + pos)) l
  else if (len <? 0) || (size - pos <? len) then drop (Z.to_nat pos) l
  else take (Z.to_nat len) (drop (Z.to_nat pos) l).

(** [QList::isEmpty] *)
Definition isEmpty {A} (l : list A) : bool :=
  match l with
  | [] => true
  | _ :: _ => false
  end.

(** [ceil(1.0 * a / b)] on [int] operands.  The double quotient of two
    32-bit integers is within [1/b] of the exact one, so the rounded-up
    value is the exact ceiling. *)
Definition ceil_div (a b : Z) : Z := - ((- a) / b).

(** ** Files, templates *)

Inductive QVariant :=
| VNull
| VBool (b : bool)
| VString (s : string)
| VIntList (l : list Z).

Record File := mkFile {
  name : string;
  m_metadata : gmap string QVariant
}.

Definition File_of (s : string) : File := mkFile s ∅.

(** [File()] *)
Definition File_null : File := File_of "".

Definition contains (f : File) (key : string) : bool :=
  bool_decide (is_Some (m_metadata f !! key)).

(** Modelled from the spec: [File::getBool] (openbr_plugin, not in
    core.cpp).  A file "carries a marker" when the key is present and not
    set to false; the default is returned when the key is absent. *)
Definition getBool (f : File) (key : string) (defaultValue : bool) : bool :=
  match m_metadata f !! key with
  | None => defaultValue
  | Some (VBool b) => b
  | Some _ => true
  end.

(** Modelled from the spec: [File::getList<int>], the partition-size list
    carried by an output. *)
Definition getList (f : File) (key : string) : list Z :=
  match m_metadata f !! key with
  | Some (VIntList l) => l
  | _ => []
  end.

(** [File::operator==] against a string literal compares the name only. *)
Definition File_eqb (f : File) (s : string) : bool := bool_decide (name f = s).

Definition Mat := list Z.

Record Template := mkTemplate {
  file : File;
  mats : list Mat
}.

Abbreviation TemplateList := (list Template).
Abbreviation FileList := (list File).

Definition files (tl : TemplateList) : FileList := map file tl.
Definition names (fl : FileList) : list string := map name fl.

(** ** Collaborators reached only through an interface *)

(** [br::Transform]: the feature-extraction plugin.  [T] is the type of
    transform objects; [Transform_make] is the name-keyed factory ([None]
    when the factory aborts), [project] is [data >> *transform]. *)
Class Transform (T : Type) := {
  Transform_make : string -> option T;
  project : T -> TemplateList -> TemplateList;
  Transform_store : T -> list byte;
  Transform_load : T -> list byte -> option (T * list byte)
}.

(** [br::Distance]: the comparison plugin; [compareTemplates d target query]
    is the score of one pair. *)
Class Distance (D Score : Type) := {
  Distance_make : string -> option D;
  compareTemplates : D -> Template -> Template -> Score;
  Distance_store : D -> list byte;
  Distance_load : D -> list byte -> option (D * list byte)
}.

(** What core.cpp takes from Qt, [QtUtils] and [br::File] without defining
    it. *)
Class Platform := {
  (** [File(QString)]: the implicit conversion of a string to a file *)
  toFile : string -> File;
  (** [File::flat], [File::baseName], [File::hash], [File::suffix],
      [File::fileName] *)
  flat : File -> string;
  baseName : File -> string;
  hash : File -> string;
  suffix : File -> string;
  fileName : File -> string;
  (** [QString::arg(int)] and [QString::contains] *)
  arg : string -> Z -> string;
  hasMarker : string -> string -> bool;
  (** [QtUtils::parse(args, split)] *)
  parse : string -> ascii -> list string;
  (** [QtUtils::writeFile(file, data, -1)] compresses, [QtUtils::readFile
      (file, data, true)] uncompresses *)
  qCompress : list byte -> list byte;
  qUncompress : list byte -> option (list byte);
  (** [QDataStream] encoding of the two scalar fields of a model *)
  putString : string -> list byte;
  getString : list byte -> option (string * list byte);
  putBool : bool -> list byte;
  getBool_stream : list byte -> option (bool * list byte);
  (** whether [Gallery::make] finds an implementation for a file *)
  galleryPlugin : File -> bool;
  (** [TemplateList::fromGallery(input)]: what the input source delivers
      the [k]-th time it is materialised *)
  fromGallery : nat -> File -> TemplateList
}.

(** ** The process-wide context and the world the core acts on *)

(** [br::Context] ([Globals]); only the members core.cpp touches. *)
Record Context := mkContext {
  blockSize : Z;
  parallelism : Z;
  currentStep : Z;
  totalSteps : Z;
  abbreviations : gmap string string;
  sdkPath : string
}.

(** Modelled from the spec: [Context::blocks] (not in core.cpp), the number
    of blocks of the configured block size an input of [size] records is
    partitioned into. *)
Definition blocks (c : Context) (size : Z) : Z := ceil_div size (blockSize c).

Record World := mkWorld {
  Globals : Context;
  (** contents of every gallery, by file name *)
  galleries : gmap string TemplateList;
  (** the file system, by path *)
  disk : gmap string (list byte);
  (** how many times an input source has been materialised *)
  reads : nat;
  (** instrumentation: the batches handed to a transform, oldest first *)
  projected : list TemplateList
}.

Definition set_steps (cur tot : Z) (w : World) : World :=
  let c := Globals w in
  mkWorld (mkContext (blockSize c) (parallelism c) cur tot (abbreviations c) (sdkPath c))
          (galleries w) (disk w) (reads w) (projected w).

Definition set_galleries (gs : gmap string TemplateList) (w : World) : World :=
  mkWorld (Globals w) gs (disk w) (reads w) (projected w).

Definition set_disk (d : gmap string (list byte)) (w : World) : World :=
  mkWorld (Globals w) (galleries w) d (reads w) (projected w).

Definition next_read (w : World) : World :=
  mkWorld (Globals w) (galleries w) (disk w) (S (reads w)) (projected w).

Definition record_projection (data : TemplateList) (w : World) : World :=
  mkWorld (Globals w) (galleries w) (disk w) (reads w) (projected w ++ [data]).

Definition exists_ (w : World) (path : string) : bool :=
  bool_decide (is_Some (disk w !! path)).

(** ** Galleries *)

(** Modelled from the spec: [br::Gallery] (not in core.cpp) is "a streaming
    cursor over a sequence of Template batches" that "supports repeated,
    independent read passes" and "appending batches"; [files()] returns the
    "existing contents without re-enrollment".  A handle is the gallery's
    name and a read position; a pass delivers blocks of the configured block
    size, flags the last one as done and starts over. *)
Record Gallery := mkGallery {
  key : string;
  cursor : nat
}.

Definition Gallery_make `{!Platform} (f : File) : option Gallery :=
  if galleryPlugin f then Some (mkGallery (name f) 0%nat) else None.

Definition gallery_contents (w : World) (g : Gallery) : TemplateList :=
  default [] (galleries w !! key g).

Definition Gallery_files (w : World) (g : Gallery) : FileList :=
  files (gallery_contents w g).

Definition writeBlock (g : Gallery) (data : TemplateList) (w : World) : World :=
  set_galleries (<[key g := gallery_contents w g ++ data]> (galleries w)) w.

Definition readBlock (w : World) (g : Gallery) : TemplateList * bool * Gallery :=
  let rest := drop (cursor g) (gallery_contents w g) in
  let n := Z.to_nat (blockSize (Globals w)) in
  let templates := take n rest in
  let done := isEmpty (drop n rest) in
  (templates, done,
   mkGallery (key g) (if done then 0%nat else (cursor g + length templates)%nat)).

(** ** AlgorithmCore *)

Section AlgorithmCore.
Context {T D Score : Type} `{!Transform T} `{!Distance D Score} `{!Platform}.

(** [name] is [core_name] here, [File] already has a [name]. *)
Record AlgorithmCore := mkCore {
  transform : option T;
  distance : option D;
  core_name : string
}.

Definition isClassifier (a : AlgorithmCore) : bool :=
  match distance a with
  | None => true
  | Some _ => false
  end.

Definition getMemoryGallery (a : AlgorithmCore) (f : File) : File :=
  toFile (core_name a +:+ baseName f +:+ hash f +:+ ".mem").

(** *** enroll *)

(** Lines 158-160: [for (i = data.size()-1; i >= 0; i--) if
    (fileNames.contains(data[i].file.name)) data.removeAt(i)]; [n] is
    [i + 1]. *)
Fixpoint removeKnown (n : nat) (fileNames : list string) (data : TemplateList)
  : TemplateList :=
  match n with
  | O => data
  | S i =>
      let data' :=
        match data !! i with
        | Some t =>
            if bool_decide (name (file t) ∈ fileNames) then delete i data else data
        | None => data
        end in
      removeKnown i fileNames data'
  end.

(** Lines 157-173, one non-empty sub-block. *)
Definition enrollSubBlock (tr : T) (g : Gallery) (noDuplicates : bool)
    (fileNames : list string) (data : TemplateList) (st : World * FileList)
  : World * FileList :=
  let '(w, fileList) := st in
  let data := if noDuplicates then removeKnown (length data) fileNames data else data in
  let numFiles := Z.of_nat (length data) in
  let w := record_projection data w in
  let data := project tr data in
  let w := writeBlock g data w in
  let newFiles := files data in
  let fileList := fileList ++ newFiles in
  let w := set_steps (currentStep (Globals w) + numFiles) (totalSteps (Globals w)) w in
  (w, fileList).

(** Lines 154-174: [n] is the number of sub-block indices still to visit. *)
Fixpoint subBlockLoop (n : nat) (subBlock : Z) (tr : T) (g : Gallery)
    (noDuplicates : bool) (fileNames : list string) (i : TemplateList)
    (blockSize subBlockSize block : Z) (st : World * FileList) : World * FileList :=
  match n with
  | O => st
  | S n' =>
      let data := mid i (block * blockSize + subBlock * subBlockSize) subBlockSize in
      if isEmpty data then st
      else subBlockLoop n' (subBlock + 1) tr g noDuplicates fileNames i
             blockSize subBlockSize block
             (enrollSubBlock tr g noDuplicates fileNames data st)
  end.

(** Lines 153-175: [n] is the number of blocks still to visit. *)
Fixpoint blockLoop (n : nat) (block : Z) (tr : T) (g : Gallery)
    (noDuplicates : bool) (fileNames : list string) (i : TemplateList)
    (blockSize subBlockSize numSubBlocks : Z) (st : World * FileList)
  : World * FileList :=
  match n with
  | O => st
  | S n' =>
      blockLoop n' (block + 1) tr g noDuplicates fileNames i
        blockSize subBlockSize numSubBlocks
        (subBlockLoop (Z.to_nat numSubBlocks) 0 tr g noDuplicates fileNames i
           blockSize subBlockSize block st)
  end.

(** How one execution of the [do] body ends: at one of its two [return]
    statements, or at the loop condition. *)
Inductive PassEnd :=
| Returned (fileList : FileList)
| Completed (fileList : FileList).

(** Lines 130-181, the body of the [do .. while].  [Globals->blockSize] is
    read once for the loops, which do not write it. *)
Definition enrollPass (a : AlgorithmCore) (input gallery : File) (g : Gallery)
    (w : World) : result (World * PassEnd) :=
  let fileList : FileList := [] in
  let fileList :=
    if contains gallery "read" || contains gallery "cache"
    then Gallery_files w g else fileList in
  if negb (isEmpty fileList) && contains gallery "cache" then Ok (w, Returned fileList)
  else
    let i := fromGallery (reads w) input in
    let w := next_read w in
    if isEmpty i then Ok (w, Returned fileList)
    else
      match transform a with
      | None => Fatal "Null transform."
      | Some tr =>
          let blocks := blocks (Globals w) (Z.of_nat (length i)) in
          let w := set_steps 0 (Z.of_nat (length i)) w in
          let noDuplicates := contains gallery "noDuplicates" in
          let fileNames := if noDuplicates then names fileList else [] in
          let subBlockSize := 4 * Z.max 1 (parallelism (Globals w)) in
          let numSubBlocks := ceil_div (blockSize (Globals w)) subBlockSize in
          let '(w, fileList) :=
            blockLoop (Z.to_nat blocks) 0 tr g noDuplicates fileNames i
              (blockSize (Globals w)) subBlockSize numSubBlocks (w, fileList) in
          let w := set_steps (currentStep (Globals w)) 0 w in
          Ok (w, Completed fileList)
      end.

(** Lines 129-184: the [do .. while (input.getBool("infinite"))]. *)
Fixpoint enrollLoop (fuel : nat) (a : AlgorithmCore) (input gallery : File)
    (g : Gallery) (w : World) : option (result (World * FileList)) :=
  match fuel with
  | O => None
  | S fuel' =>
      match enrollPass a input gallery g w with
      | Fatal m => Some (Fatal m)
      | Ok (w', Returned fileList) => Some (Ok (w', fileList))
      | Ok (w', Completed fileList) =>
          if getBool input "infinite" false
          then enrollLoop fuel' a input gallery g w'
          else Some (Ok (w', fileList))
      end
  end.

(** [FileList enroll(File input, File gallery = File())] *)
Definition enroll (fuel : nat) (a : AlgorithmCore) (input gallery : File)
    (w : World) : option (result (World * FileList)) :=
  if bool_decide (name gallery = "") && bool_decide (name input = "")
  then Some (Ok (w, []))
  else
    let gallery :=
      if bool_decide (name gallery = "") then getMemoryGallery a input else gallery in
    match Gallery_make gallery with
    | None => Some (Fatal "Null gallery!")
    | Some g => enrollLoop fuel a input gallery g w
    end.

(** [void enroll(TemplateList &data)] *)
Definition enrollTemplates (a : AlgorithmCore) (data : TemplateList)
  : result TemplateList :=
  match transform a with
  | None => Fatal "Null transform."
  | Some tr => Ok (project tr data)
  end.

(** *** retrieveOrEnroll *)

(** A dereferenced null pointer ends the process like [qFatal] does. *)
Definition nullDereference {A} : result A := Fatal "null pointer dereference".

Definition retrieveOrEnroll (fuel : nat) (a : AlgorithmCore) (f : File) (w : World)
  : option (result (World * Gallery * FileList)) :=
  if negb (getBool f "enroll" false)
     && bool_decide (suffix f ∈ ["gal"; "mem"; "template"])
  then
    match Gallery_make f with
    | None => Some nullDereference
    | Some gallery => Some (Ok (w, gallery, Gallery_files w gallery))
    end
  else
    match Gallery_make (getMemoryGallery a f) with
    | None => Some nullDereference
    | Some gallery =>
        let galleryFiles := Gallery_files w gallery in
        if negb (isEmpty galleryFiles) then Some (Ok (w, gallery, galleryFiles))
        else
          match enroll fuel a f File_null w with
          | None => None
          | Some (Fatal m) => Some (Fatal m)
          | Some (Ok (w, _)) =>
              match Gallery_make (getMemoryGallery a f) with
              | None => Some nullDereference
              | Some gallery => Some (Ok (w, gallery, Gallery_files w gallery))
              end
          end
    end.

(** *** compare *)

(** [QList::operator[]] outside the list ends the process as well. *)
Definition indexOutOfRange {A} : result A := Fatal "index out of range".

(** Modelled from the spec: [br::Output] (not in core.cpp) is "an
    addressable sink keyed by (queryBlockIndex, targetBlockIndex), accepting
    scalar similarity scores at (queryOffset, targetOffset) within the
    current block pair".  A sink keeps the block pair it was last pointed at
    and the scores written to it, oldest first. *)
Record Score_at := mkScore {
  queryBlockIndex : Z;
  targetBlockIndex : Z;
  queryOffset : nat;
  targetOffset : nat;
  value : Score
}.

Record Output := mkOutput {
  output_file : File;
  current_block : Z * Z;
  scores : list Score_at
}.

Definition Output_make (f : File) (targetFiles queryFiles : FileList) : Output :=
  mkOutput f (0, 0) [].

Definition setBlock (rowBlock columnBlock : Z) (o : Output) : Output :=
  mkOutput (output_file o) (rowBlock, columnBlock) (scores o).

Definition setRelative (v : Score) (i j : nat) (o : Output) : Output :=
  mkOutput (output_file o) (current_block o)
    (scores o ++ [mkScore (fst (current_block o)) (snd (current_block o)) i j v]).

(** Modelled from the spec: [Distance::compare] on batches (not in
    core.cpp) writes "scores for exactly the cross product of that query
    block and that target block": one score per query row and target
    column, at the offsets of the two templates in their batches. *)
Definition compareRow (d : D) (target : TemplateList) (i : nat) (q : Template)
    (o : Output) : Output :=
  foldl (fun o jt => setRelative (compareTemplates d jt.2 q) i jt.1 o) o
        (imap pair target).

Definition compareLists (d : D) (target query : TemplateList) (o : Output) : Output :=
  foldl (fun o iq => compareRow d target iq.1 iq.2 o) o (imap pair query).

(** Modelled from the spec: [TemplateList::partition] (not in core.cpp)
    splits a block "into N aligned segments per the partition-size list":
    consecutive segments of the listed sizes. *)
Fixpoint partition (partitionSizes : list Z) (l : TemplateList) : list TemplateList :=
  match partitionSizes with
  | [] => []
  | n :: rest => take (Z.to_nat n) l :: partition rest (drop (Z.to_nat n) l)
  end.

Definition add_steps (n : Z) (w : World) : World :=
  set_steps (currentStep (Globals w) + n) (totalSteps (Globals w)) w.

(** Lines 259-274: the [while (!targetDone)] loop for query partition [i]. *)
Fixpoint targetLoop (fuel : nat) (d : D) (partitionSizes : list Z) (i : nat)
    (queries queries_i : TemplateList) (queryBlock targetBlock : Z)
    (t : Gallery) (outputs : list Output) (w : World)
  : option (result (World * Gallery * list Output)) :=
  match fuel with
  | O => None
  | S fuel' =>
      let targetBlock := targetBlock + 1 in
      let '(targets, targetDone, t) := readBlock w t in
      let targetPartitions :=
        if negb (isEmpty partitionSizes) then partition partitionSizes targets
        else [targets] in
      match outputs !! i, targetPartitions !! i with
      | Some o, Some targets_i =>
          let o := setBlock queryBlock targetBlock o in
          let o := compareLists d targets_i queries_i o in
          let outputs := <[i := o]> outputs in
          let w := add_steps (Z.of_nat (length targets) * Z.of_nat (length queries)) w in
          if targetDone then Some (Ok (w, t, outputs))
          else targetLoop fuel' d partitionSizes i queries queries_i
                 queryBlock targetBlock t outputs w
      | _, _ => Some indexOutOfRange
      end
  end.

(** Lines 256-275: [for (i = 0; i < queryPartitions.size(); i++)];
    [todo] are the partitions [i], [i+1], ... still to visit. *)
Fixpoint partitionLoop (fuel : nat) (d : D) (partitionSizes : list Z) (i : nat)
    (queries : TemplateList) (todo : list TemplateList) (queryBlock : Z)
    (t : Gallery) (outputs : list Output) (w : World)
  : option (result (World * Gallery * list Output)) :=
  match todo with
  | [] => Some (Ok (w, t, outputs))
  | queries_i :: todo' =>
      match targetLoop fuel d partitionSizes i queries queries_i queryBlock (-1)
              t outputs w with
      | None => None
      | Some (Fatal m) => Some (Fatal m)
      | Some (Ok (w, t, outputs)) =>
          partitionLoop fuel d partitionSizes (S i) queries todo' queryBlock
            t outputs w
      end
  end.

(** Lines 246-276: the [while (!queryDone)] loop. *)
Fixpoint queryLoop (fuel : nat) (d : D) (partitionSizes : list Z)
    (queryBlock : Z) (t q : Gallery) (outputs : list Output) (w : World)
  : option (result (World * list Output)) :=
  match fuel with
  | O => None
  | S fuel' =>
      let queryBlock := queryBlock + 1 in
      let '(queries, queryDone, q) := readBlock w q in
      let queryPartitions :=
        if negb (isEmpty partitionSizes) then partition partitionSizes queries
        else [queries] in
      match partitionLoop fuel' d partitionSizes 0 queries queryPartitions
              queryBlock t outputs w with
      | None => None
      | Some (Fatal m) => Some (Fatal m)
      | Some (Ok (w, t, outputs)) =>
          if queryDone then Some (Ok (w, outputs))
          else queryLoop fuel' d partitionSizes queryBlock t q outputs w
      end
  end.

(** Modelled from the spec: [File::get<bool>(key, defaultValue)], used for
    the output "marked cacheable". *)
Definition get_bool (f : File) (key : string) (defaultValue : bool) : bool :=
  match m_metadata f !! key with
  | Some (VBool b) => b
  | _ => defaultValue
  end.

(** Lines 226-236: the partition sizes and the output files. *)
Definition outputFiles (output : File) : result (list Z * list File) :=
  if contains output "split" then
    if negb (hasMarker (fileName output) "%1")
    then Fatal "Output file name missing split number place marker (%1)"
    else
      let partitionSizes := getList output "split" in
      Ok (partitionSizes,
          map (fun i => toFile (arg (name output) (Z.of_nat i)))
              (seq 0 (length partitionSizes)))
  else Ok ([], [output]).

(** [void compare(File targetGallery, File queryGallery, File output)];
    the result carries the sinks as they are when [qDeleteAll] flushes
    them. *)
Definition compare (fuel : nat) (a : AlgorithmCore)
    (targetGallery queryGallery output : File) (w : World)
  : option (result (World * list Output)) :=
  if exists_ w (name output) && get_bool output "cache" false then Some (Ok (w, []))
  else
    let queryGallery :=
      if File_eqb queryGallery "." then targetGallery else queryGallery in
    match retrieveOrEnroll fuel a targetGallery w with
    | None => None
    | Some (Fatal m) => Some (Fatal m)
    | Some (Ok (w, t, targetFiles)) =>
        match retrieveOrEnroll fuel a queryGallery w with
        | None => None
        | Some (Fatal m) => Some (Fatal m)
        | Some (Ok (w, q, queryFiles)) =>
            match outputFiles output with
            | Fatal m => Some (Fatal m)
            | Ok (partitionSizes, outputFiles) =>
                let outputs :=
                  map (fun f => Output_make f targetFiles queryFiles) outputFiles in
                match distance a with
                | None => Some (Fatal "Null distance.")
                | Some d =>
                    let w :=
                      set_steps 0 (Z.of_nat (length targetFiles)
                                   * Z.of_nat (length queryFiles)) w in
                    match queryLoop fuel d partitionSizes (-1) t q outputs w with
                    | None => None
                    | Some (Fatal m) => Some (Fatal m)
                    | Some (Ok (w, outputs)) =>
                        Some (Ok (set_steps (currentStep (Globals w)) 0 w, outputs))
                    end
                end
            end
        end
    end.

(** *** store, load, init *)

(** [void store(const QString &model) const] *)
Definition store (a : AlgorithmCore) (model : string) (w : World) : result World :=
  match transform a with
  | None => nullDereference
  | Some tr =>
      let hasComparer := negb (isClassifier a) in
      let data :=
        putString (core_name a) ++ Transform_store tr ++ putBool hasComparer
        ++ match distance a with
           | Some d => Distance_store d
           | None => []
           end in
      Ok (set_disk (<[model := qCompress data]> (disk w)) w)
  end.

Definition getFileName (w : World) (description : string) : string :=
  let f := sdkPath (Globals w) +:+ "/share/openbr/models/algorithms/" +:+ description in
  if exists_ w f then f else "".

(** Modelled from the spec: loading "fails fatally on missing file,
    truncated stream, or indicated-but-absent distance blob". *)
Definition truncated {A} : result A := Fatal "truncated stream".

(** [void load(const QString &model)], with the call back into [init]
    taken as an argument. *)
Definition load_with
    (init : AlgorithmCore -> File -> option (result AlgorithmCore))
    (w : World) (a : AlgorithmCore) (model : string)
  : option (result AlgorithmCore) :=
  match disk w !! model with
  | None => Some (Fatal "Unable to open file")
  | Some compressed =>
      match qUncompress compressed with
      | None => Some truncated
      | Some data =>
          match getString data with
          | None => Some truncated
          | Some (name, data) =>
              let a := mkCore (transform a) (distance a) name in
              let description :=
                match abbreviations (Globals w) !! name with
                | Some expansion => expansion
                | None => name
                end in
              match init a (toFile description) with
              | None => None
              | Some (Fatal m) => Some (Fatal m)
              | Some (Ok a) =>
                  match transform a with
                  | None => Some nullDereference
                  | Some shell =>
                      match Transform_load shell data with
                      | None => Some truncated
                      | Some (tr, data) =>
                          match getBool_stream data with
                          | None => Some truncated
                          | Some (hasDistance, data) =>
                              if hasDistance then
                                match distance a with
                                | None => Some nullDereference
                                | Some shell =>
                                    match Distance_load shell data with
                                    | None => Some truncated
                                    | Some (d, _) =>
                                        Some (Ok (mkCore (Some tr) (Some d) (core_name a)))
                                    end
                                end
                              else Some (Ok (mkCore (Some tr) (distance a) (core_name a)))
                          end
                      end
                  end
              end
          end
      end
  end.

(** Lines 311-320: a description that is neither a model nor an
    abbreviation. *)
Definition parseDescription (a : AlgorithmCore) (description : File)
  : result AlgorithmCore :=
  let words := parse (flat description) ":"%char in
  if (Z.of_nat (length words) <? 1) || (2 <? Z.of_nat (length words))
  then Fatal "Invalid algorithm format."
  else
    let words :=
      if getBool description "distribute" true
      then alter (fun w0 => "DistributeTemplate(" +:+ w0 +:+ ")") 0%nat words
      else words in
    match words !! 0%nat with
    | None => indexOutOfRange
    | Some w0 =>
        match Transform_make w0 with
        | None => Fatal "Failed to make transform"
        | Some tr =>
            if 1 <? Z.of_nat (length words) then
              match words !! 1%nat with
              | None => indexOutOfRange
              | Some w1 =>
                  match Distance_make w1 with
                  | None => Fatal "Failed to make distance"
                  | Some d => Ok (mkCore (Some tr) (Some d) (core_name a))
                  end
              end
            else Ok (mkCore (Some tr) (distance a) (core_name a))
        end
    end.

(** [void init(const File &description)] *)
Fixpoint init (fuel : nat) (w : World) (a : AlgorithmCore) (description : File)
  : option (result AlgorithmCore) :=
  match fuel with
  | O => None
  | S fuel' =>
      let file := getFileName w (name description) in
      if negb (bool_decide (file = "")) then init fuel' w a (toFile file)
      else if exists_ w (name description)
      then load_with (init fuel' w) w a (name description)
      else
        match abbreviations (Globals w) !! name description with
        | Some expansion => init fuel' w a (toFile expansion)
        | None => Some (parseDescription a description)
        end
  end.

Definition load (fuel : nat) (w : World) (a : AlgorithmCore) (model : string)
  : option (result AlgorithmCore) :=
  load_with (init fuel w) w a model.

(** [AlgorithmCore(const QString &name)] *)
Definition AlgorithmCore_new (fuel : nat) (w : World) (name : string)
  : option (result AlgorithmCore) :=
  init fuel w (mkCore None None name) (toFile name).

End AlgorithmCore.

(** ** AlgorithmManager *)

(** [getAlgorithm] is run by several threads at once, so it is given as a
    machine: a thread is at one of the statements of lines 343-355 and a
    step executes that statement on the shared registry.  Instances live on
    a heap and are known by their address, which is what "the same shared
    instance" compares.  [finalize], which empties the registry when the
    process shuts down, is not a step. *)
Module AlgorithmManager.
Section Manager.

(** The instances, and [new AlgorithmCore(algorithm)]: [None] when the
    constructor ends in [qFatal]. *)
Context {A : Type} (construct : string -> option A).

(** Addresses; [null] is the default-constructed [QSharedPointer], and the
    [n]-th instance allocated lives at address [n]. *)
Definition ptr := nat.
Definition null : ptr := 0%nat.

Inductive Stage :=
| AtEntry
| AtCheck
| AtConstruct
| AtLock (algorithmCore : ptr)
| AtRecheck (algorithmCore : ptr)
| AtUnlock
| AtReturn
| Returned (instance : ptr).

Record Thread := mkThread {
  algorithm : string;
  stage : Stage
}.

Record State := mkState {
  algorithms : gmap string ptr;
  algorithmsLock : option nat;
  heap : list A;
  threads : list Thread;
  aborted : bool
}.

Definition at_stage (tid : nat) (st : Stage) (s : State) : State :=
  mkState (algorithms s) (algorithmsLock s) (heap s)
          (alter (fun th => mkThread (algorithm th) st) tid (threads s)) (aborted s).

Definition set_algorithms (m : gmap string ptr) (s : State) : State :=
  mkState m (algorithmsLock s) (heap s) (threads s) (aborted s).

Definition set_lock (l : option nat) (s : State) : State :=
  mkState (algorithms s) l (heap s) (threads s) (aborted s).

Definition allocate (a : A) (s : State) : State :=
  mkState (algorithms s) (algorithmsLock s) (heap s ++ [a]) (threads s) (aborted s).

Definition abort (s : State) : State :=
  mkState (algorithms s) (algorithmsLock s) (heap s) (threads s) true.

(** One statement of thread [tid]; [None] when the thread cannot move: it
    does not exist, has returned, waits for the lock, or the process is
    gone. *)
Definition step (tid : nat) (s : State) : option State :=
  if aborted s then None
  else
    match threads s !! tid with
    | None => None
    | Some th =>
        match stage th with
        | AtEntry =>
            (* 343: if (algorithm.isEmpty()) qFatal("No default algorithm set.") *)
            if bool_decide (algorithm th = "") then Some (abort s)
            else Some (at_stage tid AtCheck s)
        | AtCheck =>
            (* 345: if (!algorithms.contains(algorithm)) *)
            match algorithms s !! algorithm th with
            | None => Some (at_stage tid AtConstruct s)
            | Some _ => Some (at_stage tid AtReturn s)
            end
        | AtConstruct =>
            (* 347: algorithmCore(new AlgorithmCore(algorithm)) *)
            match construct (algorithm th) with
            | None => Some (abort s)
            | Some a => Some (at_stage tid (AtLock (S (length (heap s)))) (allocate a s))
            end
        | AtLock p =>
            (* 349: algorithmsLock.lock() *)
            match algorithmsLock s with
            | None => Some (at_stage tid (AtRecheck p) (set_lock (Some tid) s))
            | Some _ => None
            end
        | AtRecheck p =>
            (* 350-351: if (!algorithms.contains(algorithm)) algorithms.insert(..) *)
            match algorithms s !! algorithm th with
            | None =>
                Some (at_stage tid AtUnlock
                        (set_algorithms (<[algorithm th := p]> (algorithms s)) s))
            | Some _ => Some (at_stage tid AtUnlock s)
            end
        | AtUnlock =>
            (* 352: algorithmsLock.unlock() *)
            Some (at_stage tid AtReturn (set_lock None s))
        | AtReturn =>
            (* 355: return algorithms[algorithm] *)
            match algorithms s !! algorithm th with
            | Some p => Some (at_stage tid (Returned p) s)
            | None =>
                (* operator[] on a missing key inserts a null pointer *)
                Some (at_stage tid (Returned null)
                        (set_algorithms (<[algorithm th := null]> (algorithms s)) s))
            end
        | Returned _ => None
        end
    end.

(** An interleaving: the threads named by the schedule take one step each,
    in order; a thread that cannot move is skipped. *)
Fixpoint run (schedule : list nat) (s : State) : State :=
  match schedule with
  | [] => s
  | tid :: rest => run rest (default s (step tid s))
  end.

(** The process starts with an empty registry and one thread per lookup. *)
Definition start (lookups : list string) : State :=
  mkState ∅ None [] (map (fun n => mkThread n AtEntry) lookups) false.

Definition returned (tid : nat) (s : State) : option ptr :=
  match threads s !! tid with
  | Some (mkThread _ (Returned p)) => Some p
  | _ => None
  end.

End Manager.
End AlgorithmManager.


(** ** AlgorithmCore: train *)

(** [Transform::train] and [Distance::train]: a component after it has been
    trained, in place in the source, on a batch. *)
Class Training (T D : Type) := {
  Transform_train : T -> TemplateList -> T;
  Distance_train : D -> TemplateList -> D
}.

(** [File::set(key, value)] *)
Definition File_set (key : string) (v : QVariant) (f : File) : File :=
  mkFile (name f) (<[key := v]> (m_metadata f)).

Section Train.
Context {T D Score : Type} `{!Transform T} `{!Distance D Score} `{!Platform}
        `{!Training T D}.

(** Lines 51-52: [data[i].file.set("Train", true)] for every record. *)
Definition markTrain (data : TemplateList) : TemplateList :=
  map (fun t => mkTemplate (File_set "Train" (VBool true) (file t)) (mats t)) data.

(** [void train(const File &input, const QString &model)]; the result is
    the world and the instance as training leaves them. *)
Definition train (a : AlgorithmCore (T := T) (D := D)) (input : File)
    (model : string) (w : World) : result (World * AlgorithmCore (T := T) (D := D)) :=
  let data := fromGallery (reads w) input in
  let w := next_read w in
  let data := markTrain data in
  match transform a with
  | None => Fatal "Null transform."
  | Some tr =>
      let tr := Transform_train tr data in
      let '(w, d) :=
        match distance a with
        | Some d =>
            let w := record_projection data w in
            let data := project tr data in
            (w, Some (Distance_train d data))
        | None => (w, None)
        end in
      let a := mkCore (Some tr) d (core_name a) in
      if bool_decide (model = "") then Ok (w, a)
      else
        match store a model w with
        | Ok w => Ok (w, a)
        | Fatal m => Fatal m
        end
  end.

End Train.

(** ** Copying galleries: the "Gallery" branches of [br::Convert] and
    [br::Cat] *)

Section GalleryCopies.
Context `{!Platform}.

(** [while (!done) after->writeBlock(before->readBlock(&done))] *)
Fixpoint copyBlocks (fuel : nat) (before after : Gallery) (w : World)
  : option (World * Gallery) :=
  match fuel with
  | O => None
  | S fuel' =>
      let '(templates, done, before) := readBlock w before in
      let w := writeBlock after templates w in
      if done then Some (w, before) else copyBlocks fuel' before after w
  end.

(** Lines 399-403: [br::Convert] for the file type "Gallery". *)
Definition convertGallery (fuel : nat) (inputFile outputFile : File) (w : World)
  : option (result World) :=
  match Gallery_make inputFile, Gallery_make outputFile with
  | Some before, Some after =>
      match copyBlocks fuel before after w with
      | None => None
      | Some (w, _) => Some (Ok w)
      end
  | _, _ => Some nullDereference
  end.

(** Lines 434-438: the input galleries still to append. *)
Fixpoint catBlocks (fuel : nat) (inputFiles : list string) (og : Gallery) (w : World)
  : option (result World) :=
  match inputFiles with
  | [] => Some (Ok w)
  | inputGallery :: rest =>
      match Gallery_make (toFile inputGallery) with
      | None => Some nullDereference
      | Some ig =>
          match copyBlocks fuel ig og w with
          | None => None
          | Some (w, _) => catBlocks fuel rest og w
          end
      end
  end.

(** Lines 428-438: [br::Cat] for the file type "Gallery". *)
Definition catGallery (fuel : nat) (inputFiles : list string) (outputFile : File)
    (w : World) : option (result World) :=
  if bool_decide (name outputFile ∈ inputFiles)
  then Some (Fatal "outputFile must not be in inputFiles.")
  else
    match Gallery_make outputFile with
    | None =>
        match inputFiles with
        | [] => Some (Ok w)
        | _ :: _ => Some nullDereference
        end
    | Some og => catBlocks fuel inputFiles og w
    end.

End GalleryCopies.

(** ** AlgorithmManager: initialize, finalize *)

Module AlgorithmManagerLifecycle.
Import AlgorithmManager.
Section Lifecycle.
Context {A : Type}.

(** [void initialize() const {}] *)
Definition initialize (s : State (A := A)) : State := s.

(** [void finalize() const]: [algorithms.clear()].  The instances stay on
    the heap for as long as a caller holds a shared pointer to them. *)
Definition finalize (s : State (A := A)) : State := set_algorithms ∅ s.

End Lifecycle.
End AlgorithmManagerLifecycle.

(** ** AlgorithmManager, access by access

    [AlgorithmManager.step] runs the [if] of lines 350-351 as one step.
    What the mutex is for shows only where the [contains] of line 350 and
    the [insert] of line 351 are steps of their own, between which
    another thread may run: this is the machine above with one step for
    every access to the registry. *)
Module AlgorithmManagerAccess.
Section Manager.

Context {A : Type} (construct : string -> option A).

Definition ptr := nat.
Definition null : ptr := 0%nat.

Inductive Stage :=
| AtEntry
| AtCheck
| AtConstruct
| AtLock (algorithmCore : ptr)
| AtRecheck (algorithmCore : ptr)
| AtInsert (algorithmCore : ptr)
| AtUnlock
| AtReturn
| Returned (instance : ptr).

Record Thread := mkThread {
  algorithm : string;
  stage : Stage
}.

Record State := mkState {
  algorithms : gmap string ptr;
  algorithmsLock : option nat;
  heap : list A;
  threads : list Thread;
  aborted : bool
}.

Definition at_stage (tid : nat) (st : Stage) (s : State) : State :=
  mkState (algorithms s) (algorithmsLock s) (heap s)
          (alter (fun th => mkThread (algorithm th) st) tid (threads s)) (aborted s).

Definition set_algorithms (m : gmap string ptr) (s : State) : State :=
  mkState m (algorithmsLock s) (heap s) (threads s) (aborted s).

Definition set_lock (l : option nat) (s : State) : State :=
  mkState (algorithms s) l (heap s) (threads s) (aborted s).

Definition allocate (a : A) (s : State) : State :=
  mkState (algorithms s) (algorithmsLock s) (heap s ++ [a]) (threads s) (aborted s).

Definition abort (s : State) : State :=
  mkState (algorithms s) (algorithmsLock s) (heap s) (threads s) true.

(** One access of thread [tid]; [None] when the thread cannot move. *)
Definition step (tid : nat) (s : State) : option State :=
  if aborted s then None
  else
    match threads s !! tid with
    | None => None
    | Some th =>
        match stage th with
        | AtEntry =>
            (* 343: if (algorithm.isEmpty()) qFatal("No default algorithm set.") *)
            if bool_decide (algorithm th = "") then Some (abort s)
            else Some (at_stage tid AtCheck s)
        | AtCheck =>
            (* 345: if (!algorithms.contains(algorithm)) *)
            match algorithms s !! algorithm th with
            | None => Some (at_stage tid AtConstruct s)
            | Some _ => Some (at_stage tid AtReturn s)
            end
        | AtConstruct =>
            (* 347: algorithmCore(new AlgorithmCore(algorithm)) *)
            match construct (algorithm th) with
            | None => Some (abort s)
            | Some a => Some (at_stage tid (AtLock (S (length (heap s)))) (allocate a s))
            end
        | AtLock p =>
            (* 349: algorithmsLock.lock() *)
            match algorithmsLock s with
            | None => Some (at_stage tid (AtRecheck p) (set_lock (Some tid) s))
            | Some _ => None
            end
        | AtRecheck p =>
            (* 350: if (!algorithms.contains(algorithm)) *)
            match algorithms s !! algorithm th with
            | None => Some (at_stage tid (AtInsert p) s)
            | Some _ => Some (at_stage tid AtUnlock s)
            end
        | AtInsert p =>
            (* 351: algorithms.insert(algorithm, algorithmCore), which
               replaces what is registered under the name *)
            Some (at_stage tid AtUnlock
                    (set_algorithms (<[algorithm th := p]> (algorithms s)) s))
        | AtUnlock =>
            (* 352: algorithmsLock.unlock() *)
            Some (at_stage tid AtReturn (set_lock None s))
        | AtReturn =>
            (* 355: return algorithms[algorithm] *)
            match algorithms s !! algorithm th with
            | Some p => Some (at_stage tid (Returned p) s)
            | None =>
                (* operator[] on a missing key inserts a null pointer *)
                Some (at_stage tid (Returned null)
                        (set_algorithms (<[algorithm th := null]> (algorithms s)) s))
            end
        | Returned _ => None
        end
    end.

Fixpoint run (schedule : list nat) (s : State) : State :=
  match schedule with
  | [] => s
  | tid :: rest => run rest (default s (step tid s))
  end.

Definition start (lookups : list string) : State :=
  mkState ∅ None [] (map (fun n => mkThread n AtEntry) lookups) false.

Definition returned (tid : nat) (s : State) : option ptr :=
  match threads s !! tid with
  | Some (mkThread _ (Returned p)) => Some p
  | _ => None
  end.

End Manager.
End AlgorithmManagerAccess.

(** ** Vocabulary of the statements *)

(** What the removal loop of lines 158-160 keeps. *)
Definition keepUnknown (fileNames : list string) (data : TemplateList) : TemplateList :=
  filter (fun t => name (file t) ∉ fileNames) data.

(** At most [n] consecutive windows of [s] elements of [r], up to the first
    empty one: the sub-blocks one block visits. *)
Fixpoint chunks {A} (n s : nat) (r : list A) : list (list A) :=
  match n with
  | O => []
  | S n' => if isEmpty (take s r) then [] else take s r :: chunks n' s (drop s r)
  end.

(** The sub-blocks visited by blocks [from], ..., [from + nb - 1], in order:
    block [b] starts at record [b * B] and visits up to [k] windows of [s]
    records. *)
Definition visited {A} (i : list A) (B s k from nb : nat) : list (list A) :=
  concat (map (fun b => chunks k s (drop (b * B) i)) (seq from nb)).

(** The members of the world that enrollment leaves alone. *)
Definition same_setting (w w' : World) : Prop :=
  blockSize (Globals w') = blockSize (Globals w)
  /\ parallelism (Globals w') = parallelism (Globals w)
  /\ abbreviations (Globals w') = abbreviations (Globals w)
  /\ sdkPath (Globals w') = sdkPath (Globals w)
  /\ disk w' = disk w.

(** Lines 132-136: the record list a pass starts from, and whether the pass
    ends at once on it. *)
Definition existing (gallery : File) (w : World) (g : Gallery) : FileList :=
  if contains gallery "read" || contains gallery "cache"
  then Gallery_files w g else [].

Definition cacheHit (gallery : File) (w : World) (g : Gallery) : bool :=
  negb (isEmpty (existing gallery w g)) && contains gallery "cache".

(** Lines 149-150 and 142. *)
Definition subBlockSize (c : Context) : Z := 4 * Z.max 1 (parallelism c).

Definition numSubBlocks (c : Context) : Z := ceil_div (blockSize c) (subBlockSize c).

(** The sub-blocks a pass over the input [i] visits. *)
Definition passChunks (c : Context) (i : TemplateList) : list TemplateList :=
  visited i (Z.to_nat (blockSize c)) (Z.to_nat (subBlockSize c))
    (Z.to_nat (numSubBlocks c)) 0 (Z.to_nat (blocks c (Z.of_nat (length i)))).

Section Vocabulary.
Context {T D Score : Type} `{!Transform T} `{!Distance D Score} `{!Platform}.

(** What one sub-block hands to the transform, and what the transform
    returns for a sequence of sub-blocks. *)
Definition offered (noDuplicates : bool) (fileNames : list string)
    (data : TemplateList) : TemplateList :=
  if noDuplicates then keepUnknown fileNames data else data.

Definition enrolled (tr : T) (noDuplicates : bool) (fileNames : list string)
    (cs : list TemplateList) : TemplateList :=
  concat (map (fun c => project tr (offered noDuplicates fileNames c)) cs).

(** Lines 157-173 over a sequence of sub-blocks. *)
Definition enrollAll (tr : T) (g : Gallery) (noDuplicates : bool)
    (fileNames : list string) (cs : list TemplateList) (st : World * FileList)
  : World * FileList :=
  foldl (fun st data => enrollSubBlock tr g noDuplicates fileNames data st) st cs.

(** A transform that keeps the identity of every record it projects. *)
Definition keepsIdentity (tr : T) : Prop :=
  forall l : TemplateList, names (files (project tr l)) = names (files l).

(** Lines 121-124: the gallery an enrollment writes to. *)
Definition targetGallery (a : AlgorithmCore (T := T) (D := D)) (input gallery : File)
  : File :=
  if bool_decide (name gallery = "") then getMemoryGallery a input else gallery.

(** What [enroll] returns when one execution of the [do] body ends it. *)
Definition passResult (r : result (World * PassEnd)) : result (World * FileList) :=
  match r with
  | Fatal m => Fatal m
  | Ok (w, Returned fileList) => Ok (w, fileList)
  | Ok (w, Completed fileList) => Ok (w, fileList)
  end.

(** The world after [k] executions of the [do] body that each ran to the
    end of the body, where the loop condition is tested; [None] when one
    of them ended at a [return] or in [qFatal] instead. *)
Fixpoint completedPasses (k : nat) (a : AlgorithmCore (T := T) (D := D))
    (input gallery : File) (g : Gallery) (w : World) : option World :=
  match k with
  | O => Some w
  | S k' =>
      match enrollPass a input gallery g w with
      | Ok (w', Completed _) => completedPasses k' a input gallery g w'
      | _ => None
      end
  end.

(** The scores [Distance::compare] writes for one pair of batches, at
    block [(qb, tb)]: row-major, one per query and target. *)
Definition blockScores (d : D) (qb tb : Z) (target query : TemplateList)
  : list Score_at :=
  concat (imap (fun i q =>
                  imap (fun j t => mkScore qb tb i j (compareTemplates d t q)) target)
               query).

(** Lines 252-254 and 264-266: the segments of a block. *)
Definition segments (partitionSizes : list Z) (block : TemplateList)
  : list TemplateList :=
  if negb (isEmpty partitionSizes) then partition partitionSizes block else [block].

Definition segment (partitionSizes : list Z) (i : nat) (block : TemplateList)
  : TemplateList :=
  default [] (segments partitionSizes block !! i).

(** The scores shard [i] receives while one query segment meets the target
    blocks [tblocks], numbered from [tb]. *)
Definition targetPassScores (d : D) (partitionSizes : list Z) (i : nat)
    (qb tb : Z) (tblocks : list TemplateList) (queries_i : TemplateList)
  : list Score_at :=
  concat (imap (fun k tblock =>
                  blockScores d qb (tb + Z.of_nat k)
                    (segment partitionSizes i tblock) queries_i)
               tblocks).

(** The scores shard [i] receives over the query blocks [qblocks], numbered
    from [qb]. *)
Definition shardScores (d : D) (partitionSizes : list Z) (i : nat) (qb : Z)
    (tblocks qblocks : list TemplateList) : list Score_at :=
  concat (imap (fun k qblock =>
                  targetPassScores d partitionSizes i (qb + Z.of_nat k) 0 tblocks
                    (segment partitionSizes i qblock))
               qblocks).


(** Line 316: the feature token as handed to the transform factory. *)
Definition distributed (description : File) (word : string) : string :=
  if getBool description "distribute" true
  then "DistributeTemplate(" +:+ word +:+ ")" else word.

(** What the spec says a descriptor of colon-separated tokens makes of an
    instance: "exactly one or two colon-separated tokens are legal; any
    other count fails with a fatal configuration error"; "the feature token
    and (if present) distance token are each instantiated via a capability
    factory keyed by name; absence of a distance token leaves the instance"
    as it is. *)
Definition described (a : AlgorithmCore (T := T) (D := D)) (description : File)
  : result AlgorithmCore :=
  match parse (flat description) ":"%char with
  | [feature] =>
      match Transform_make (distributed description feature) with
      | Some tr => Ok (mkCore (Some tr) (distance a) (core_name a))
      | None => Fatal "Failed to make transform"
      end
  | [feature; metric] =>
      match Transform_make (distributed description feature), Distance_make metric with
      | Some tr, Some d => Ok (mkCore (Some tr) (Some d) (core_name a))
      | None, _ => Fatal "Failed to make transform"
      | Some _, None => Fatal "Failed to make distance"
      end
  | _ => Fatal "Invalid algorithm format."
  end.

(** Shells and trained components of the same kind, for a relation [kinT]
    between transforms and [kinD] between distances: what [init] builds
    from a name, against what an instance holds. *)
Definition sameKinds (kinT : T -> T -> Prop) (kinD : D -> D -> Prop)
    (shell a : AlgorithmCore (T := T) (D := D)) : Prop :=
  match transform shell, transform a with
  | Some x, Some y => kinT x y
  | _, _ => False
  end
  /\ match distance shell, distance a with
     | Some x, Some y => kinD x y
     | None, None => True
     | _, _ => False
     end.

(** Line 104: the description [load] hands to [init] for a stored name. *)
Definition resolved (w : World) (name : string) : File :=
  toFile match abbreviations (Globals w) !! name with
         | Some expansion => expansion
         | None => name
         end.


(** A score with its place in the whole matrix: query row, target column
    and value, for blocks of [B] records. *)
Definition located (B : nat) (s : Score_at) : nat * nat * Score :=
  ((Z.to_nat (queryBlockIndex s) * B + queryOffset s)%nat,
   (Z.to_nat (targetBlockIndex s) * B + targetOffset s)%nat,
   value s).

(** The similarity matrix of [query] against [target], row-major, with its
    first cell at [(q0, t0)]. *)
Definition matrixAt (d : D) (q0 t0 : nat) (target query : TemplateList)
  : list (nat * nat * Score) :=
  concat (imap (fun i q =>
                  imap (fun j t => ((q0 + i)%nat, (t0 + j)%nat, compareTemplates d t q))
                       target)
               query).

Definition matrix (d : D) (target query : TemplateList) : list (nat * nat * Score) :=
  matrixAt d 0 0 target query.

End Vocabulary.

(** The blocks one read pass over [rest] delivers, [B] records each. *)
Fixpoint passBlocks {A} (fuel B : nat) (rest : list A) : list (list A) :=
  match fuel with
  | O => []
  | S fuel' =>
      take B rest :: (if isEmpty (drop B rest) then [] else passBlocks fuel' B (drop B rest))
  end.

Definition blocksOf {A} (B : nat) (l : list A) : list (list A) :=
  passBlocks (S (length l)) B l.


(** The only change comparison makes to the world: the progress counter. *)
Definition steps_only (w w' : World) : Prop :=
  exists cur tot, w' = set_steps cur tot w.

(** What holds of the registry in every interleaving. *)
Module RegistryInvariant.
Import AlgorithmManager.
Section Invariant.
Context {A : Type}.

(** For a thread at a given statement: a returned pointer is the one
    registered under the thread's name; past the locked section and at the
    [return] the name is registered; a candidate is a live address. *)
Definition stage_ok (m : gmap string ptr) (h : nat) (th : Thread) : Prop :=
  match stage th with
  | Returned p => m !! algorithm th = Some p
  | AtReturn | AtUnlock => is_Some (m !! algorithm th)
  | AtLock p | AtRecheck p => (0 < p <= h)%nat
  | AtEntry | AtCheck | AtConstruct => True
  end.

Definition threads_ok (m : gmap string ptr) (h : nat) (ths : list Thread) : Prop :=
  forall tid th, ths !! tid = Some th -> stage_ok m h th.

(** Registered pointers are live addresses, never null. *)
Definition registry_ok (m : gmap string ptr) (h : nat) : Prop :=
  forall n p, m !! n = Some p -> (0 < p <= h)%nat.

Definition invariant (s : State (A := A)) : Prop :=
  threads_ok (algorithms s) (length (heap s)) (threads s)
  /\ registry_ok (algorithms s) (length (heap s)).

End Invariant.
End RegistryInvariant.

(** ** More vocabulary for the registry *)

Module RegistryLock.
Import AlgorithmManager.
Section Lock.
Context {A : Type}.

(** Between [algorithmsLock.lock()] and [algorithmsLock.unlock()]: lines
    350-352. *)
Definition locked (st : Stage) : bool :=
  match st with
  | AtRecheck _ | AtUnlock => true
  | _ => false
  end.

Definition holds_lock (tid : nat) (ths : list Thread) : Prop :=
  exists th, ths !! tid = Some th /\ locked (stage th) = true.

(** The mutex names a thread exactly when that thread is between [lock()]
    and [unlock()]. *)
Definition lock_ok (s : State (A := A)) : Prop :=
  forall tid, algorithmsLock s = Some tid <-> holds_lock tid (threads s).

Definition has_returned (th : Thread) : bool :=
  match stage th with
  | Returned _ => true
  | _ => false
  end.

(** Every call of [getAlgorithm] has returned. *)
Definition finished (s : State (A := A)) : bool := forallb has_returned (threads s).

(** The statements a call still has to execute, at most. *)
Definition remaining (st : Stage) : nat :=
  match st with
  | AtEntry => 7
  | AtCheck => 6
  | AtConstruct => 5
  | AtLock _ => 4
  | AtRecheck _ => 3
  | AtUnlock => 2
  | AtReturn => 1
  | Returned _ => 0
  end.

Definition work (ths : list Thread) : nat :=
  foldr (fun th n => (remaining (stage th) + n)%nat) 0%nat ths.

(** Calls that have not yet passed line 347, where the instance is
    constructed. *)
Definition pending (st : Stage) : nat :=
  match st with
  | AtEntry | AtCheck | AtConstruct => 1
  | _ => 0
  end.

Definition waiting (ths : list Thread) : nat :=
  foldr (fun th n => (pending (stage th) + n)%nat) 0%nat ths.

(** [p] is the address of an instance that [new AlgorithmCore(n)] made. *)
Definition constructed_from (construct : string -> option A) (h : list A)
    (n : string) (p : ptr) : Prop :=
  exists a, p <> null /\ h !! pred p = Some a /\ construct n = Some a.

Definition candidate_ok (construct : string -> option A) (h : list A)
    (th : Thread) : Prop :=
  match stage th with
  | AtLock p | AtRecheck p => constructed_from construct h (algorithm th) p
  | _ => True
  end.

(** Registered instances and the candidates of the threads were made from
    the name they stand for. *)
Definition provenance_ok (construct : string -> option A) (s : State (A := A)) : Prop :=
  (forall n p, algorithms s !! n = Some p -> constructed_from construct (heap s) n p)
  /\ (forall tid th, threads s !! tid = Some th -> candidate_ok construct (heap s) th).

(** One call run on its own: thread [tid] executes [k] statements. *)
Definition alone (construct : string -> option A) (tid k : nat) (s : State (A := A))
  : State :=
  run construct (replicate k tid) s.

End Lock.
End RegistryLock.

(** ** More vocabulary for the core *)

(** The settings that enrollment and comparison read and never write. *)
Definition same_settings (w w' : World) : Prop :=
  blockSize (Globals w') = blockSize (Globals w)
  /\ parallelism (Globals w') = parallelism (Globals w)
  /\ abbreviations (Globals w') = abbreviations (Globals w)
  /\ sdkPath (Globals w') = sdkPath (Globals w).

(** No gallery outside [ks] has changed. *)
Definition only_galleries (ks : list string) (w w' : World) : Prop :=
  forall k, k ∉ ks -> galleries w' !! k = galleries w !! k.

(** Every gallery still starts with the records it held. *)
Definition append_only (w w' : World) : Prop :=
  forall k, exists new,
    default [] (galleries w' !! k) = default [] (galleries w !! k) ++ new.

(** The list a pass ends with. *)
Definition passList (e : PassEnd) : FileList :=
  match e with
  | Returned fileList => fileList
  | Completed fileList => fileList
  end.

(** Line 200: the files [retrieveOrEnroll] reads as a stored gallery. *)
Definition storedGallery `{!Platform} (f : File) : bool :=
  negb (getBool f "enroll" false)
  && bool_decide (suffix f ∈ ["gal"; "mem"; "template"]).

(** ** Vocabulary for the registry, access by access *)

Module AccessInvariant.
Import AlgorithmManagerAccess.
Section Invariant.
Context {A : Type}.

(** For a thread at a given access: a returned pointer is the one
    registered under the thread's name; past the locked section and at the
    [return] the name is registered; a candidate is a live address; and a
    thread about to insert has found its name missing, and it still is. *)
Definition stage_ok (m : gmap string ptr) (h : nat) (th : Thread) : Prop :=
  match stage th with
  | Returned p => m !! algorithm th = Some p
  | AtReturn | AtUnlock => is_Some (m !! algorithm th)
  | AtInsert p => (0 < p <= h)%nat /\ m !! algorithm th = None
  | AtLock p | AtRecheck p => (0 < p <= h)%nat
  | AtEntry | AtCheck | AtConstruct => True
  end.

Definition threads_ok (m : gmap string ptr) (h : nat) (ths : list Thread) : Prop :=
  forall tid th, ths !! tid = Some th -> stage_ok m h th.

Definition registry_ok (m : gmap string ptr) (h : nat) : Prop :=
  forall n p, m !! n = Some p -> (0 < p <= h)%nat.

(** Between [lock()] and [unlock()]: lines 350-352. *)
Definition locked (st : Stage) : bool :=
  match st with
  | AtRecheck _ | AtInsert _ | AtUnlock => true
  | _ => false
  end.

Definition holds_lock (tid : nat) (ths : list Thread) : Prop :=
  exists th, ths !! tid = Some th /\ locked (stage th) = true.

Definition lock_ok (s : State (A := A)) : Prop :=
  forall tid, algorithmsLock s = Some tid <-> holds_lock tid (threads s).

Definition invariant (s : State (A := A)) : Prop :=
  threads_ok (algorithms s) (length (heap s)) (threads s)
  /\ registry_ok (algorithms s) (length (heap s))
  /\ lock_ok s.

End Invariant.
End AccessInvariant.

(** ** A small concrete platform

    One implementation of every interface above, on which the operations
    run: plain strings for file names, the identity for compression, marked
    characters for stream strings, a transform and a distance with one byte
    of trained state each. *)
Module Demo.

Fixpoint suffixFrom (s acc : string) : string :=
  match s with
  | EmptyString => acc
  | String c rest => if Ascii.eqb c "."%char then suffixFrom rest rest else suffixFrom rest acc
  end.

(** split on a character; [cur] is the token read so far, reversed *)
Fixpoint splitOn (c : ascii) (s : string) (cur : string) : list string :=
  match s with
  | EmptyString => [String.rev cur]
  | String x rest =>
      if Ascii.eqb x c then String.rev cur :: splitOn c rest EmptyString
      else splitOn c rest (String x cur)
  end.

Definition digit (n : Z) : string :=
  String (ascii_of_nat (48 + Z.to_nat n)) EmptyString.

(** a stream string: every character behind a [x01] mark, then [x00] *)
Fixpoint encodeString (s : string) : list byte :=
  match s with
  | EmptyString => [x00]
  | String c rest => x01 :: byte_of_ascii c :: encodeString rest
  end.

Fixpoint decodeString (data : list byte) : option (string * list byte) :=
  match data with
  | x00 :: rest => Some (EmptyString, rest)
  | x01 :: c :: data' =>
      match decodeString data' with
      | Some (s, rest) => Some (String (ascii_of_byte c) s, rest)
      | None => None
      end
  | _ => None
  end.

Definition encodeBool (b : bool) : list byte := [if b then x01 else x00].

Definition decodeBool (data : list byte) : option (bool * list byte) :=
  match data with
  | [] => None
  | b :: rest => Some (negb (Byte.eqb b x00), rest)
  end.

(** the [n] records an input source named by its identifiers delivers *)
Definition record (id : Z) : Template :=
  mkTemplate (File_of ("r" +:+ digit (id / 10) +:+ digit (id mod 10))) [[id]].

Definition records (n : nat) : TemplateList :=
  map (fun k => record (Z.of_nat k)) (seq 0 n).

#[global] Instance platform : Platform := {|
  toFile := File_of;
  flat := name;
  baseName := name;
  hash := fun _ => "#";
  suffix := fun f => suffixFrom (name f) "";
  fileName := name;
  arg := fun s i => s +:+ "." +:+ digit i;
  hasMarker := fun s m => bool_decide (is_Some (String.index 0 m s));
  parse := fun s c => match s with EmptyString => [] | _ => splitOn c s EmptyString end;
  qCompress := fun d => d;
  qUncompress := fun d => Some d;
  putString := encodeString;
  getString := decodeString;
  putBool := encodeBool;
  getBool_stream := decodeBool;
  galleryPlugin := fun _ => true;
  fromGallery := fun _ f => map record (getList f "ids")
|}.

(** a transform that scales every matrix by its trained gain *)
Record Scale := mkScale {
  scale_description : string;
  gain : byte
}.

#[global] Instance scale_transform : Transform Scale := {|
  Transform_make := fun s => Some (mkScale s x01);
  project := fun tr =>
    map (fun t => mkTemplate (file t)
                    (map (map (Z.mul (Z.of_nat (Byte.to_nat (gain tr))))) (mats t)));
  Transform_store := fun tr => [gain tr];
  Transform_load := fun shell data =>
    match data with
    | [] => None
    | b :: rest => Some (mkScale (scale_description shell) b, rest)
    end
|}.

(** a distance whose score names the pair it was computed from *)
Record Pairing := mkPairing {
  pairing_description : string;
  bias : byte
}.

#[global] Instance pairing_distance : Distance Pairing (string * string) := {|
  Distance_make := fun s => Some (mkPairing s x00);
  compareTemplates := fun _ target query => (name (file query), name (file target));
  Distance_store := fun d => [bias d];
  Distance_load := fun shell data =>
    match data with
    | [] => None
    | b :: rest => Some (mkPairing (pairing_description shell) b, rest)
    end
|}.

Definition context (blockSize parallelism : Z) : Context :=
  mkContext blockSize parallelism 0 0 ∅ "/opt/openbr".

Definition world (blockSize parallelism : Z) : World :=
  mkWorld (context blockSize parallelism) ∅ ∅ 0 [].

Definition core : AlgorithmCore (T := Scale) (D := Pairing) :=
  mkCore (Some (mkScale "DistributeTemplate(FeatureX)" x01))
         (Some (mkPairing "DistanceY" x00)) "FeatureX:DistanceY".

(** an input source delivering the records with the given identifiers *)
Definition source (name : string) (ids : list Z) : File :=
  mkFile name {[ "ids" := VIntList ids ]}.

Definition flag (key : string) (f : File) : File :=
  mkFile (name f) (<[key := VBool true]> (m_metadata f)).

(** a world whose galleries hold the given records *)
Definition stocked (blockSize : Z) (held : list (string * TemplateList)) : World :=
  set_galleries (list_to_map held) (world blockSize 1).

(** an output file carrying a partition-size list *)
Definition sharded (name : string) (partitionSizes : list Z) : File :=
  mkFile name {[ "split" := VIntList partitionSizes ]}.

Definition values (o : Output (Score := string * string)) : list (string * string) :=
  map value (scores o).

(** shells and trained components made from the same description *)
Definition kinT (shell tr : Scale) : Prop :=
  scale_description shell = scale_description tr.

Definition kinD (shell d : Pairing) : Prop :=
  pairing_description shell = pairing_description d.

(** [core] after training: a gain of 5, a bias of 7 *)
Definition trained : AlgorithmCore (T := Scale) (D := Pairing) :=
  mkCore (Some (mkScale "DistributeTemplate(FeatureX)" x05))
         (Some (mkPairing "DistanceY" x07)) "FeatureX:DistanceY".

(** the instance a constructor starts from *)
Definition blank (name : string) : AlgorithmCore (T := Scale) (D := Pairing) :=
  mkCore None None name.

(** [new AlgorithmCore(algorithm)] in a world without models *)
Definition construct (algorithm : string)
  : option (AlgorithmCore (T := Scale) (D := Pairing)) :=
  match AlgorithmCore_new 1 (world 10 1) algorithm with
  | Some (Ok a) => Some a
  | _ => None
  end.

End Demo.

(** ** The concrete platform, continued: training and abbreviations *)

Module DemoMore.

Definition byte_of (n : nat) : byte := default x00 (Byte.of_nat n).

(** training sets the gain to the number of training records, and the bias
    to the first matrix entry of the first projected record *)
#[global] Instance training : Training Demo.Scale Demo.Pairing := {|
  Transform_train := fun tr data =>
    Demo.mkScale (Demo.scale_description tr) (byte_of (length data));
  Distance_train := fun d data =>
    Demo.mkPairing (Demo.pairing_description d)
      (byte_of (Z.to_nat (default 0 (head (concat (concat (map mats data)))))))
|}.

(** a world in which [short] stands for [expansion] *)
Definition abbreviated (short expansion : string) : World :=
  mkWorld (mkContext 10 1 0 0 {[ short := expansion ]} "/opt/openbr") ∅ ∅ 0 [].

(** [Demo.trained] under the name [n] *)
Definition named (n : string) : AlgorithmCore (T := Demo.Scale) (D := Demo.Pairing) :=
  mkCore (transform Demo.trained) (distance Demo.trained) n.

(** a world whose galleries hold the records with the given identifiers *)
Definition holding (blockSize : Z) (held : list (string * nat)) : World :=
  Demo.stocked blockSize (map (fun kn => (kn.1, Demo.records kn.2)) held).

End DemoMore.

(** * Properties *)

(** ** Qt containers *)

Lemma mid_take_drop {A} (l : list A) (pos len : Z) :
  0 <= pos -> 0 <= len ->
  mid l pos len = take (Z.to_nat len) (drop (Z.to_nat pos) l).
Proof.
  intros Hpos Hlen. unfold mid.
  destruct (Z.ltb_spec (Z.of_nat (length l)) pos) as [Hout|Hin].
  - rewrite drop_ge by lia. by rewrite take_nil.
  - destruct (Z.ltb_spec pos 0) as [?|_]; [lia|].
    destruct (Z.ltb_spec len 0) as [?|_]; [lia|]. simpl.
    destruct (Z.ltb_spec (Z.of_nat (length l) - pos) len) as [Hshort|_]; [|done].
    rewrite take_ge; [done|]. rewrite length_drop. lia.
Qed.

Lemma isEmpty_nil {A} (l : list A) : isEmpty l = true <-> l = [].
Proof. destruct l; simpl; split; congruence. Qed.

Lemma ceil_div_spec (a b : Z) :
  0 < b -> b * (ceil_div a b - 1) < a <= b * ceil_div a b.
Proof.
  intros Hb. unfold ceil_div.
  pose proof (Z.div_mod (- a) b ltac:(lia)) as Hdm.
  pose proof (Z.mod_pos_bound (- a) b Hb). nia.
Qed.

(** ** The removal loop is a filter *)

Lemma removeKnown_app (fileNames : list string) (pre suf : TemplateList) :
  removeKnown (length pre) fileNames (pre ++ suf) = keepUnknown fileNames pre ++ suf.
Proof.
  revert suf. induction pre as [|x pre IH] using rev_ind; intros suf; [done|].
  rewrite length_app, Nat.add_comm. simpl.
  rewrite <- app_assoc. simpl.
  rewrite (list_lookup_middle pre suf x (length pre) eq_refl).
  unfold keepUnknown. rewrite filter_app, filter_cons, filter_nil.
  case_bool_decide as Hin.
  - rewrite delete_middle. rewrite IH. unfold keepUnknown.
    rewrite decide_False by (intros Hn; by apply Hn). by rewrite app_nil_r.
  - rewrite IH. unfold keepUnknown. rewrite decide_True by done.
    by rewrite <- app_assoc.
Qed.

Lemma removeKnown_filter (fileNames : list string) (data : TemplateList) :
  removeKnown (length data) fileNames data = keepUnknown fileNames data.
Proof.
  rewrite <- (app_nil_r data) at 2. rewrite removeKnown_app. by rewrite app_nil_r.
Qed.

(** ** Which sub-blocks a pass visits *)

Lemma concat_chunks {A} (n s : nat) (r : list A) :
  (0 < s)%nat -> concat (chunks n s r) = take (n * s) r.
Proof.
  intros Hs. revert r. induction n as [|n IH]; intros r; simpl.
  - by rewrite take_0.
  - destruct (isEmpty (take s r)) eqn:E.
    + apply isEmpty_nil in E. apply (f_equal length) in E.
      rewrite length_take in E. simpl in E.
      assert (length r = 0%nat) as Hr by lia.
      apply length_zero_iff_nil in Hr. subst r. by rewrite take_nil.
    + simpl. rewrite IH. by rewrite take_take_drop.
Qed.

Lemma concat_visited {A} (i : list A) (B s k nb : nat) :
  (0 < s)%nat -> (k * s = B)%nat ->
  concat (visited i B s k 0 nb) = take (nb * B) i.
Proof.
  intros Hs HB. unfold visited. induction nb as [|nb IH].
  - by rewrite take_0.
  - rewrite seq_S, map_app, concat_app, concat_app, IH. simpl.
    rewrite app_nil_r, concat_chunks by done. rewrite HB.
    rewrite take_take_drop. f_equal. lia.
Qed.

Section CoreFacts.
Context {T D Score : Type} `{!Transform T} `{!Distance D Score} `{!Platform}.

Implicit Types (a : AlgorithmCore (T := T) (D := D)) (w : World) (g : Gallery).

Lemma subBlockLoop_chunks n (sub : nat) tr g nd fn (i : TemplateList)
    (B s : Z) (block : nat) st :
  0 <= B -> 0 < s ->
  subBlockLoop n (Z.of_nat sub) tr g nd fn i B s (Z.of_nat block) st
  = enrollAll tr g nd fn
      (chunks n (Z.to_nat s) (drop (block * Z.to_nat B + sub * Z.to_nat s) i)) st.
Proof.
  intros HB Hs. revert sub st. induction n as [|n IH]; intros sub st; [done|].
  assert (0 <= Z.of_nat block * B + Z.of_nat sub * s) as Hpos
    by (apply Z.add_nonneg_nonneg; apply Z.mul_nonneg_nonneg; lia).
  simpl. rewrite mid_take_drop by lia.
  assert (Z.to_nat (Z.of_nat block * B + Z.of_nat sub * s)
          = block * Z.to_nat B + sub * Z.to_nat s)%nat as ->.
  { rewrite Z2Nat.inj_add, !Z2Nat.inj_mul, !Nat2Z.id
      by (try lia; apply Z.mul_nonneg_nonneg; lia). done. }
  destruct (isEmpty _) eqn:E; [done|].
  replace (Z.of_nat sub + 1) with (Z.of_nat (S sub)) by lia.
  rewrite IH. unfold enrollAll. simpl. rewrite drop_drop.
  do 3 f_equal. lia.
Qed.

Lemma enrollAll_app tr g nd fn cs1 cs2 st :
  enrollAll tr g nd fn (cs1 ++ cs2) st
  = enrollAll tr g nd fn cs2 (enrollAll tr g nd fn cs1 st).
Proof. unfold enrollAll. by rewrite foldl_app. Qed.

Lemma blockLoop_visited nb (block : nat) tr g nd fn (i : TemplateList)
    (B s k : Z) st :
  0 <= B -> 0 < s ->
  blockLoop nb (Z.of_nat block) tr g nd fn i B s k st
  = enrollAll tr g nd fn
      (visited i (Z.to_nat B) (Z.to_nat s) (Z.to_nat k) block nb) st.
Proof.
  intros HB Hs. revert block st. induction nb as [|nb IH]; intros block st; [done|].
  simpl. replace (Z.of_nat block + 1) with (Z.of_nat (S block)) by lia.
  rewrite IH. unfold visited. simpl. rewrite enrollAll_app. f_equal.
  rewrite (subBlockLoop_chunks _ 0) by done.
  by rewrite Nat.add_0_r.
Qed.

Lemma subBlockLoop_some n sub tr g nd fn (i : TemplateList) B s block st :
  exists cs, subBlockLoop n sub tr g nd fn i B s block st = enrollAll tr g nd fn cs st.
Proof.
  revert sub st. induction n as [|n IH]; intros sub st; [by exists []|].
  simpl. destruct (isEmpty _); [by exists []|].
  destruct (IH (sub + 1) (enrollSubBlock tr g nd fn
              (mid i (block * B + sub * s) s) st)) as [cs Hcs].
  exists (mid i (block * B + sub * s) s :: cs). by rewrite Hcs.
Qed.

Lemma blockLoop_some nb block tr g nd fn (i : TemplateList) B s k st :
  exists cs, blockLoop nb block tr g nd fn i B s k st = enrollAll tr g nd fn cs st.
Proof.
  revert block st. induction nb as [|nb IH]; intros block st; [by exists []|].
  simpl.
  destruct (subBlockLoop_some (Z.to_nat k) 0 tr g nd fn i B s block st) as [cs1 H1].
  rewrite H1.
  destruct (IH (block + 1) (enrollAll tr g nd fn cs1 st)) as [cs2 H2].
  exists (cs1 ++ cs2). by rewrite H2, enrollAll_app.
Qed.

(** ** What a pass does to the world *)

Lemma same_setting_trans w1 w2 w3 :
  same_setting w1 w2 -> same_setting w2 w3 -> same_setting w1 w3.
Proof. unfold same_setting. intuition congruence. Qed.

Lemma enrollSubBlock_spec tr g nd fn data w fl :
  let r := enrollSubBlock tr g nd fn data (w, fl) in
  r.2 = fl ++ files (project tr (offered nd fn data))
  /\ gallery_contents r.1 g = gallery_contents w g ++ project tr (offered nd fn data)
  /\ projected r.1 = projected w ++ [offered nd fn data]
  /\ reads r.1 = reads w
  /\ same_setting w r.1
  /\ (forall k, k <> key g -> galleries r.1 !! k = galleries w !! k).
Proof.
  unfold enrollSubBlock, offered. simpl.
  rewrite removeKnown_filter.
  repeat split.
  - unfold gallery_contents. simpl. by rewrite lookup_insert_eq.
  - intros k Hk. simpl. by rewrite lookup_insert_ne.
Qed.

Lemma enrollAll_spec tr g nd fn cs w fl :
  let r := enrollAll tr g nd fn cs (w, fl) in
  r.2 = fl ++ files (enrolled tr nd fn cs)
  /\ gallery_contents r.1 g = gallery_contents w g ++ enrolled tr nd fn cs
  /\ projected r.1 = projected w ++ map (offered nd fn) cs
  /\ reads r.1 = reads w
  /\ same_setting w r.1
  /\ (forall k, k <> key g -> galleries r.1 !! k = galleries w !! k).
Proof.
  revert w fl. induction cs as [|c cs IH]; intros w fl.
  - simpl. unfold enrolled. simpl. rewrite !app_nil_r.
    repeat split; done.
  - change (enrollAll tr g nd fn (c :: cs) (w, fl))
      with (enrollAll tr g nd fn cs (enrollSubBlock tr g nd fn c (w, fl))).
    pose proof (enrollSubBlock_spec tr g nd fn c w fl) as Hc.
    destruct (enrollSubBlock tr g nd fn c (w, fl)) as [w1 fl1].
    specialize (IH w1 fl1).
    destruct (enrollAll tr g nd fn cs (w1, fl1)) as [w2 fl2].
    cbn [fst snd] in *.
    destruct Hc as (Hfl & Hg & Hp & Hr & Hs & Hk).
    destruct IH as (Hfl' & Hg' & Hp' & Hr' & Hs' & Hk').
    unfold enrolled in *. cbn [map concat].
    rewrite Hfl', Hg', Hp', Hr', Hfl, Hg, Hp, Hr.
    unfold files. rewrite !map_app, <- !app_assoc.
    repeat split; try done.
    all: try (by eapply same_setting_trans).
    intros k Hne. rewrite Hk', Hk; done.
Qed.

Lemma enrollPass_hit a input gallery g w :
  cacheHit gallery w g = true ->
  enrollPass a input gallery g w = Ok (w, Returned (existing gallery w g)).
Proof. unfold enrollPass, cacheHit, existing. by intros ->. Qed.

Lemma enrollPass_empty a input gallery g w :
  cacheHit gallery w g = false ->
  fromGallery (reads w) input = [] ->
  enrollPass a input gallery g w = Ok (next_read w, Returned (existing gallery w g)).
Proof. unfold enrollPass, cacheHit, existing. by intros -> ->. Qed.

Lemma enrollPass_null a input gallery g w :
  cacheHit gallery w g = false ->
  fromGallery (reads w) input <> [] ->
  transform a = None ->
  enrollPass a input gallery g w = Fatal "Null transform.".
Proof.
  unfold enrollPass, cacheHit, existing. intros -> Hi ->.
  destruct (fromGallery (reads w) input); done.
Qed.

Lemma enrollPass_completed a input gallery g w tr :
  cacheHit gallery w g = false ->
  fromGallery (reads w) input <> [] ->
  transform a = Some tr ->
  let i := fromGallery (reads w) input in
  let nd := contains gallery "noDuplicates" in
  let fn := if nd then names (existing gallery w g) else [] in
  exists cs w',
    enrollPass a input gallery g w
    = Ok (w', Completed (existing gallery w g ++ files (enrolled tr nd fn cs)))
    /\ gallery_contents w' g = gallery_contents w g ++ enrolled tr nd fn cs
    /\ projected w' = projected w ++ map (offered nd fn) cs
    /\ reads w' = S (reads w)
    /\ same_setting w w'
    /\ (forall k, k <> key g -> galleries w' !! k = galleries w !! k)
    /\ (0 < blockSize (Globals w) -> cs = passChunks (Globals w) i).
Proof.
  intros Hhit Hi Htr. unfold enrollPass.
  unfold cacheHit, existing in Hhit. rewrite Hhit, Htr.
  destruct (isEmpty (fromGallery (reads w) input)) eqn:E;
    [by apply isEmpty_nil in E|].
  cbn zeta.
  match goal with
  | |- context [blockLoop ?n 0 ?tr ?g ?nd ?fn ?i ?B ?s ?k ?st] =>
      assert (exists cs, blockLoop n 0 tr g nd fn i B s k st
                         = enrollAll tr g nd fn cs st
                /\ (0 < blockSize (Globals w) ->
                    cs = passChunks (Globals w) (fromGallery (reads w) input)))
        as (cs & Hcs & Hchunks)
  end.
  { destruct (decide (0 < blockSize (Globals w))) as [HB|HB].
    - eexists. split; [|intros _; reflexivity].
      apply (blockLoop_visited _ 0);
        cbn [set_steps next_read Globals blockSize parallelism];
        first [lia | unfold subBlockSize; lia].
    - match goal with
      | |- context [blockLoop ?n 0 ?tr ?g ?nd ?fn ?i ?B ?s ?k ?st] =>
          destruct (blockLoop_some n 0 tr g nd fn i B s k st) as [cs Hcs]
      end.
      exists cs. split; [done|]. intros; lia. }
  rewrite Hcs.
  match goal with
  | |- context [enrollAll ?tr ?g ?nd ?fn ?cs (?w0, ?fl0)] =>
      pose proof (enrollAll_spec tr g nd fn cs w0 fl0) as Hall;
      destruct (enrollAll tr g nd fn cs (w0, fl0)) as [w1 fl1] eqn:Eall
  end.
  cbn [fst snd] in Hall. destruct Hall as (Hfl & Hg & Hp & Hr & Hs & Hk).
  exists cs. eexists. split; [|split; [|split; [|split; [|split; [|split]]]]].
  - rewrite Hfl. reflexivity.
  - exact Hg.
  - exact Hp.
  - exact Hr.
  - destruct Hs as (?&?&?&?&?). by repeat split.
  - exact Hk.
  - exact Hchunks.
Qed.

(** ** The [do .. while] loop *)

Lemma enroll_unfold fuel a input gallery g w :
  ~ (name gallery = "" /\ name input = "") ->
  Gallery_make (targetGallery a input gallery) = Some g ->
  enroll fuel a input gallery w
  = enrollLoop fuel a input (targetGallery a input gallery) g w.
Proof.
  intros Hexplicit Hg. unfold enroll. fold (targetGallery a input gallery).
  rewrite Hg. do 2 case_bool_decide; simpl; tauto.
Qed.

Lemma enrollLoop_once fuel a input gallery g w :
  getBool input "infinite" false = false ->
  enrollLoop (S fuel) a input gallery g w
  = Some (passResult (enrollPass a input gallery g w)).
Proof.
  intros Hfinite. simpl. rewrite Hfinite.
  by destruct (enrollPass a input gallery g w) as [[w' [fl|fl]]|m].
Qed.

Lemma enrollLoop_forever fuel a input gallery g w tr :
  getBool input "infinite" false = true ->
  contains gallery "cache" = false ->
  transform a = Some tr ->
  (forall k, fromGallery k input <> []) ->
  enrollLoop fuel a input gallery g w = None.
Proof.
  intros Hinf Hcache Htr Hlive. revert w.
  induction fuel as [|fuel IH]; intros w; [done|]. simpl.
  destruct (enrollPass_completed a input gallery g w tr) as (cs & w' & -> & _);
    [|done|done|].
  - unfold cacheHit. rewrite Hcache. apply andb_false_r.
  - by rewrite Hinf.
Qed.

Lemma existing_cache gallery w g :
  contains gallery "cache" = true -> existing gallery w g = Gallery_files w g.
Proof. unfold existing. intros ->. by rewrite orb_true_r. Qed.

Lemma enrollLoop_cache fuel a input gallery g w w1 fl1 :
  contains gallery "cache" = true ->
  enrollLoop fuel a input gallery g w = Some (Ok (w1, fl1)) ->
  fl1 = Gallery_files w1 g.
Proof.
  intros Hcache. revert w. induction fuel as [|fuel IH]; intros w; [done|].
  simpl. destruct (cacheHit gallery w g) eqn:Hhit.
  - rewrite enrollPass_hit by done. rewrite existing_cache by done. congruence.
  - destruct (fromGallery (reads w) input) as [|t i] eqn:Hi.
    + rewrite enrollPass_empty by done. rewrite existing_cache by done.
      intros [= <- <-]. done.
    + destruct (transform a) as [tr|] eqn:Htr.
      * destruct (enrollPass_completed a input gallery g w tr)
          as (cs & w' & -> & Hg & _); [done|by rewrite Hi|done|].
        destruct (getBool input "infinite" false); [by apply IH|].
        intros [= <- <-]. unfold Gallery_files. rewrite Hg.
        unfold files. rewrite map_app. f_equal.
        by apply existing_cache.
      * rewrite enrollPass_null; [done|done|by rewrite Hi|done].
Qed.

(** C4.  Enrollment into an explicit gallery in "cache" mode is idempotent:
    when an invocation has returned a non-empty record list, a second
    invocation with the same arguments returns that list at once and leaves
    the world as it is: nothing is handed to the transform, nothing is
    written, the input is not even read. *)
Theorem enroll_cache_idempotent fuel fuel' a input gallery w w1 fl1 :
  name gallery <> "" ->
  contains gallery "cache" = true ->
  enroll fuel a input gallery w = Some (Ok (w1, fl1)) ->
  fl1 <> [] ->
  enroll (S fuel') a input gallery w1 = Some (Ok (w1, fl1)).
Proof.
  intros Hname Hcache Hfirst Hpopulated. unfold enroll in *.
  rewrite bool_decide_eq_false_2 in * by done. cbn [andb] in *.
  destruct (Gallery_make gallery) as [g|]; [|done].
  apply enrollLoop_cache in Hfirst; [|done]. subst fl1.
  cbn [enrollLoop]. rewrite enrollPass_hit.
  - by rewrite existing_cache.
  - unfold cacheHit. rewrite existing_cache, Hcache by done.
    rewrite andb_true_r. apply negb_true_iff.
    by destruct (Gallery_files w1 g).
Qed.

(** With the marker, passes that run to the end of the body are repeated. *)
Lemma enrollLoop_passes k fuel a input gallery g w wk :
  getBool input "infinite" false = true ->
  completedPasses k a input gallery g w = Some wk ->
  enrollLoop (k + fuel) a input gallery g w = enrollLoop fuel a input gallery g wk.
Proof.
  intros Hinf. revert w. induction k as [|k IH]; intros w; [by intros [= ->]|].
  cbn [completedPasses Nat.add enrollLoop].
  destruct (enrollPass a input gallery g w) as [[w' [fl|fl]]|m]; try done.
  rewrite Hinf. apply IH.
Qed.

Lemma enrollLoop_never a input gallery g w :
  getBool input "infinite" false = true ->
  (forall fuel, enrollLoop fuel a input gallery g w = None)
  <-> (forall k, is_Some (completedPasses k a input gallery g w)).
Proof.
  intros Hinf. split.
  - intros Hnone k. revert w Hnone. induction k as [|k IH]; intros w Hnone; [by eexists|].
    cbn [completedPasses]. pose proof (Hnone 1%nat) as H1. cbn [enrollLoop] in H1.
    destruct (enrollPass a input gallery g w) as [[w' [fl|fl]]|m] eqn:Hpass; try done.
    apply IH. intros fuel. specialize (Hnone (S fuel)). cbn [enrollLoop] in Hnone.
    by rewrite Hpass, Hinf in Hnone.
  - intros Hall fuel. revert w Hall. induction fuel as [|fuel IH]; intros w Hall; [done|].
    cbn [enrollLoop]. pose proof (Hall 1%nat) as [w1 H1]. cbn [completedPasses] in H1.
    destruct (enrollPass a input gallery g w) as [[w' [fl|fl]]|m] eqn:Hpass; try done.
    rewrite Hinf. apply IH. intros k. specialize (Hall (S k)).
    cbn [completedPasses] in Hall. by rewrite Hpass in Hall.
Qed.

(** C9 (amended).  Unless both names are empty, [enroll] on an input
    without the "infinite" marker executes the body of the loop once and
    returns what it produced.  With the marker the body is repeated for as
    long as its executions run to the end of the body.  After [k] such
    executions [enroll] returns the gallery's record list and leaves the
    world as it is when the gallery has the "cache" key and is not empty;
    it returns the list read from the gallery when the reading of the
    input delivers no record; and it ends the process when there are
    records and no transform.  It runs forever, neither returning nor
    ending the process, exactly when every execution runs to the end of
    the body, which is so whenever the gallery has no "cache" key, the
    instance has a transform and every reading of the input delivers
    records. *)
Theorem enroll_infinite_marker a input gallery g w :
  ~ (name gallery = "" /\ name input = "") ->
  Gallery_make (targetGallery a input gallery) = Some g ->
  let target := targetGallery a input gallery in
  (getBool input "infinite" false = false ->
   forall fuel,
     enroll (S fuel) a input gallery w
     = Some (passResult (enrollPass a input target g w)))
  /\ (getBool input "infinite" false = true ->
      (forall k wk fuel,
         completedPasses k a input target g w = Some wk ->
         (cacheHit target wk g = true ->
          enroll (k + S fuel) a input gallery w = Some (Ok (wk, Gallery_files wk g)))
         /\ (cacheHit target wk g = false ->
             fromGallery (reads wk) input = [] ->
             enroll (k + S fuel) a input gallery w
             = Some (Ok (next_read wk, existing target wk g)))
         /\ (cacheHit target wk g = false ->
             fromGallery (reads wk) input <> [] ->
             transform a = None ->
             enroll (k + S fuel) a input gallery w = Some (Fatal "Null transform.")))
      /\ ((forall fuel, enroll fuel a input gallery w = None)
          <-> (forall k, is_Some (completedPasses k a input target g w)))
      /\ (contains target "cache" = false ->
          is_Some (transform a) ->
          (forall k, fromGallery k input <> []) ->
          forall fuel, enroll fuel a input gallery w = None)).
Proof.
  intros Hexplicit Hg target. split.
  - intros Hfinite fuel. rewrite (enroll_unfold _ _ _ _ g) by done.
    by apply enrollLoop_once.
  - intros Hinf. split; [|split].
    + intros k wk fuel Hk. rewrite (enroll_unfold _ _ _ _ g) by done. fold target.
      rewrite (enrollLoop_passes k (S fuel) _ _ _ _ _ _ Hinf Hk). cbn [enrollLoop].
      split; [|split].
      * intros Hhit. rewrite enrollPass_hit by done.
        unfold cacheHit in Hhit. apply andb_true_iff in Hhit as [_ Hc].
        by rewrite existing_cache.
      * intros Hhit Hempty. by rewrite enrollPass_empty.
      * intros Hhit Hsome Htr. by rewrite enrollPass_null.
    + rewrite <- (enrollLoop_never a input target g w Hinf).
      split; intros Hnone fuel; specialize (Hnone fuel);
        by rewrite (enroll_unfold _ _ _ _ g) in *.
    + intros Hcache [tr Htr] Hlive fuel. rewrite (enroll_unfold _ _ _ _ g) by done.
      by eapply enrollLoop_forever.
Qed.

(** ** Sub-blocks that tile their block *)

Lemma passChunks_aligned (c : Context) (i : TemplateList) :
  0 < blockSize c ->
  (subBlockSize c | blockSize c) ->
  concat (passChunks c i) = i.
Proof.
  intros HB [q Hq]. unfold passChunks, numSubBlocks, blocks.
  assert (0 < subBlockSize c) as Hs by (unfold subBlockSize; lia).
  assert (ceil_div (blockSize c) (subBlockSize c) = q) as ->.
  { unfold ceil_div. rewrite Hq, <- Z.mul_opp_l, Z.div_mul by lia. lia. }
  assert (0 < q) as Hq0 by nia.
  rewrite concat_visited.
  - apply take_ge.
    pose proof (ceil_div_spec (Z.of_nat (length i)) (blockSize c) HB) as [_ Hle].
    apply Nat2Z.inj_le. rewrite Nat2Z.inj_mul, !Z2Nat.id; [lia|lia|].
    destruct (Z.le_gt_cases 0 (ceil_div (Z.of_nat (length i)) (blockSize c))); [done|nia].
  - lia.
  - rewrite <- Z2Nat.inj_mul by lia. by rewrite <- Hq.
Qed.

(** ** Sub-blocks that overrun their block *)

Lemma length_concat_chunks {A} (n s : nat) (r : list A) :
  (0 < s)%nat -> length (concat (chunks n s r)) = ((n * s) `min` length r)%nat.
Proof. intros Hs. by rewrite concat_chunks, length_take. Qed.

Lemma visited_S {A} (i : list A) (B s k nb : nat) :
  visited i B s k 0 (S nb) = visited i B s k 0 nb ++ chunks k s (drop (nb * B) i).
Proof.
  unfold visited. rewrite seq_S, map_app, concat_app. simpl.
  by rewrite app_nil_r.
Qed.

Lemma visited_overrun {A} (i : list A) (B s k nb : nat) :
  (0 < s)%nat -> (B < k * s)%nat -> (B < length i)%nat -> (1 <= nb)%nat ->
  (length i `min` (nb * B) + 1 <= length (concat (visited i B s k 0 nb)))%nat.
Proof.
  intros Hs Hk Hn Hnb. induction nb as [|nb IH]; [lia|].
  rewrite visited_S, concat_app, length_app, length_concat_chunks, length_drop by done.
  destruct nb as [|nb].
  - unfold visited. simpl. lia.
  - specialize (IH ltac:(lia)).
    replace (S (S nb) * B)%nat with (S nb * B + B)%nat by lia. lia.
Qed.

(** The hypothesis on the parallelism keeps the product of line 149,
    computed in [int] by the source, from wrapping. *)
Lemma passChunks_overrun (c : Context) (i : TemplateList) :
  parallelism c < 2 ^ 29 ->
  0 < blockSize c ->
  ~ (subBlockSize c | blockSize c) ->
  blockSize c < Z.of_nat (length i) ->
  (length i < length (concat (passChunks c i)))%nat.
Proof.
  intros _ HB Hdiv Hn. unfold passChunks.
  assert (0 < subBlockSize c) as Hs by (unfold subBlockSize; lia).
  pose proof (ceil_div_spec (blockSize c) (subBlockSize c) Hs) as [_ Hk].
  fold (numSubBlocks c) in Hk.
  assert (subBlockSize c * numSubBlocks c <> blockSize c) as Hne.
  { intros Heq. apply Hdiv. exists (numSubBlocks c). lia. }
  pose proof (ceil_div_spec (Z.of_nat (length i)) (blockSize c) HB) as [_ Hnb].
  fold (blocks c (Z.of_nat (length i))) in Hnb.
  set (nb := blocks c (Z.of_nat (length i))) in *.
  set (k := numSubBlocks c) in *.
  assert (0 < k) by nia. assert (1 < nb) by nia.
  pose proof (visited_overrun i (Z.to_nat (blockSize c)) (Z.to_nat (subBlockSize c))
                (Z.to_nat k) (Z.to_nat nb)) as Hover.
  assert (Z.to_nat k * Z.to_nat (subBlockSize c) = Z.to_nat (k * subBlockSize c))%nat
    as Hks by (rewrite Z2Nat.inj_mul; lia).
  assert (Z.to_nat nb * Z.to_nat (blockSize c) = Z.to_nat (nb * blockSize c))%nat
    as Hnbs by (rewrite Z2Nat.inj_mul; lia).
  rewrite Hks, Hnbs in Hover. lia.
Qed.

(** A pass over an input that "noDuplicates" does not filter hands every
    record to the transform exactly once when sub-blocks tile their block,
    and hands over more records than the input has when they do not and the
    input is longer than one block. *)
Lemma enrollPass_offers a input gallery g w tr :
  cacheHit gallery w g = false ->
  fromGallery (reads w) input <> [] ->
  transform a = Some tr ->
  contains gallery "noDuplicates" = false ->
  parallelism (Globals w) < 2 ^ 29 ->
  0 < blockSize (Globals w) ->
  let i := fromGallery (reads w) input in
  exists w' fl batches,
    enrollPass a input gallery g w = Ok (w', Completed fl)
    /\ projected w' = projected w ++ batches
    /\ ((subBlockSize (Globals w) | blockSize (Globals w)) -> concat batches = i)
    /\ (~ (subBlockSize (Globals w) | blockSize (Globals w)) ->
        blockSize (Globals w) < Z.of_nat (length i) ->
        (length i < length (concat batches))%nat).
Proof.
  intros Hhit Hi Htr Hnd Hpar HB i.
  destruct (enrollPass_completed a input gallery g w tr)
    as (cs & w' & Hpass & _ & Hp & _ & _ & _ & Hcs); [done|done|done|].
  rewrite Hnd in Hp. specialize (Hcs HB). subst cs.
  eexists w', _, _. split; [exact Hpass|]. split; [exact Hp|].
  unfold offered. rewrite map_id. split.
  - intros Hdiv. by apply passChunks_aligned.
  - intros Hdiv Hn. by apply passChunks_overrun.
Qed.

(** ** Deduplication *)

Lemma keepUnknown_unknown fn (data : TemplateList) t :
  t ∈ keepUnknown fn data -> name (file t) ∉ fn.
Proof. unfold keepUnknown. by intros [? _]%list_elem_of_filter. Qed.

Lemma keepUnknown_concat fn (cs : list TemplateList) :
  concat (map (keepUnknown fn) cs) = keepUnknown fn (concat cs).
Proof.
  induction cs as [|c cs IH]; [done|]. simpl.
  unfold keepUnknown in *. by rewrite filter_app, IH.
Qed.

Lemma enrolled_names tr fn (cs : list TemplateList) :
  keepsIdentity tr ->
  names (files (enrolled tr true fn cs))
  = names (files (keepUnknown fn (concat cs))).
Proof.
  intros Hkeep. rewrite <- keepUnknown_concat. unfold enrolled, offered.
  induction cs as [|c cs IH]; [done|]. simpl.
  unfold names, files in *. rewrite !map_app, IH. f_equal. apply Hkeep.
Qed.

Lemma keepUnknown_names_NoDup fn (data : TemplateList) :
  NoDup (names (files data)) -> NoDup (names (files (keepUnknown fn data))).
Proof.
  unfold names, files, keepUnknown. rewrite !map_map.
  induction data as [|t data IH]; [done|]. simpl.
  intros [Hnotin Hrest]%NoDup_cons. rewrite filter_cons.
  case_decide; [|by apply IH]. simpl. apply NoDup_cons. split; [|by apply IH].
  intros (t' & Heq & Hin%list_elem_of_filter)%list_elem_of_fmap.
  apply Hnotin. apply list_elem_of_fmap. exists t'. tauto.
Qed.

Lemma keepUnknown_names fn (data : TemplateList) :
  names (files (keepUnknown fn data))
  = filter (fun n => n ∉ fn) (names (files data)).
Proof.
  unfold names, files, keepUnknown. rewrite !map_map.
  induction data as [|t data IH]; [done|]. cbn [map].
  rewrite !filter_cons. cbn. case_decide; cbn [map]; by rewrite IH.
Qed.

Lemma passChunks_nil (c : Context) : 0 < blockSize c -> passChunks c [] = [].
Proof.
  intros HB.
  assert (Z.to_nat (blocks c (Z.of_nat (length (@nil Template)))) = 0%nat) as Hnone.
  { unfold blocks, ceil_div. cbn [length Z.of_nat Z.opp]. rewrite Z.div_0_l; lia. }
  unfold passChunks. by rewrite Hnone.
Qed.

(** C5 (amended).  With "noDuplicates" on the gallery, one pass over an
    input without the "infinite" marker, not ended at once by a cache hit,
    with a positive block size and a parallelism below 2^29 (where the
    sub-block size of line 149 does not wrap), deduplicates against the
    record list it read from the gallery before the first block; that list
    is read only when the gallery has the "read" or the "cache" key and is
    empty otherwise.  Every sub-block is handed to the transform with
    exactly the records removed whose identity is in that list, the others
    in their order; the projected records are appended to the gallery, and
    the list returned is the list read followed by their files.  With a
    transform that keeps identities and sub-blocks that tile their block,
    the identities appended are the input's identities that are not in the
    list read, in the order of the input and as often as the input has
    them; so the returned list is free of repeated identities exactly when
    the list read is and no identity absent from it occurs twice in the
    input. *)
Theorem enroll_noDuplicates fuel a input gallery g w tr :
  name gallery <> "" ->
  Gallery_make gallery = Some g ->
  contains gallery "noDuplicates" = true ->
  getBool input "infinite" false = false ->
  cacheHit gallery w g = false ->
  transform a = Some tr ->
  parallelism (Globals w) < 2 ^ 29 ->
  0 < blockSize (Globals w) ->
  let i := fromGallery (reads w) input in
  let known := names (existing gallery w g) in
  let batches := map (keepUnknown known) (passChunks (Globals w) i) in
  let new := concat (map (project tr) batches) in
  (exists w1,
     enroll (S fuel) a input gallery w
     = Some (Ok (w1, existing gallery w g ++ files new))
     /\ projected w1 = projected w ++ batches
     /\ gallery_contents w1 g = gallery_contents w g ++ new)
  /\ (forall batch t, batch ∈ batches -> t ∈ batch -> name (file t) ∉ known)
  /\ (keepsIdentity tr ->
      (subBlockSize (Globals w) | blockSize (Globals w)) ->
      names (existing gallery w g ++ files new)
      = known ++ filter (fun n => n ∉ known) (names (files i))
      /\ (forall f, f ∈ files new -> name f ∉ known)
      /\ (NoDup (names (existing gallery w g ++ files new))
          <-> NoDup known
              /\ NoDup (filter (fun n => n ∉ known) (names (files i))))).
Proof.
  intros Hname Hg Hnd Hfinite Hhit Htr _ HB i known batches new.
  assert (new = enrolled tr true known (passChunks (Globals w) i)) as Hnew.
  { unfold new, batches, enrolled, offered. by rewrite map_map. }
  split; [|split].
  - rewrite (enroll_unfold _ _ _ _ g);
      [|tauto|unfold targetGallery; by rewrite bool_decide_eq_false_2].
    unfold targetGallery. rewrite bool_decide_eq_false_2 by done.
    rewrite enrollLoop_once by done.
    destruct (decide (i = [])) as [Hi|Hi].
    + rewrite enrollPass_empty by done.
      assert (batches = []) as Hb by (unfold batches; by rewrite Hi, passChunks_nil).
      assert (new = []) as Hn by (unfold new; by rewrite Hb).
      exists (next_read w). rewrite Hb, Hn. cbn [files map]. by rewrite !app_nil_r.
    + destruct (enrollPass_completed a input gallery g w tr)
        as (cs & w' & Hpass & Hcont & Hp & _ & _ & _ & Hcs); [done|done|done|].
      specialize (Hcs HB). fold i in Hcs. subst cs.
      rewrite Hnd in Hpass, Hcont, Hp. fold known in Hpass, Hcont, Hp.
      rewrite <- Hnew in Hpass, Hcont. exists w'. rewrite Hpass. cbn [passResult].
      split; [done|]. split; [|done]. by rewrite Hp.
  - intros batch t (c & -> & _)%list_elem_of_fmap Ht. by eapply keepUnknown_unknown.
  - intros Hkeep Hdiv.
    assert (names (files new) = filter (fun n => n ∉ known) (names (files i))) as Hnames.
    { rewrite Hnew, enrolled_names by done.
      by rewrite passChunks_aligned, keepUnknown_names. }
    assert (names (existing gallery w g ++ files new)
            = known ++ filter (fun n => n ∉ known) (names (files i))) as Hall.
    { unfold names at 1. rewrite map_app. fold (names (existing gallery w g)).
      fold (names (files new)). by rewrite Hnames. }
    split; [exact Hall|]. split.
    + intros f Hf.
      assert (name f ∈ names (files new)) as Hn by (apply list_elem_of_fmap; eauto).
      rewrite Hnames in Hn. by apply list_elem_of_filter in Hn as [Hn _].
    + rewrite Hall, NoDup_app.
      split; [tauto|]. intros [H1 H2]. split; [done|]. split; [|done].
      intros n Hn [Hnot _]%list_elem_of_filter. done.
Qed.


(** ** The comparison loops *)

Lemma steps_only_refl w : steps_only w w.
Proof. exists (currentStep (Globals w)), (totalSteps (Globals w)). by destruct w as [[]]. Qed.

Lemma steps_only_trans w1 w2 w3 :
  steps_only w1 w2 -> steps_only w2 w3 -> steps_only w1 w3.
Proof. intros (c & t & ->) (c' & t' & ->). by exists c', t'. Qed.

Lemma compareRow_scores d (target : TemplateList) i q (o : Output) :
  compareRow d target i q o
  = mkOutput (output_file o) (current_block o)
      (scores o ++ imap (fun j t => mkScore (current_block o).1 (current_block o).2
                                      i j (compareTemplates d t q)) target).
Proof.
  unfold compareRow.
  assert (forall (f : nat -> nat) o,
    foldl (fun o jt => setRelative (compareTemplates d jt.2 q) i jt.1 o) o
          (imap (fun j t => (f j, t)) target)
    = mkOutput (output_file o) (current_block o)
        (scores o ++ imap (fun j t => mkScore (current_block o).1 (current_block o).2
                                        i (f j) (compareTemplates d t q)) target))
    as Hgen.
  { induction target as [|t target IH]; intros f o'.
    - simpl. rewrite app_nil_r. by destruct o'.
    - simpl. rewrite (IH (f ∘ S)). simpl. by rewrite <- app_assoc. }
  apply (Hgen id).
Qed.

Lemma compareLists_scores d (target query : TemplateList) (o : Output) :
  compareLists d target query o
  = mkOutput (output_file o) (current_block o)
      (scores o ++ blockScores d (current_block o).1 (current_block o).2 target query).
Proof.
  unfold compareLists, blockScores.
  assert (forall (f : nat -> nat) o,
    foldl (fun o iq => compareRow d target iq.1 iq.2 o) o
          (imap (fun i q => (f i, q)) query)
    = mkOutput (output_file o) (current_block o)
        (scores o ++ concat (imap (fun i q =>
            imap (fun j t => mkScore (current_block o).1 (current_block o).2
                               (f i) j (compareTemplates d t q)) target) query)))
    as Hgen.
  { induction query as [|q query IH]; intros f o'.
    - simpl. rewrite app_nil_r. by destruct o'.
    - simpl. rewrite (IH (f ∘ S)), compareRow_scores. simpl.
      by rewrite <- app_assoc. }
  apply (Hgen id).
Qed.

Lemma length_partition sizes (l : TemplateList) :
  length (partition sizes l) = length sizes.
Proof. revert l. induction sizes as [|n sizes IH]; intros l; simpl; by rewrite ?IH. Qed.

Lemma length_segments sizes (block : TemplateList) :
  length (segments sizes block) = length (segments sizes []).
Proof.
  unfold segments. destruct (isEmpty sizes); simpl; [done|].
  by rewrite !length_partition.
Qed.

Lemma segments_lookup sizes i (block : TemplateList) :
  (i < length (segments sizes []))%nat ->
  segments sizes block !! i = Some (segment sizes i block).
Proof.
  intros Hi. unfold segment.
  destruct (segments sizes block !! i) eqn:E; [done|].
  apply lookup_ge_None in E. rewrite length_segments in E. lia.
Qed.

Lemma targetPassScores_cons d sizes i qb tb tblock tblocks queries_i :
  targetPassScores d sizes i qb tb (tblock :: tblocks) queries_i
  = blockScores d qb tb (segment sizes i tblock) queries_i
    ++ targetPassScores d sizes i qb (tb + 1) tblocks queries_i.
Proof.
  unfold targetPassScores. rewrite imap_cons. cbn [concat].
  change (Z.of_nat 0) with 0. rewrite Z.add_0_r. do 2 f_equal.
  apply imap_ext. intros k blk _. unfold compose. f_equal. lia.
Qed.

Lemma targetLoop_spec fuel d sizes i queries queries_i qb tb t outputs w o :
  (0 < Z.to_nat (blockSize (Globals w)))%nat ->
  outputs !! i = Some o ->
  (i < length (segments sizes []))%nat ->
  (length (drop (cursor t) (gallery_contents w t)) < fuel)%nat ->
  exists w' o',
    targetLoop fuel d sizes i queries queries_i qb tb t outputs w
    = Some (Ok (w', mkGallery (key t) 0, <[i := o']> outputs))
    /\ steps_only w w'
    /\ output_file o' = output_file o
    /\ scores o'
       = scores o
         ++ targetPassScores d sizes i qb (tb + 1)
              (passBlocks fuel (Z.to_nat (blockSize (Globals w)))
                 (drop (cursor t) (gallery_contents w t)))
              queries_i.
Proof.
  intros HB. revert tb t outputs w o HB.
  induction fuel as [|fuel IH]; intros tb t outputs w o HB Ho Hi Hfuel; [lia|].
  cbn [targetLoop]. unfold readBlock.
  set (B := Z.to_nat (blockSize (Globals w))) in *.
  set (rest := drop (cursor t) (gallery_contents w t)) in *.
  fold (segments sizes (take B rest)).
  rewrite Ho, (segments_lookup _ _ _ Hi).
  set (o1 := compareLists d (segment sizes i (take B rest)) queries_i
               (setBlock qb (tb + 1) o)).
  assert (scores o1 = scores o
          ++ blockScores d qb (tb + 1) (segment sizes i (take B rest)) queries_i)
    as Ho1 by (unfold o1; by rewrite compareLists_scores).
  assert (output_file o1 = output_file o) as Hf1
    by (unfold o1; by rewrite compareLists_scores).
  cbn [passBlocks]. fold B. fold rest.
  destruct (isEmpty (drop B rest)) eqn:Hdone.
  - eexists _, o1. split; [reflexivity|]. split; [eexists _, _; reflexivity|].
    split; [done|]. rewrite Ho1, targetPassScores_cons. do 2 f_equal.
    unfold targetPassScores. simpl. by rewrite app_nil_r.
  - assert (length (take B rest) = B) as Hfull.
    { rewrite length_take. destruct (decide (B <= length rest)%nat); [lia|].
      rewrite drop_ge in Hdone by lia. done. }
    rewrite Hfull.
    match goal with
    | |- context [targetLoop fuel d sizes i queries queries_i qb (tb + 1) ?t1 ?out1 ?w1] =>
        destruct (IH (tb + 1) t1 out1 w1 o1) as (w' & o' & Hrun & Hsteps & Hf & Hs)
    end.
    + done.
    + apply list_lookup_insert_eq. by eapply lookup_lt_Some.
    + done.
    + cbn [cursor]. change (gallery_contents (add_steps _ w) _)
        with (gallery_contents w t).
      rewrite <- drop_drop. fold rest. rewrite length_drop.
      assert (length rest <> 0)%nat.
      { intros Hz. apply length_zero_iff_nil in Hz. rewrite Hz, drop_nil in Hdone. done. }
      lia.
    + exists w', o'. rewrite Hrun. cbn [key]. rewrite list_insert_insert_eq.
      split; [done|]. split.
      { eapply steps_only_trans; [|exact Hsteps]. eexists _, _; reflexivity. }
      split; [congruence|].
      rewrite Hs, Ho1, targetPassScores_cons, <- app_assoc. do 3 f_equal.
      cbn [cursor]. change (gallery_contents (add_steps _ w) _)
        with (gallery_contents w t).
      by rewrite <- drop_drop.
Qed.

Lemma passBlocks_fuel {A} (f1 f2 B : nat) (rest : list A) :
  (0 < B)%nat -> (length rest < f1)%nat -> (length rest < f2)%nat ->
  passBlocks f1 B rest = passBlocks f2 B rest.
Proof.
  intros HB. revert f2 rest. induction f1 as [|f1 IH]; intros f2 rest H1 H2; [lia|].
  destruct f2 as [|f2]; [lia|]. simpl.
  destruct (isEmpty (drop B rest)) eqn:E; [done|]. f_equal.
  assert (length rest <> 0)%nat.
  { intros Hz. apply length_zero_iff_nil in Hz. rewrite Hz, drop_nil in E. done. }
  apply IH; rewrite length_drop; lia.
Qed.

Lemma passBlocks_blocksOf {A} (fuel B : nat) (l : list A) :
  (0 < B)%nat -> (length l < fuel)%nat -> passBlocks fuel B l = blocksOf B l.
Proof. intros. apply passBlocks_fuel; [done|done|lia]. Qed.

Lemma steps_only_contents w w' g :
  steps_only w w' -> gallery_contents w' g = gallery_contents w g.
Proof. by intros (c & t & ->). Qed.

Lemma steps_only_blockSize w w' :
  steps_only w w' -> blockSize (Globals w') = blockSize (Globals w).
Proof. by intros (c & t & ->). Qed.

Lemma partitionLoop_spec fuel d sizes i queries todo qb t outputs w :
  (0 < Z.to_nat (blockSize (Globals w)))%nat ->
  cursor t = 0%nat ->
  (length (gallery_contents w t) < fuel)%nat ->
  (i + length todo <= length outputs)%nat ->
  (i + length todo <= length (segments sizes []))%nat ->
  exists w' outputs',
    partitionLoop fuel d sizes i queries todo qb t outputs w
    = Some (Ok (w', t, outputs'))
    /\ steps_only w w'
    /\ length outputs' = length outputs
    /\ forall j o, outputs !! j = Some o ->
         exists o', outputs' !! j = Some o'
           /\ output_file o' = output_file o
           /\ scores o'
              = scores o
                ++ match (if decide (i <= j)%nat then todo !! (j - i)%nat else None) with
                   | Some queries_j =>
                       targetPassScores d sizes j qb 0
                         (blocksOf (Z.to_nat (blockSize (Globals w)))
                            (gallery_contents w t)) queries_j
                   | None => []
                   end.
Proof.
  revert i outputs w. induction todo as [|queries_i todo IH];
    intros i outputs w HB Ht Hfuel Hout Hseg.
  - exists w, outputs. split; [done|]. split; [apply steps_only_refl|].
    split; [done|]. intros j o Ho. exists o. split; [done|]. split; [done|].
    case_decide; by rewrite ?lookup_nil, app_nil_r.
  - cbn [partitionLoop]. cbn [length] in Hout, Hseg.
    destruct (lookup_lt_is_Some_2 outputs i) as [o Ho]; [lia|].
    destruct (targetLoop_spec fuel d sizes i queries queries_i qb (-1) t outputs w o)
      as (w1 & o1 & -> & Hsteps1 & Hf1 & Hs1); [done|done|lia|by rewrite Ht|].
    rewrite Ht, drop_0, passBlocks_blocksOf in Hs1 by done.
    assert (mkGallery (key t) 0 = t) as -> by (destruct t; simpl in *; by subst).
    destruct (IH (S i) (<[i := o1]> outputs) w1) as (w' & outputs' & -> & Hsteps & Hlen & Hall).
    + by rewrite (steps_only_blockSize _ _ Hsteps1).
    + done.
    + by rewrite (steps_only_contents _ _ _ Hsteps1).
    + rewrite length_insert. lia.
    + lia.
    + exists w', outputs'. split; [done|].
      split; [by eapply steps_only_trans|].
      split; [by rewrite Hlen, length_insert|].
      rewrite (steps_only_blockSize _ _ Hsteps1),
        (steps_only_contents _ _ _ Hsteps1) in Hall.
      intros j o0 Ho0. destruct (decide (j = i)) as [->|Hne].
      * destruct (Hall i o1) as (o' & Ho' & Hf' & Hs').
        { apply list_lookup_insert_eq. by eapply lookup_lt_Some. }
        exists o'. split; [done|]. rewrite Ho in Ho0. injection Ho0 as <-.
        split; [congruence|].
        rewrite Hs', Hs1. rewrite decide_False by lia.
        rewrite decide_True by lia. rewrite Nat.sub_diag. simpl.
        by rewrite app_nil_r.
      * destruct (Hall j o0) as (o' & Ho' & Hf' & Hs').
        { by rewrite list_lookup_insert_ne. }
        exists o'. split; [done|]. split; [done|]. rewrite Hs'. f_equal.
        destruct (decide (S i <= j)%nat).
        -- rewrite decide_True by lia.
           replace (j - i)%nat with (S (j - S i)) by lia. done.
        -- rewrite decide_False by lia. done.
Qed.

Lemma shardScores_cons d sizes i qb tblocks qblock qblocks :
  shardScores d sizes i qb tblocks (qblock :: qblocks)
  = targetPassScores d sizes i qb 0 tblocks (segment sizes i qblock)
    ++ shardScores d sizes i (qb + 1) tblocks qblocks.
Proof.
  unfold shardScores. rewrite imap_cons. cbn [concat].
  change (Z.of_nat 0) with 0. rewrite Z.add_0_r. do 2 f_equal.
  apply imap_ext. intros k blk _. unfold compose. f_equal. lia.
Qed.

Lemma queryLoop_spec fuel d sizes qb t q outputs w :
  (0 < Z.to_nat (blockSize (Globals w)))%nat ->
  cursor t = 0%nat ->
  length outputs = length (segments sizes []) ->
  (length (drop (cursor q) (gallery_contents w q))
   + length (gallery_contents w t) + 1 < fuel)%nat ->
  exists w' outputs',
    queryLoop fuel d sizes qb t q outputs w = Some (Ok (w', outputs'))
    /\ steps_only w w'
    /\ length outputs' = length outputs
    /\ forall j o, outputs !! j = Some o ->
         exists o', outputs' !! j = Some o'
           /\ output_file o' = output_file o
           /\ scores o'
              = scores o
                ++ shardScores d sizes j (qb + 1)
                     (blocksOf (Z.to_nat (blockSize (Globals w)))
                        (gallery_contents w t))
                     (passBlocks fuel (Z.to_nat (blockSize (Globals w)))
                        (drop (cursor q) (gallery_contents w q))).
Proof.
  intros HB Ht. revert qb q outputs w HB.
  induction fuel as [|fuel IH]; intros qb q outputs w HB Hout Hfuel; [lia|].
  cbn [queryLoop]. unfold readBlock.
  set (B := Z.to_nat (blockSize (Globals w))) in *.
  set (rest := drop (cursor q) (gallery_contents w q)) in *.
  fold (segments sizes (take B rest)).
  destruct (partitionLoop_spec fuel d sizes 0 (take B rest)
              (segments sizes (take B rest)) (qb + 1) t outputs w)
    as (w1 & outputs1 & -> & Hsteps1 & Hlen1 & Hall1);
    [done|done|lia|rewrite length_segments; simpl; lia
    |rewrite length_segments; simpl; lia|].
  fold B in Hall1.
  assert (forall j o, outputs !! j = Some o ->
          exists o', outputs1 !! j = Some o'
            /\ output_file o' = output_file o
            /\ scores o' = scores o
                 ++ targetPassScores d sizes j (qb + 1) 0
                      (blocksOf B (gallery_contents w t))
                      (segment sizes j (take B rest))) as Hall1'.
  { intros j o Ho. destruct (Hall1 j o Ho) as (o' & Ho' & Hf' & Hs').
    exists o'. split; [done|]. split; [done|]. rewrite Hs'. f_equal.
    rewrite decide_True by lia. rewrite Nat.sub_0_r.
    rewrite segments_lookup; [done|].
    rewrite <- Hout. by eapply lookup_lt_Some. }
  clear Hall1. cbn [passBlocks]. fold B. fold rest.
  destruct (isEmpty (drop B rest)) eqn:Hdone.
  - exists w1, outputs1. split; [done|]. split; [done|]. split; [done|].
    intros j o Ho. destruct (Hall1' j o Ho) as (o' & Ho' & Hf' & Hs').
    exists o'. split; [done|]. split; [done|].
    rewrite Hs', shardScores_cons. do 2 f_equal.
    unfold shardScores. simpl. by rewrite app_nil_r.
  - assert (length (take B rest) = B) as Hfull.
    { rewrite length_take. destruct (decide (B <= length rest)%nat); [lia|].
      rewrite drop_ge in Hdone by lia. done. }
    assert (length rest <> 0)%nat as Hnonempty.
    { intros Hz. apply length_zero_iff_nil in Hz. rewrite Hz, drop_nil in Hdone. done. }
    rewrite Hfull.
    destruct (IH (qb + 1) (mkGallery (key q) (cursor q + B)) outputs1 w1)
      as (w' & outputs' & -> & Hsteps & Hlen & Hall).
    + by rewrite (steps_only_blockSize _ _ Hsteps1).
    + congruence.
    + rewrite !(steps_only_contents _ _ _ Hsteps1). cbn [cursor key].
      change (gallery_contents w (mkGallery (key q) (cursor q + B)))
        with (gallery_contents w q).
      rewrite <- drop_drop. fold rest. rewrite length_drop. lia.
    + exists w', outputs'. split; [done|].
      split; [by eapply steps_only_trans|]. split; [congruence|].
      intros j o Ho. destruct (Hall1' j o Ho) as (o1 & Ho1 & Hf1 & Hs1).
      destruct (Hall j o1 Ho1) as (o' & Ho' & Hf' & Hs').
      exists o'. split; [done|]. split; [congruence|].
      rewrite Hs', Hs1, shardScores_cons, <- app_assoc. do 2 f_equal.
      rewrite (steps_only_blockSize _ _ Hsteps1),
        !(steps_only_contents _ _ _ Hsteps1). fold B. cbn [cursor].
      change (gallery_contents w (mkGallery (key q) (cursor q + B)))
        with (gallery_contents w q).
      rewrite <- drop_drop. fold rest. done.
Qed.

(** ** Blocks of scores and the whole matrix *)

Lemma map_imap {A B C} (g : B -> C) (f : nat -> A -> B) (l : list A) :
  map g (imap f l) = imap (fun n x => g (f n x)) l.
Proof.
  revert f. induction l as [|x l IH]; intros f; [done|].
  simpl. by rewrite IH.
Qed.

Lemma matrixAt_cons d q0 t0 (T0 : TemplateList) q (Q : TemplateList) :
  matrixAt d q0 t0 T0 (q :: Q)
  = imap (fun j t => (q0, (t0 + j)%nat, compareTemplates d t q)) T0
    ++ matrixAt d (S q0) t0 T0 Q.
Proof.
  unfold matrixAt. rewrite imap_cons. cbn [concat]. f_equal.
  - apply imap_ext. intros j t _. by rewrite Nat.add_0_r.
  - f_equal. apply imap_ext. intros i q' _. unfold compose.
    apply imap_ext. intros j t _. do 2 f_equal. lia.
Qed.

Lemma matrixAt_rows d q0 t0 (T0 Q1 Q2 : TemplateList) :
  matrixAt d q0 t0 T0 (Q1 ++ Q2)
  = matrixAt d q0 t0 T0 Q1 ++ matrixAt d (q0 + length Q1) t0 T0 Q2.
Proof.
  revert q0. induction Q1 as [|q Q1 IH]; intros q0.
  - simpl. by rewrite Nat.add_0_r.
  - simpl. rewrite !matrixAt_cons, IH, <- app_assoc. do 3 f_equal. lia.
Qed.

Lemma matrix_row_app d q (q0 t0 : nat) (T1 T2 : TemplateList) :
  imap (fun j t => (q0, (t0 + j)%nat, compareTemplates d t q)) (T1 ++ T2)
  = imap (fun j t => (q0, (t0 + j)%nat, compareTemplates d t q)) T1
    ++ imap (fun j t => (q0, (t0 + length T1 + j)%nat, compareTemplates d t q)) T2.
Proof.
  rewrite imap_app. f_equal. apply imap_ext. intros j t _. simpl.
  do 2 f_equal. lia.
Qed.

Lemma matrixAt_columns d q0 t0 (T1 T2 Q : TemplateList) :
  matrixAt d q0 t0 (T1 ++ T2) Q
  ≡ₚ matrixAt d q0 t0 T1 Q ++ matrixAt d q0 (t0 + length T1) T2 Q.
Proof.
  revert q0. induction Q as [|q Q IH]; intros q0; [done|].
  rewrite !matrixAt_cons, IH, matrix_row_app.
  rewrite <- !app_assoc. f_equiv.
  rewrite !app_assoc. f_equiv. apply Permutation_app_comm.
Qed.

Lemma length_matrixAt d q0 t0 (T0 Q : TemplateList) :
  length (matrixAt d q0 t0 T0 Q) = (length Q * length T0)%nat.
Proof.
  revert q0. induction Q as [|q Q IH]; intros q0; [done|].
  rewrite matrixAt_cons, length_app, length_imap, IH. simpl. lia.
Qed.

Lemma located_blockScores B d (qb tb : nat) (T0 Q : TemplateList) :
  map (located B) (blockScores d (Z.of_nat qb) (Z.of_nat tb) T0 Q)
  = matrixAt d (qb * B) (tb * B) T0 Q.
Proof.
  unfold blockScores, matrixAt. rewrite concat_map, map_imap. f_equal.
  apply imap_ext. intros i q _. rewrite map_imap.
  apply imap_ext. intros j t _. unfold located. simpl. by rewrite !Nat2Z.id.
Qed.

Lemma segment_whole i (block : TemplateList) :
  segment [] i block = match i with O => block | S _ => [] end.
Proof. by destruct i. Qed.

Lemma passBlocks_last_short {A} (B : nat) (rest : list A) :
  isEmpty (drop B rest) = true -> take B rest = rest.
Proof.
  intros E%isEmpty_nil. rewrite <- (take_drop B rest) at 2. by rewrite E, app_nil_r.
Qed.

Lemma passBlocks_full {A} (B : nat) (rest : list A) :
  isEmpty (drop B rest) = false -> length (take B rest) = B /\ length rest <> 0%nat.
Proof.
  intros E. split.
  - rewrite length_take. destruct (decide (B <= length rest)%nat); [lia|].
    rewrite drop_ge in E by lia. done.
  - intros Hz. apply length_zero_iff_nil in Hz. rewrite Hz, drop_nil in E. done.
Qed.

Lemma targetPass_matrix B d (qb tb : nat) fuel (rest Qs : TemplateList) :
  (0 < B)%nat -> (length rest < fuel)%nat ->
  map (located B)
      (targetPassScores d [] 0 (Z.of_nat qb) (Z.of_nat tb) (passBlocks fuel B rest) Qs)
  ≡ₚ matrixAt d (qb * B) (tb * B) rest Qs.
Proof.
  intros HB. revert tb rest. induction fuel as [|fuel IH]; intros tb rest Hfuel; [lia|].
  cbn [passBlocks]. rewrite targetPassScores_cons, map_app, segment_whole.
  rewrite located_blockScores.
  destruct (isEmpty (drop B rest)) eqn:E.
  - rewrite (passBlocks_last_short _ _ E). unfold targetPassScores. simpl.
    by rewrite app_nil_r.
  - destruct (passBlocks_full _ _ E) as [Hfull Hne].
    replace (Z.of_nat tb + 1) with (Z.of_nat (S tb)) by lia.
    rewrite IH by (rewrite length_drop; lia).
    rewrite <- (take_drop B rest) at 3. rewrite matrixAt_columns, Hfull.
    f_equiv. f_equiv. simpl. lia.
Qed.

Lemma shard_matrix B d (qb : nat) fuel (T0 rest : TemplateList) :
  (0 < B)%nat -> (length rest < fuel)%nat ->
  map (located B)
      (shardScores d [] 0 (Z.of_nat qb) (blocksOf B T0) (passBlocks fuel B rest))
  ≡ₚ matrixAt d (qb * B) 0 T0 rest.
Proof.
  intros HB. revert qb rest. induction fuel as [|fuel IH]; intros qb rest Hfuel; [lia|].
  cbn [passBlocks]. rewrite shardScores_cons, map_app, segment_whole.
  unfold blocksOf at 1. rewrite (targetPass_matrix B d qb 0) by (done || lia).
  destruct (isEmpty (drop B rest)) eqn:E.
  - rewrite (passBlocks_last_short _ _ E). unfold shardScores. simpl.
    by rewrite app_nil_r.
  - destruct (passBlocks_full _ _ E) as [Hfull Hne].
    replace (Z.of_nat qb + 1) with (Z.of_nat (S qb)) by lia.
    rewrite IH by (rewrite length_drop; lia).
    rewrite <- (take_drop B rest) at 3. rewrite matrixAt_rows, Hfull.
    by replace (S qb * B)%nat with (qb * B + B)%nat by lia.
Qed.

(** ** No place is written twice *)









Lemma matrix_row_cells {V} (v : Template -> V) (q0 t0 : nat) (T0 : TemplateList) :
  map fst (imap (fun j t => (q0, (t0 + j)%nat, v t)) T0)
  = map (pair q0) (seq t0 (length T0)).
Proof.
  revert t0. induction T0 as [|t T0 IH]; intros t0; [done|].
  rewrite imap_cons. cbn [map length seq]. rewrite Nat.add_0_r. f_equal.
  rewrite <- IH. f_equal. apply imap_ext. intros j t' _. unfold compose.
  do 2 f_equal. lia.
Qed.

Lemma matrixAt_cells d q0 t0 (T0 Q : TemplateList) :
  map fst (matrixAt d q0 t0 T0 Q)
  = list_prod (seq q0 (length Q)) (seq t0 (length T0)).
Proof.
  revert q0. induction Q as [|q Q IH]; intros q0; [done|].
  rewrite matrixAt_cons, map_app, IH. cbn [length seq list_prod]. f_equal.
  apply (matrix_row_cells (fun t => compareTemplates d t q)).
Qed.

(** ** compare *)

Lemma Gallery_make_cursor (f : File) g : Gallery_make f = Some g -> cursor g = 0%nat.
Proof. unfold Gallery_make. destruct (galleryPlugin f); by intros [= <-]. Qed.

Lemma retrieveOrEnroll_cursor fuel a f w w' g fl :
  retrieveOrEnroll fuel a f w = Some (Ok (w', g, fl)) -> cursor g = 0%nat.
Proof.
  unfold retrieveOrEnroll. destruct (_ && _).
  - destruct (Gallery_make f) as [g'|] eqn:E; [|done].
    intros [= <- <- <-]. by eapply Gallery_make_cursor.
  - destruct (Gallery_make (getMemoryGallery a f)) as [g'|] eqn:E; [|done].
    destruct (negb _).
    + intros [= <- <- <-]. by eapply Gallery_make_cursor.
    + destruct (enroll fuel a f File_null w) as [[[w1 fl1]|m]|]; [|done|done].
      intros [= <- <- <-]. by eapply Gallery_make_cursor.
Qed.


Lemma compare_runs fuel a targetGallery queryGallery output w w1 w2 t q
    targetFiles queryFiles sizes ofiles d :
  exists_ w (name output) && get_bool output "cache" false = false ->
  retrieveOrEnroll fuel a targetGallery w = Some (Ok (w1, t, targetFiles)) ->
  retrieveOrEnroll fuel a
    (if File_eqb queryGallery "." then targetGallery else queryGallery) w1
  = Some (Ok (w2, q, queryFiles)) ->
  outputFiles output = Ok (sizes, ofiles) ->
  length ofiles = length (segments sizes []) ->
  distance a = Some d ->
  0 < blockSize (Globals w2) ->
  (length (gallery_contents w2 q) + length (gallery_contents w2 t) + 1 < fuel)%nat ->
  exists w' outputs,
    compare fuel a targetGallery queryGallery output w = Some (Ok (w', outputs))
    /\ steps_only w2 w'
    /\ length outputs = length ofiles
    /\ forall j f, ofiles !! j = Some f ->
         exists o, outputs !! j = Some o
           /\ output_file o = f
           /\ scores o
              = shardScores d sizes j 0
                  (blocksOf (Z.to_nat (blockSize (Globals w2))) (gallery_contents w2 t))
                  (blocksOf (Z.to_nat (blockSize (Globals w2))) (gallery_contents w2 q)).
Proof.
  intros Hcache Ht Hq Hout Hlen Hd HB Hfuel. unfold compare.
  rewrite Hcache, Ht, Hq, Hout, Hd.
  pose proof (retrieveOrEnroll_cursor _ _ _ _ _ _ _ Ht) as Hct.
  pose proof (retrieveOrEnroll_cursor _ _ _ _ _ _ _ Hq) as Hcq.
  match goal with
  | |- context [queryLoop fuel d sizes (-1) t q ?outs ?w0] =>
      destruct (queryLoop_spec fuel d sizes (-1) t q outs w0)
        as (w' & outputs & -> & Hsteps & Hlen' & Hall)
  end.
  - cbn [set_steps Globals blockSize]. lia.
  - done.
  - by rewrite length_map.
  - change (gallery_contents (set_steps _ _ w2)) with (gallery_contents w2).
    rewrite Hcq, drop_0. lia.
  - eexists _, outputs. split; [reflexivity|]. split.
    { eapply steps_only_trans; [|eapply steps_only_trans; [exact Hsteps|]];
        eexists _, _; reflexivity. }
    split; [by rewrite Hlen', length_map|].
    intros j f Hf.
    destruct (Hall j (Output_make f targetFiles queryFiles)) as (o & Ho & Hfile & Hs).
    { by rewrite list_lookup_fmap, Hf. }
    exists o. split; [done|]. split; [done|]. rewrite Hs. simpl.
    change (gallery_contents (set_steps _ _ w2)) with (gallery_contents w2).
    rewrite Hcq, drop_0. rewrite passBlocks_blocksOf; [done|lia|lia].
Qed.

Lemma outputFiles_plain output :
  contains output "split" = false -> outputFiles output = Ok ([], [output]).
Proof. unfold outputFiles. by intros ->. Qed.

Lemma outputFiles_split output :
  contains output "split" = true ->
  hasMarker (fileName output) "%1" = true ->
  outputFiles output
  = Ok (getList output "split",
        map (fun i => toFile (arg (name output) (Z.of_nat i)))
            (seq 0 (length (getList output "split")))).
Proof. unfold outputFiles. by intros -> ->. Qed.

(** C1.  A comparison without a partition-size list, once both galleries
    are retrieved or enrolled, returns for every fuel beyond the number of
    records read, with a single output.  The output holds the scores of
    every query block against every target block, query blocks outermost
    and the whole target gallery streamed again for each of them; put at
    their row and column these are a rearrangement of the whole matrix of
    the query gallery against the target gallery: exactly one score for
    every row and column, that is for every pair of a query record and a
    target record, [T * Q] in all. *)
Theorem compare_all_pairs fuel a targetGallery queryGallery output w w1 w2 t q
    targetFiles queryFiles d :
  exists_ w (name output) && get_bool output "cache" false = false ->
  retrieveOrEnroll fuel a targetGallery w = Some (Ok (w1, t, targetFiles)) ->
  retrieveOrEnroll fuel a
    (if File_eqb queryGallery "." then targetGallery else queryGallery) w1
  = Some (Ok (w2, q, queryFiles)) ->
  contains output "split" = false ->
  distance a = Some d ->
  0 < blockSize (Globals w2) ->
  (length (gallery_contents w2 q) + length (gallery_contents w2 t) + 1 < fuel)%nat ->
  let B := Z.to_nat (blockSize (Globals w2)) in
  let targets := gallery_contents w2 t in
  let queries := gallery_contents w2 q in
  exists w' o,
    compare fuel a targetGallery queryGallery output w = Some (Ok (w', [o]))
    /\ scores o
       = concat (imap (fun qb qblock =>
                         concat (imap (fun tb tblock =>
                                         blockScores d (Z.of_nat qb) (Z.of_nat tb)
                                           tblock qblock)
                                      (blocksOf B targets)))
                      (blocksOf B queries))
    /\ length (scores o) = (length targets * length queries)%nat
    /\ map (located B) (scores o) ≡ₚ matrix d targets queries
    /\ map fst (map (located B) (scores o))
       ≡ₚ list_prod (seq 0 (length queries)) (seq 0 (length targets)).
Proof.
  intros Hcache Ht Hq Hsplit Hd HB Hfuel B targets queries.
  destruct (compare_runs fuel a targetGallery queryGallery output w w1 w2 t q
              targetFiles queryFiles [] [output] d)
    as (w' & outputs & Hrun & _ & Hlen & Hall); try done.
  { by apply outputFiles_plain. }
  destruct (Hall 0%nat output eq_refl) as (o & Ho & _ & Hs).
  destruct outputs as [|o' [|]]; try done. injection Ho as ->.
  fold B targets queries in Hs.
  exists w', o. split; [done|]. split; [by rewrite Hs|].
  unfold B, targets, queries in *.
  assert (map (located (Z.to_nat (blockSize (Globals w2)))) (scores o)
          ≡ₚ matrix d (gallery_contents w2 t) (gallery_contents w2 q)) as Hperm.
  { rewrite Hs. unfold blocksOf at 2.
    apply (shard_matrix _ d 0); lia. }
  split; [|split; [done|]].
  - apply Permutation_length in Hperm. rewrite length_map in Hperm.
    rewrite Hperm. unfold matrix. rewrite length_matrixAt. lia.
  - rewrite <- (matrixAt_cells d). by apply Permutation_map.
Qed.

(** ** Which pairs a shard scores *)







(** *** When the segments of the blocks are the partitions of the
    population *)








Lemma retrieveOrEnroll_gallery fuel a f w w' g fl :
  retrieveOrEnroll fuel a f w = Some (Ok (w', g, fl)) ->
  Gallery_make (if storedGallery f then f else getMemoryGallery a f) = Some g.
Proof.
  unfold retrieveOrEnroll. fold (storedGallery f). destruct (storedGallery f).
  - destruct (Gallery_make f) as [g'|]; [|done]. by intros [= <- <- <-].
  - destruct (Gallery_make (getMemoryGallery a f)) as [g'|] eqn:E; [|done].
    destruct (negb _); [by intros [= <- <- <-]|].
    destruct (enroll fuel a f File_null w) as [[[w1 fl1]|m]|]; [|done|done].
    by intros [= <- <- <-].
Qed.

(** C10.  A query gallery named "." stands for the target gallery.  The
    query file is not consulted: the target gallery is retrieved or
    enrolled a second time and the handle that comes back is the target's
    own.  The comparison then returns, for every fuel beyond the records
    read, what the comparison of the target gallery with itself returns:
    every shard receives the scores of the target blocks against the
    target blocks, and without a partition-size list the single output
    holds, put at their rows and columns, exactly one score for every pair
    of target records, the whole matrix of the target population against
    itself. *)
Theorem compare_dot_is_self fuel a targetGallery queryGallery output w w1 w2 t q
    targetFiles queryFiles sizes ofiles d :
  name queryGallery = "." ->
  exists_ w (name output) && get_bool output "cache" false = false ->
  retrieveOrEnroll fuel a targetGallery w = Some (Ok (w1, t, targetFiles)) ->
  retrieveOrEnroll fuel a targetGallery w1 = Some (Ok (w2, q, queryFiles)) ->
  outputFiles output = Ok (sizes, ofiles) ->
  length ofiles = length (segments sizes []) ->
  distance a = Some d ->
  0 < blockSize (Globals w2) ->
  (2 * length (gallery_contents w2 t) + 1 < fuel)%nat ->
  let B := Z.to_nat (blockSize (Globals w2)) in
  let targets := gallery_contents w2 t in
  q = t
  /\ compare fuel a targetGallery queryGallery output w
     = compare fuel a targetGallery targetGallery output w
  /\ exists w' outputs,
       compare fuel a targetGallery queryGallery output w = Some (Ok (w', outputs))
       /\ length outputs = length ofiles
       /\ (forall j f, ofiles !! j = Some f ->
             exists o, outputs !! j = Some o
               /\ output_file o = f
               /\ scores o = shardScores d sizes j 0 (blocksOf B targets)
                               (blocksOf B targets))
       /\ (contains output "split" = false ->
           exists o, outputs = [o]
             /\ length (scores o) = (length targets * length targets)%nat
             /\ map (located B) (scores o) ≡ₚ matrix d targets targets
             /\ map fst (map (located B) (scores o))
                ≡ₚ list_prod (seq 0 (length targets)) (seq 0 (length targets))).
Proof.
  intros Hdot Hcache Ht Hq Hout Hlen Hd HB Hfuel B targets.
  assert (q = t) as ->.
  { apply retrieveOrEnroll_gallery in Ht, Hq. congruence. }
  assert (File_eqb queryGallery "." = true) as Heqb
    by (unfold File_eqb; by apply bool_decide_eq_true_2).
  split; [done|]. split.
  { unfold compare. rewrite Heqb. by destruct (File_eqb targetGallery "."). }
  destruct (compare_runs fuel a targetGallery queryGallery output w w1 w2 t t
              targetFiles queryFiles sizes ofiles d)
    as (w' & outputs & Hrun & _ & Hlen' & Hall); try done.
  { by rewrite Heqb. }
  { lia. }
  exists w', outputs. split; [done|]. split; [done|]. split; [exact Hall|].
  intros Hsplit. rewrite (outputFiles_plain _ Hsplit) in Hout.
  injection Hout as <- <-.
  destruct (Hall 0%nat output eq_refl) as (o & Ho & _ & Hs).
  destruct outputs as [|o' [|]]; try done. injection Ho as ->.
  exists o. split; [done|]. fold B targets in Hs.
  assert (map (located B) (scores o) ≡ₚ matrix d targets targets) as Hperm.
  { rewrite Hs. unfold blocksOf at 2. unfold B, targets.
    apply (shard_matrix _ d 0); lia. }
  split; [|split; [done|]].
  - apply Permutation_length in Hperm. rewrite length_map in Hperm.
    rewrite Hperm. unfold matrix. by rewrite length_matrixAt.
  - rewrite <- (matrixAt_cells d). by apply Permutation_map.
Qed.

(** ** init, store, load *)

Lemma parseDescription_described a description :
  parseDescription a description = described a description.
Proof.
  unfold parseDescription, described, distributed.
  destruct (parse (flat description) ":"%char) as [|w0 [|w1 [|w2 words]]]; try done.
  - cbn [length Z.of_nat Z.ltb Z.compare Pos.compare orb].
    destruct (getBool description "distribute" true); simpl;
      by destruct (Transform_make _).
  - cbn [length Z.of_nat Z.ltb Z.compare Pos.compare orb].
    destruct (getBool description "distribute" true); simpl;
      destruct (Transform_make _); try done; by destruct (Distance_make w1).
  - assert ((2 <? Z.of_nat (length (w0 :: w1 :: w2 :: words))) = true) as ->
      by (apply Z.ltb_lt; cbn [length]; lia).
    by rewrite orb_true_r.
Qed.

Lemma init_parse fuel w a description :
  getFileName w (name description) = "" ->
  exists_ w (name description) = false ->
  abbreviations (Globals w) !! name description = None ->
  init (S fuel) w a description = Some (described a description).
Proof.
  intros Hfile Hexists Habbr. cbn [init].
  rewrite Hfile, Hexists, Habbr. simpl. by rewrite parseDescription_described.
Qed.

(** C8.  Constructing an instance from a descriptor that is neither a
    pre-built model, nor an existing file, nor an abbreviation splits its
    flat form on colons.  Any number of tokens other than one or two ends
    in the fatal error "Invalid algorithm format.".  One token is
    accepted: the transform factory is given the token and the instance
    has no distance.  Two tokens are accepted: the transform factory is
    given the first, the distance factory the second, and the instance has
    the distance it makes.  Construction fails otherwise only when a
    factory does.  Conversely an instance that was constructed came from
    one or two tokens, with these components. *)
Theorem AlgorithmCore_new_parses fuel w descriptor :
  let description := toFile descriptor in
  let words := parse (flat description) ":"%char in
  getFileName w (name description) = "" ->
  exists_ w (name description) = false ->
  abbreviations (Globals w) !! name description = None ->
  (length words <> 1%nat -> length words <> 2%nat ->
   AlgorithmCore_new (S fuel) w descriptor = Some (Fatal "Invalid algorithm format."))
  /\ (forall feature, words = [feature] ->
      AlgorithmCore_new (S fuel) w descriptor
      = Some match Transform_make (distributed description feature) with
             | Some tr => Ok (mkCore (Some tr) None descriptor)
             | None => Fatal "Failed to make transform"
             end)
  /\ (forall feature metric, words = [feature; metric] ->
      AlgorithmCore_new (S fuel) w descriptor
      = Some match Transform_make (distributed description feature),
                   Distance_make metric with
             | Some tr, Some d => Ok (mkCore (Some tr) (Some d) descriptor)
             | None, _ => Fatal "Failed to make transform"
             | Some _, None => Fatal "Failed to make distance"
             end)
  /\ (forall a, AlgorithmCore_new (S fuel) w descriptor = Some (Ok a) ->
      (exists feature,
         words = [feature] /\ distance a = None /\ isClassifier a = true
         /\ transform a = Transform_make (distributed description feature))
      \/ (exists feature metric d,
            words = [feature; metric] /\ Distance_make metric = Some d
            /\ distance a = Some d /\ isClassifier a = false
            /\ transform a = Transform_make (distributed description feature))).
Proof.
  intros description words Hfile Hexists Habbr. unfold AlgorithmCore_new.
  fold description. rewrite init_parse by done.
  unfold described. fold words. cbn [distance core_name].
  split; [|split; [|split]].
  - intros H1 H2. by destruct words as [|w0 [|w1 [|w2 ?]]].
  - intros feature ->. by destruct (Transform_make _).
  - intros feature metric ->. by destruct (Transform_make _), (Distance_make metric).
  - intros a. destruct words as [|w0 [|w1 [|w2 ?]]]; try done.
    + destruct (Transform_make _) as [tr|] eqn:Etr; [|done].
      intros [= <-]. left. exists w0. by rewrite Etr.
    + destruct (Transform_make _) as [tr|] eqn:Etr; [|done].
      destruct (Distance_make w1) as [d|] eqn:Ed; [|done].
      intros [= <-]. right. exists w0, w1, d. by rewrite Etr.
Qed.

(** The round trip where it holds.  [store] writes the name, the transform
    blob, the [hasDistance] flag and, when the flag is set, the distance
    blob, and compresses the whole.  Provided the stream and plugin codecs
    read back what they wrote, and provided that in the file system as it
    is after the store the stored name still resolves to shells of the
    kinds the instance holds, [load] of that file returns the stored
    instance itself:
    same name, same transform, same distance (present if and only if it was
    stored), hence the same [enroll] and [compare] on every input. *)
Theorem store_load_roundtrip fuel (kinT : T -> T -> Prop) (kinD : D -> D -> Prop)
    a a_in model w w' shell :
  (forall s rest, getString (putString s ++ rest) = Some (s, rest)) ->
  (forall b rest, getBool_stream (putBool b ++ rest) = Some (b, rest)) ->
  (forall data, qUncompress (qCompress data) = Some data) ->
  (forall sh tr rest, kinT sh tr ->
     Transform_load sh (Transform_store tr ++ rest) = Some (tr, rest)) ->
  (forall sh d rest, kinD sh d ->
     Distance_load sh (Distance_store d ++ rest) = Some (d, rest)) ->
  store a model w = Ok w' ->
  init fuel w' (mkCore (transform a_in) (distance a_in) (core_name a))
       (resolved w' (core_name a)) = Some (Ok shell) ->
  core_name shell = core_name a ->
  sameKinds kinT kinD shell a ->
  exists data,
    disk w' !! model = Some (qCompress data)
    /\ data = putString (core_name a)
              ++ default [] (Transform_store <$> transform a)
              ++ putBool (negb (isClassifier a))
              ++ default [] (Distance_store <$> distance a)
    /\ load fuel w' a_in model = Some (Ok a)
    /\ (forall loaded, load fuel w' a_in model = Some (Ok loaded) ->
        (is_Some (distance loaded) <-> is_Some (distance a))
        /\ (forall f input gallery w0,
              enroll f loaded input gallery w0 = enroll f a input gallery w0)
        /\ (forall f target query output w0,
              compare f loaded target query output w0
              = compare f a target query output w0)).
Proof.
  intros Hstr Hbool Hzip HT HD Hstore Hinit Hname [HkT HkD].
  unfold store in Hstore.
  destruct a as [[tr|] da na]; cbn [transform distance core_name] in *;
    [|by destruct (transform shell)].
  set (data := putString na ++ Transform_store tr
               ++ putBool (negb (isClassifier (mkCore (Some tr) da na)))
               ++ match da with
                  | Some d => Distance_store d
                  | None => []
                  end) in *.
  injection Hstore as Hw'.
  assert (disk w' !! model = Some (qCompress data)) as Hdisk
    by (subst w'; apply lookup_insert_eq).
  exists data. split; [done|]. split; [by destruct da|].
  assert (load fuel w' a_in model = Some (Ok (mkCore (Some tr) da na))) as Hload.
  { unfold load, load_with. rewrite Hdisk, Hzip. unfold data. rewrite Hstr.
    unfold resolved in Hinit. rewrite Hinit.
    destruct shell as [[sh|] ds ns]; cbn [transform distance core_name] in *; [|done].
    subst ns. rewrite (HT sh tr _ HkT), Hbool.
    destruct da as [d|], ds as [shd|]; try done; cbn [isClassifier distance negb].
    by rewrite <- (app_nil_r (Distance_store d)), (HD shd d [] HkD). }
  split; [exact Hload|].
  intros loaded Hloaded. rewrite Hload in Hloaded. injection Hloaded as <-.
  done.
Qed.

(** [init] on a name under which the store put a model of that name. *)
Lemma init_own_name fuel a0 model rest w :
  (forall s tail, getString (putString s ++ tail) = Some (s, tail)) ->
  (forall data, qUncompress (qCompress data) = Some data) ->
  disk w !! model = Some (qCompress (putString model ++ rest)) ->
  name (toFile model) = model ->
  getFileName w model = "" ->
  abbreviations (Globals w) !! model = None ->
  init fuel w a0 (toFile model) = None.
Proof.
  intros Hstr Hzip Hdisk Hname Hfile Habbr. revert a0.
  induction fuel as [|fuel IH]; intros a0; [done|].
  cbn [init]. rewrite Hname, Hfile, bool_decide_eq_true_2 by done. cbn [negb].
  assert (exists_ w model = true) as ->.
  { unfold exists_. apply bool_decide_eq_true_2. by rewrite Hdisk. }
  unfold load_with. rewrite Hdisk, Hzip, Hstr, Habbr. by rewrite IH.
Qed.

(** C6.  The round trip fails for a model stored under a path that is its
    own name, when that name is no abbreviation and names no pre-built
    model: [load] reads the name and hands it to [init], which finds a file
    of that name, the model itself, and calls [load] on it again, and so
    on without end.  Neither [load] of the file nor the constructor on the
    name returns, whatever the fuel. *)
Theorem load_own_name_never_returns fuel a a_in model w w' :
  (forall s tail, getString (putString s ++ tail) = Some (s, tail)) ->
  (forall data, qUncompress (qCompress data) = Some data) ->
  store a model w = Ok w' ->
  core_name a = model ->
  name (toFile model) = model ->
  getFileName w' model = "" ->
  abbreviations (Globals w') !! model = None ->
  load fuel w' a_in model = None
  /\ AlgorithmCore_new fuel w' model = None.
Proof.
  intros Hstr Hzip Hstore Hcore Hname Hfile Habbr. unfold store in Hstore.
  destruct (transform a) as [tr|]; [|done]. injection Hstore as Hw'.
  assert (exists rest, disk w' !! model = Some (qCompress (putString model ++ rest)))
    as [rest Hdisk].
  { eexists. subst w'. cbn [disk set_disk]. by rewrite lookup_insert_eq, Hcore. }
  split.
  - unfold load, load_with. rewrite Hdisk, Hzip, Hstr, Habbr.
    by rewrite (init_own_name fuel _ model rest w').
  - unfold AlgorithmCore_new. by apply (init_own_name fuel _ model rest w').
Qed.

End CoreFacts.

(** ** Enrollment on the concrete platform *)

Lemma scale_keepsIdentity (tr : Demo.Scale) : keepsIdentity tr.
Proof.
  intros l. unfold names, files. simpl. rewrite !map_map. done.
Qed.

(** C3.  With [blockSize = 10] and [parallelism = 1] the sub-block size is 4
    and every block visits 3 sub-blocks, 12 records, so consecutive blocks
    overlap by two records: 25 input records are enrolled as 29, records 10,
    11, 20 and 21 twice, over 3 blocks. *)
Theorem enroll_25_blockSize_10 :
  let input := Demo.source "in" (map Z.of_nat (seq 0 25)) in
  let w := Demo.world 10 1 in
  blocks (Globals w) 25 = 3
  /\ subBlockSize (Globals w) = 4
  /\ numSubBlocks (Globals w) = 3
  /\ exists w1 fl,
       enroll 1 Demo.core input (File_of "out.gal") w = Some (Ok (w1, fl))
       /\ length fl = 29%nat
       /\ length (gallery_contents w1 (mkGallery "out.gal" 0)) = 29%nat
       /\ names fl
          = names (files (Demo.records 12 ++ drop 10 (Demo.records 22)
                          ++ drop 20 (Demo.records 25))).
Proof.
  cbv zeta. split; [done|]. split; [done|]. split; [done|].
  eexists _, _. split; [vm_compute; reflexivity|].
  split; [|split]; vm_compute; reflexivity.
Qed.

(** C4, on a concrete run: three records enrolled into a "cache" gallery,
    then enrolled again. *)
Lemma enroll_cache_idempotent_witness :
  let input := Demo.source "in" [0; 1; 2] in
  let gallery := Demo.flag "cache" (File_of "out.gal") in
  exists w1 fl1,
    enroll 1 Demo.core input gallery (Demo.world 10 1) = Some (Ok (w1, fl1))
    /\ fl1 <> []
    /\ enroll 1 Demo.core input gallery w1 = Some (Ok (w1, fl1)).
Proof.
  cbv zeta. eexists _, _.
  split; [vm_compute; reflexivity|]. split; [discriminate|].
  apply (enroll_cache_idempotent 1 0 Demo.core (Demo.source "in" [0; 1; 2])
           (Demo.flag "cache" (File_of "out.gal")) (Demo.world 10 1)).
  - discriminate.
  - vm_compute; reflexivity.
  - vm_compute; reflexivity.
  - discriminate.
Defined.

(** C9, the claim as stated fails: an input with the "infinite" marker
    enrolled into a "cache" gallery returns when the second execution of the
    loop body finds the records of the first, and an input that delivers no
    records returns from the first. *)
Lemma enroll_infinite_returns :
  let live := Demo.flag "infinite" (Demo.source "live" [0; 1; 2]) in
  let idle := Demo.flag "infinite" (Demo.source "idle" []) in
  let cached := Demo.flag "cache" (File_of "out.gal") in
  getBool live "infinite" false = true
  /\ (exists w fl, enroll 2 Demo.core live cached (Demo.world 10 1) = Some (Ok (w, fl))
                   /\ length fl = 3%nat)
  /\ getBool idle "infinite" false = true
  /\ (exists w, enroll 1 Demo.core idle (File_of "out.gal") (Demo.world 10 1)
                = Some (Ok (w, []))).
Proof.
  cbv zeta. split; [vm_compute; reflexivity|]. split.
  - eexists _, _. split; vm_compute; reflexivity.
  - split; [vm_compute; reflexivity|]. eexists. vm_compute; reflexivity.
Qed.

(** C9 (amended), on concrete runs: a plain input returns after one pass;
    a live input enrolled into a "cache" gallery returns from the second
    execution of the body, with the three records of the first; a live
    input enrolled into a plain gallery never returns. *)
Lemma enroll_infinite_marker_witness :
  let input := Demo.source "in" [0; 1; 2] in
  let live := Demo.flag "infinite" input in
  let gallery := File_of "out.gal" in
  let cached := Demo.flag "cache" (File_of "out.gal") in
  let g := mkGallery "out.gal" 0 in
  enroll 1 Demo.core input gallery (Demo.world 10 1)
  = Some (passResult (enrollPass Demo.core input gallery g (Demo.world 10 1)))
  /\ (exists w1,
        completedPasses 1 Demo.core live cached g (Demo.world 10 1) = Some w1
        /\ enroll 2 Demo.core live cached (Demo.world 10 1)
           = Some (Ok (w1, Gallery_files w1 g))
        /\ length (Gallery_files w1 g) = 3%nat)
  /\ (forall fuel, enroll fuel Demo.core live gallery (Demo.world 10 1) = None).
Proof.
  cbv zeta. split; [|split].
  - apply (proj1 (enroll_infinite_marker Demo.core
                    (Demo.source "in" [0; 1; 2]) (File_of "out.gal")
                    (mkGallery "out.gal" 0) (Demo.world 10 1)
                    ltac:(intros [? _]; discriminate) eq_refl)).
    vm_compute; reflexivity.
  - assert (exists w1,
              completedPasses 1 Demo.core
                (Demo.flag "infinite" (Demo.source "in" [0; 1; 2]))
                (Demo.flag "cache" (File_of "out.gal")) (mkGallery "out.gal" 0)
                (Demo.world 10 1) = Some w1
              /\ cacheHit (Demo.flag "cache" (File_of "out.gal")) w1
                   (mkGallery "out.gal" 0) = true
              /\ length (Gallery_files w1 (mkGallery "out.gal" 0)) = 3%nat)
      as (w1 & Hpasses & Hhit & Hlen)
      by (vm_compute; eexists; repeat split; reflexivity).
    exists w1. split; [exact Hpasses|]. split; [|exact Hlen].
    destruct (proj2 (enroll_infinite_marker Demo.core
                       (Demo.flag "infinite" (Demo.source "in" [0; 1; 2]))
                       (Demo.flag "cache" (File_of "out.gal"))
                       (mkGallery "out.gal" 0) (Demo.world 10 1)
                       ltac:(intros [? _]; discriminate) eq_refl)
                ltac:(vm_compute; reflexivity)) as (Hreturns & _).
    exact (proj1 (Hreturns 1%nat w1 0%nat Hpasses) Hhit).
  - destruct (proj2 (enroll_infinite_marker Demo.core
                       (Demo.flag "infinite" (Demo.source "in" [0; 1; 2]))
                       (File_of "out.gal") (mkGallery "out.gal" 0) (Demo.world 10 1)
                       ltac:(intros [? _]; discriminate) eq_refl)
                ltac:(vm_compute; reflexivity)) as (_ & _ & Hnever).
    apply Hnever.
    + vm_compute; reflexivity.
    + eexists; reflexivity.
    + intros k. discriminate.
Defined.

(** C5, the claim as stated fails.  A gallery with "noDuplicates" but
    neither "read" nor "cache" never reads its record list: a record whose
    identity the gallery already holds is projected and written again.  In
    "read" mode records are only checked against the list the gallery had
    before the pass: an identity repeated in the input is enrolled twice. *)
Lemma noDuplicates_keeps_duplicates :
  let g := mkGallery "out.gal" 0 in
  let held := set_galleries {[ "out.gal" := [Demo.record 0] ]} (Demo.world 10 1) in
  (exists w1 fl,
     enroll 1 Demo.core (Demo.source "in" [0])
       (Demo.flag "noDuplicates" (File_of "out.gal")) held = Some (Ok (w1, fl))
     /\ names (Gallery_files held g) = ["r00"]
     /\ projected w1 = [[Demo.record 0]]
     /\ names (Gallery_files w1 g) = ["r00"; "r00"])
  /\ (exists w1 fl,
        enroll 1 Demo.core (Demo.source "in" [1; 1])
          (Demo.flag "read" (Demo.flag "noDuplicates" (File_of "out.gal"))) held
        = Some (Ok (w1, fl))
        /\ names fl = ["r00"; "r01"; "r01"]).
Proof.
  cbv zeta. split.
  - eexists _, _. split; [vm_compute; reflexivity|].
    split; [|split]; vm_compute; reflexivity.
  - eexists _, _. split; vm_compute; reflexivity.
Qed.

(** C5 (amended), on a concrete run: records 1, 2, 2, 3 enrolled into a
    "read" gallery that holds records 0 and 1.  Record 1 is dropped, the
    repeated record 2 is kept twice. *)
Lemma enroll_noDuplicates_witness :
  let gallery := Demo.flag "read" (Demo.flag "noDuplicates" (File_of "out.gal")) in
  let w := set_galleries {[ "out.gal" := Demo.records 2 ]} (Demo.world 4 1) in
  exists w1 fl,
    enroll 1 Demo.core (Demo.source "in" [1; 2; 2; 3]) gallery w = Some (Ok (w1, fl))
    /\ names fl = ["r00"; "r01"; "r02"; "r02"; "r03"]
    /\ ~ NoDup (names fl).
Proof.
  cbv zeta.
  destruct (enroll_noDuplicates 0 Demo.core (Demo.source "in" [1; 2; 2; 3])
              (Demo.flag "read" (Demo.flag "noDuplicates" (File_of "out.gal")))
              (mkGallery "out.gal" 0)
              (set_galleries {[ "out.gal" := Demo.records 2 ]} (Demo.world 4 1))
              (Demo.mkScale "DistributeTemplate(FeatureX)" x01)
              ltac:(discriminate) eq_refl eq_refl eq_refl
              ltac:(vm_compute; reflexivity) eq_refl ltac:(reflexivity)
              ltac:(reflexivity))
    as ((w1 & Hrun & _) & _ & Hkeep).
  destruct Hkeep as (Hnames & _ & Hnodup);
    [apply scale_keepsIdentity|by exists 1|].
  eexists w1, _. split; [exact Hrun|]. split.
  - rewrite Hnames. vm_compute; reflexivity.
  - intros Hnd. apply Hnodup in Hnd as [_ Hnd]. vm_compute in Hnd.
    apply NoDup_cons in Hnd as [Hnotin _]. apply Hnotin. by left.
Defined.

(** ** Comparison on the concrete platform *)

(** C1, on a concrete run: three targets against two queries, read in
    blocks of two. *)
Lemma compare_all_pairs_witness :
  let w := Demo.stocked 2 [("t.gal", Demo.records 3); ("q.gal", Demo.records 2)] in
  exists w' o,
    compare 9 Demo.core (File_of "t.gal") (File_of "q.gal") (File_of "out.mtx") w
    = Some (Ok (w', [o]))
    /\ length (scores o) = 6%nat.
Proof.
  cbv zeta.
  destruct (compare_all_pairs 9 Demo.core (File_of "t.gal") (File_of "q.gal")
              (File_of "out.mtx")
              (Demo.stocked 2 [("t.gal", Demo.records 3); ("q.gal", Demo.records 2)])
              (Demo.stocked 2 [("t.gal", Demo.records 3); ("q.gal", Demo.records 2)])
              (Demo.stocked 2 [("t.gal", Demo.records 3); ("q.gal", Demo.records 2)])
              (mkGallery "t.gal" 0) (mkGallery "q.gal" 0)
              (files (Demo.records 3)) (files (Demo.records 2))
              (Demo.mkPairing "DistanceY" x00))
    as (w' & o & Hrun & Hlen & _).
  - vm_compute; reflexivity.
  - vm_compute; reflexivity.
  - vm_compute; reflexivity.
  - vm_compute; reflexivity.
  - reflexivity.
  - reflexivity.
  - vm_compute; lia.
  - exists w', o. split; [exact Hrun|]. rewrite Hlen. vm_compute; reflexivity.
Defined.



(** C10, on a concrete run: three records in blocks of two, compared
    with ".": nine scores, one for every pair of the three records, and
    the first of them is the first record against itself. *)
Lemma compare_dot_is_self_witness :
  let w := Demo.stocked 2 [("p.gal", Demo.records 3)] in
  exists w' o,
    compare 9 Demo.core (File_of "p.gal") (File_of ".") (File_of "out.mtx") w
    = Some (Ok (w', [o]))
    /\ length (scores o) = 9%nat
    /\ map (located 2) (scores o)
       ≡ₚ matrix (Demo.mkPairing "DistanceY" x00) (Demo.records 3) (Demo.records 3)
    /\ head (Demo.values o) = Some ("r00", "r00").
Proof.
  cbv zeta.
  destruct (compare_dot_is_self 9 Demo.core (File_of "p.gal") (File_of ".")
              (File_of "out.mtx")
              (Demo.stocked 2 [("p.gal", Demo.records 3)])
              (Demo.stocked 2 [("p.gal", Demo.records 3)])
              (Demo.stocked 2 [("p.gal", Demo.records 3)])
              (mkGallery "p.gal" 0) (mkGallery "p.gal" 0)
              (files (Demo.records 3)) (files (Demo.records 3))
              [] [File_of "out.mtx"] (Demo.mkPairing "DistanceY" x00))
    as (_ & _ & w' & outputs & Hrun & _ & Hall & Hplain).
  - reflexivity.
  - vm_compute; reflexivity.
  - vm_compute; reflexivity.
  - vm_compute; reflexivity.
  - vm_compute; reflexivity.
  - reflexivity.
  - reflexivity.
  - reflexivity.
  - vm_compute; lia.
  - destruct Hplain as (o & -> & Hlen & Hperm & _); [vm_compute; reflexivity|].
    destruct (Hall 0%nat (File_of "out.mtx") eq_refl) as (o' & [= <-] & _ & Hs).
    exists w', o. split; [exact Hrun|].
    split; [rewrite Hlen; vm_compute; reflexivity|]. split; [exact Hperm|].
    unfold Demo.values. rewrite Hs. vm_compute; reflexivity.
Defined.

(** ** Descriptors and models on the concrete platform *)

Lemma decode_encodeString (s : string) (rest : list byte) :
  Demo.decodeString (Demo.encodeString s ++ rest) = Some (s, rest).
Proof.
  induction s as [|c s IH]; [done|].
  cbn [Demo.encodeString app Demo.decodeString].
  by rewrite IH, ascii_of_byte_of_ascii.
Qed.

Lemma decode_encodeBool (b : bool) (rest : list byte) :
  Demo.decodeBool (Demo.encodeBool b ++ rest) = Some (b, rest).
Proof. by destruct b. Qed.

Lemma scale_load_store (shell tr : Demo.Scale) (rest : list byte) :
  Demo.kinT shell tr -> Transform_load shell (Transform_store tr ++ rest) = Some (tr, rest).
Proof. unfold Demo.kinT. destruct shell, tr. simpl. by intros ->. Qed.

Lemma pairing_load_store (shell d : Demo.Pairing) (rest : list byte) :
  Demo.kinD shell d -> Distance_load shell (Distance_store d ++ rest) = Some (d, rest).
Proof. unfold Demo.kinD. destruct shell, d. simpl. by intros ->. Qed.

(** C8, on concrete descriptors: three tokens are refused, one makes a
    transform and no distance, two make a transform and a distance. *)
Lemma AlgorithmCore_new_parses_witness :
  AlgorithmCore_new 1 (Demo.world 10 1) "A:B:C"
  = Some (Fatal (A := AlgorithmCore (T := Demo.Scale) (D := Demo.Pairing))
            "Invalid algorithm format.")
  /\ AlgorithmCore_new 1 (Demo.world 10 1) "FeatureX"
     = Some (Ok (mkCore (transform Demo.core) None "FeatureX"))
  /\ AlgorithmCore_new 1 (Demo.world 10 1) "FeatureX:DistanceY" = Some (Ok Demo.core)
  /\ isClassifier Demo.core = false.
Proof.
  pose proof (AlgorithmCore_new_parses (T := Demo.Scale) (D := Demo.Pairing)
                0 (Demo.world 10 1) "A:B:C") as Hthree.
  pose proof (AlgorithmCore_new_parses (T := Demo.Scale) (D := Demo.Pairing)
                0 (Demo.world 10 1) "FeatureX") as Hone.
  pose proof (AlgorithmCore_new_parses (T := Demo.Scale) (D := Demo.Pairing)
                0 (Demo.world 10 1) "FeatureX:DistanceY") as Htwo.
  cbv zeta in Hthree, Hone, Htwo.
  destruct (Hthree eq_refl eq_refl eq_refl) as [Hfatal _].
  destruct (Hone eq_refl eq_refl eq_refl) as (_ & Hclassifier & _).
  destruct (Htwo eq_refl eq_refl eq_refl) as (_ & _ & Hpair & Hmade).
  split; [|split; [|split]].
  - apply Hfatal; vm_compute; discriminate.
  - rewrite (Hclassifier "FeatureX") by (vm_compute; reflexivity).
    vm_compute; reflexivity.
  - rewrite (Hpair "FeatureX" "DistanceY") by (vm_compute; reflexivity).
    vm_compute; reflexivity.
  - destruct (Hmade Demo.core ltac:(vm_compute; reflexivity))
      as [(feature & _ & _ & Hclass & _)|(feature & metric & d & _ & _ & _ & Hclass & _)];
      [discriminate Hclass|exact Hclass].
Defined.

(** The round trip on a concrete model: a trained instance stored as
    "model.bin" and loaded by a fresh instance. *)
Lemma store_load_roundtrip_witness :
  exists w',
    store Demo.trained "model.bin" (Demo.world 10 1) = Ok w'
    /\ load 1 w' (Demo.blank "model.bin") "model.bin" = Some (Ok Demo.trained).
Proof.
  pose proof (store_load_roundtrip (T := Demo.Scale) (D := Demo.Pairing)
                1 Demo.kinT Demo.kinD Demo.trained (Demo.blank "model.bin")
                "model.bin" (Demo.world 10 1)) as Hroundtrip.
  eexists. split; [reflexivity|].
  edestruct Hroundtrip as (data & _ & _ & Hload & _).
  - apply decode_encodeString.
  - apply decode_encodeBool.
  - done.
  - apply scale_load_store.
  - apply pairing_load_store.
  - reflexivity.
  - vm_compute; reflexivity.
  - reflexivity.
  - split; reflexivity.
  - exact Hload.
Defined.

(** C6, at a concrete input: the instance named "FeatureX:DistanceY"
    stored under the path "FeatureX:DistanceY" and loaded from it. *)
Lemma load_own_name_diverges :
  exists w',
    store Demo.core "FeatureX:DistanceY" (Demo.world 10 1) = Ok w'
    /\ forall fuel,
         load fuel w' (Demo.blank "FeatureX:DistanceY") "FeatureX:DistanceY" = None.
Proof.
  eexists. split; [reflexivity|]. intros fuel.
  pose proof (load_own_name_never_returns (T := Demo.Scale) (D := Demo.Pairing)
                fuel Demo.core (Demo.blank "FeatureX:DistanceY")
                "FeatureX:DistanceY" (Demo.world 10 1)) as Hnever.
  refine (proj1 (Hnever _ decode_encodeString (fun data => eq_refl) eq_refl eq_refl
                   eq_refl _ _)).
  - vm_compute; reflexivity.
  - vm_compute; reflexivity.
Defined.

(** ** The registry under interleaving *)

Module Registry.
Import AlgorithmManager RegistryInvariant.
Section RegistryFacts.
Context {A : Type} (construct : string -> option A).

Implicit Types (s : State (A := A)) (m : gmap string ptr) (th : Thread).

Lemma stage_ok_mono m m' h h' th :
  m ⊆ m' -> (h <= h')%nat -> stage_ok m h th -> stage_ok m' h' th.
Proof.
  intros Hm Hh. unfold stage_ok. destruct (stage th); try done.
  - lia.
  - lia.
  - intros [p Hp]. exists p. by eapply lookup_weaken.
  - intros [p Hp]. exists p. by eapply lookup_weaken.
  - intros Hp. by eapply lookup_weaken.
Qed.

Lemma threads_ok_mono m m' h h' ths :
  m ⊆ m' -> (h <= h')%nat -> threads_ok m h ths -> threads_ok m' h' ths.
Proof. intros Hm Hh Hok tid th Hth. eapply stage_ok_mono; eauto. Qed.

Lemma threads_ok_alter m h ths tid th st :
  threads_ok m h ths ->
  ths !! tid = Some th ->
  stage_ok m h (mkThread (algorithm th) st) ->
  threads_ok m h (alter (fun th => mkThread (algorithm th) st) tid ths).
Proof.
  intros Hok Hth Hst tid' th'. destruct (decide (tid' = tid)) as [->|Hne].
  - rewrite list_lookup_alter_eq, Hth. by intros [= <-].
  - rewrite list_lookup_alter_ne by done. apply Hok.
Qed.

Lemma registry_ok_mono m h h' :
  (h <= h')%nat -> registry_ok m h -> registry_ok m h'.
Proof. intros Hh Hok n p Hp. specialize (Hok n p Hp). lia. Qed.

Lemma registry_ok_insert m h n p :
  (0 < p <= h)%nat -> registry_ok m h -> registry_ok (<[n := p]> m) h.
Proof.
  intros Hp Hok n' p'. destruct (decide (n = n')) as [->|Hne].
  - rewrite lookup_insert_eq. by intros [= <-].
  - rewrite lookup_insert_ne by done. apply Hok.
Qed.

(** One statement keeps the invariant and never changes or removes a
    registered instance. *)
Lemma step_invariant tid s s' :
  invariant s -> step construct tid s = Some s' ->
  invariant s' /\ algorithms s ⊆ algorithms s'.
Proof.
  intros [Hths Hreg]. unfold step.
  destruct (aborted s); [done|].
  destruct (threads s !! tid) as [[n st]|] eqn:Hth; [|done].
  pose proof (Hths tid _ Hth) as Hme. unfold stage_ok in Hme. cbn [stage algorithm] in *.
  destruct st as [| | |p|p| | |p].
  - case_bool_decide; intros [= <-]; (split; [|done]); split; cbn; try done.
    by eapply threads_ok_alter.
  - destruct (algorithms s !! n) eqn:Hn; intros [= <-]; (split; [|done]);
      split; cbn; try done; eapply threads_ok_alter; eauto; unfold stage_ok; cbn; eauto.
  - destruct (construct n) as [a|]; intros [= <-]; (split; [|done]); split; cbn;
      try done; rewrite ?length_app; cbn.
    + eapply threads_ok_alter; eauto.
      * eapply threads_ok_mono; [done| |done]. lia.
      * unfold stage_ok. cbn. lia.
    + eapply registry_ok_mono; [|done]. lia.
  - destruct (algorithmsLock s); [done|]. intros [= <-]. (split; [|done]); split; cbn;
      try done. eapply threads_ok_alter; eauto.
  - destruct (algorithms s !! n) eqn:Hn; intros [= <-].
    + (split; [|done]); split; cbn; try done.
      eapply threads_ok_alter; eauto. unfold stage_ok; cbn; eauto.
    + assert (algorithms s ⊆ <[n := p]> (algorithms s)) as Hsub
        by (by apply insert_subseteq).
      split; [|done]. split; cbn.
      * eapply threads_ok_alter; eauto.
        -- eapply threads_ok_mono; [done| |done]. lia.
        -- unfold stage_ok. cbn. rewrite lookup_insert_eq. eauto.
      * by apply registry_ok_insert.
  - intros [= <-]. (split; [|done]); split; cbn; try done.
    eapply threads_ok_alter; eauto.
  - destruct Hme as [p Hp]. rewrite Hp. intros [= <-].
    (split; [|done]); split; cbn; try done.
    eapply threads_ok_alter; eauto.
  - done.
Qed.

Lemma start_invariant lookups : invariant (start (A := A) lookups).
Proof.
  split; cbn.
  - intros tid th (n & -> & _)%list_lookup_fmap_Some. done.
  - intros n p. by rewrite lookup_empty.
Qed.

Lemma run_invariant schedule s :
  invariant s ->
  invariant (run construct schedule s)
  /\ algorithms s ⊆ algorithms (run construct schedule s).
Proof.
  revert s. induction schedule as [|tid schedule IH]; intros s Hs; [done|].
  cbn [run]. destruct (step construct tid s) as [s'|] eqn:Hstep; cbn [default].
  - destruct (step_invariant _ _ _ Hs Hstep) as [Hs' Hsub].
    destruct (IH s' Hs') as [Hfinal Hsub']. split; [done|]. by etrans.
  - by apply IH.
Qed.

Lemma alter_names tid st (ths : list Thread) :
  map algorithm (alter (fun th => mkThread (algorithm th) st) tid ths)
  = map algorithm ths.
Proof.
  revert tid. induction ths as [|th ths IH]; intros tid; [done|].
  destruct tid as [|tid]; cbn; [done|]. by rewrite <- (IH tid).
Qed.

Lemma step_names tid s s' :
  step construct tid s = Some s' ->
  map algorithm (threads s') = map algorithm (threads s).
Proof.
  unfold step. destruct (aborted s); [done|].
  destruct (threads s !! tid) as [[n st]|]; [|done]. cbn [stage algorithm].
  destruct st; repeat case_match; try done; intros [= <-]; cbn [threads at_stage abort
    set_lock set_algorithms allocate]; by rewrite ?alter_names.
Qed.

Lemma run_names schedule lookups :
  map algorithm (threads (run construct schedule (start lookups))) = lookups.
Proof.
  assert (forall s, map algorithm (threads (run construct schedule s))
                    = map algorithm (threads s)) as Hgen.
  { induction schedule as [|tid schedule IH]; intros s; [done|].
    cbn [run]. rewrite IH.
    destruct (step construct tid s) as [s'|] eqn:Hstep; cbn [default]; [|done].
    by eapply step_names. }
  rewrite Hgen. cbn. rewrite map_map. cbn. apply map_id.
Qed.

End RegistryFacts.
End Registry.

(** ** The registry, access by access *)

Module Access.
Import AlgorithmManagerAccess AccessInvariant.
Section AccessFacts.
Context {A : Type} (construct : string -> option A).

Implicit Types (s : State (A := A)) (m : gmap string ptr) (th : Thread).

Lemma access_stage_mono m m' h h' th :
  m ⊆ m' -> (h <= h')%nat ->
  (forall p, stage th = AtInsert p -> m' !! algorithm th = None) ->
  stage_ok m h th -> stage_ok m' h' th.
Proof.
  intros Hm Hh Hins. unfold stage_ok. destruct (stage th) eqn:Hst; try done.
  - lia.
  - lia.
  - intros [Hp _]. split; [lia|]. by eapply Hins.
  - intros [p Hp]. exists p. by eapply lookup_weaken.
  - intros [p Hp]. exists p. by eapply lookup_weaken.
  - intros Hp. by eapply lookup_weaken.
Qed.

Lemma access_threads_others m h ths tid th st :
  (forall tid' th', tid' <> tid -> ths !! tid' = Some th' -> stage_ok m h th') ->
  ths !! tid = Some th ->
  stage_ok m h (mkThread (algorithm th) st) ->
  threads_ok m h (alter (fun th => mkThread (algorithm th) st) tid ths).
Proof.
  intros Hok Hth Hst tid' th'. destruct (decide (tid' = tid)) as [->|Hne].
  - rewrite list_lookup_alter_eq, Hth. by intros [= <-].
  - rewrite list_lookup_alter_ne by done. by apply Hok.
Qed.

Lemma access_threads_alter m h ths tid th st :
  threads_ok m h ths ->
  ths !! tid = Some th ->
  stage_ok m h (mkThread (algorithm th) st) ->
  threads_ok m h (alter (fun th => mkThread (algorithm th) st) tid ths).
Proof.
  intros Hok. apply access_threads_others. intros tid' th' _. apply Hok.
Qed.

Lemma access_threads_grow m h ths :
  threads_ok m h ths -> threads_ok m (S h) ths.
Proof.
  intros Hok tid th Hth.
  apply (access_stage_mono m m h (S h)); [done|lia| |by eapply Hok].
  intros p Hp. specialize (Hok tid th Hth). unfold stage_ok in Hok.
  rewrite Hp in Hok. tauto.
Qed.

Lemma access_holds_alter tid t st ths th :
  ths !! tid = Some th ->
  holds_lock t (alter (fun th => mkThread (algorithm th) st) tid ths)
  <-> (if decide (t = tid) then locked st = true else holds_lock t ths).
Proof.
  intros Hth. unfold holds_lock. destruct (decide (t = tid)) as [->|Hne].
  - rewrite list_lookup_alter_eq, Hth. cbn. split.
    + by intros (th' & [= <-] & Hl).
    + intros Hl. eexists. split; [done|]. done.
  - by rewrite list_lookup_alter_ne.
Qed.

(** A step that leaves the mutex alone and its thread on the same side of
    the locked section. *)
Lemma access_lock_same tid st' s th :
  lock_ok s -> threads s !! tid = Some th -> locked st' = locked (stage th) ->
  forall m, lock_ok (at_stage tid st' (set_algorithms m s)).
Proof.
  intros Hok Hth Hl m t. cbn. rewrite access_holds_alter by done.
  rewrite (Hok t). destruct (decide (t = tid)) as [->|]; [|done].
  rewrite Hl. unfold holds_lock. rewrite Hth. split.
  - by intros (th' & [= <-] & H').
  - intros H'. eexists. split; [done|]. done.
Qed.

(** While a thread is between [lock()] and [unlock()] no other thread is. *)
Lemma access_exclusive s tid tid' th th' :
  lock_ok s ->
  threads s !! tid = Some th -> locked (stage th) = true ->
  threads s !! tid' = Some th' -> locked (stage th') = true ->
  tid' = tid.
Proof.
  intros Hok Hth Hl Hth' Hl'.
  assert (algorithmsLock s = Some tid) as H1 by (apply Hok; by exists th).
  assert (algorithmsLock s = Some tid') as H2 by (apply Hok; by exists th').
  congruence.
Qed.

(** One access keeps the invariant and never changes or removes a
    registered instance: an [insert] only happens where the name is
    missing, because the thread that found it missing holds the mutex. *)
Lemma access_step_invariant tid s s' :
  invariant s -> step construct tid s = Some s' ->
  invariant s' /\ algorithms s ⊆ algorithms s'.
Proof.
  intros (Hths & Hreg & Hlock). unfold step.
  destruct (aborted s); [done|].
  destruct (threads s !! tid) as [[n st]|] eqn:Hth; [|done].
  pose proof (Hths tid _ Hth) as Hme. unfold stage_ok in Hme. cbn [stage algorithm] in *.
  assert (forall st', locked st' = locked st ->
            stage_ok (algorithms s) (length (heap s)) (mkThread n st') ->
            invariant (at_stage tid st' s) /\ algorithms s ⊆ algorithms (at_stage tid st' s))
    as Hquiet.
  { intros st' Hl Hst'. split; [|done]. split; [|split].
    - cbn. by eapply access_threads_alter.
    - done.
    - destruct s as [m l h ths ab].
      apply (access_lock_same tid st' (mkState m l h ths ab) _ Hlock Hth Hl m). }
  destruct st as [| | |p|p|p| | |p].
  - case_bool_decide; intros [= <-]; [done|]. by apply Hquiet.
  - destruct (algorithms s !! n) eqn:Hn; intros [= <-]; apply Hquiet; try done;
      unfold stage_ok; cbn; rewrite Hn; eauto.
  - destruct (construct n) as [a|]; intros [= <-]; [|done]. split; [|done].
    split; [|split]; cbn; rewrite ?length_app; cbn [length].
    + replace (length (heap s) + 1)%nat with (S (length (heap s))) by lia.
      eapply access_threads_alter; [by apply access_threads_grow|done|].
      unfold stage_ok. cbn. lia.
    + intros n' p' Hp'. specialize (Hreg n' p' Hp'). lia.
    + intros t. cbn. rewrite access_holds_alter by done. rewrite (Hlock t).
      destruct (decide (t = tid)) as [->|]; [|done].
      unfold holds_lock. rewrite Hth. cbn. split; [|done].
      by intros (th' & [= <-] & H').
  - destruct (algorithmsLock s) as [holder|] eqn:Hfree; [done|]. intros [= <-].
    split; [|done]. split; [|split]; cbn.
    + by eapply access_threads_alter.
    + done.
    + intros t. cbn. rewrite access_holds_alter by done.
      destruct (decide (t = tid)) as [->|Hne]; [done|].
      split; [intros [= ->]; done|].
      intros Hh. apply Hlock in Hh. congruence.
  - destruct (algorithms s !! n) eqn:Hn; intros [= <-]; apply Hquiet; try done;
      unfold stage_ok; cbn; rewrite Hn; eauto.
  - intros [= <-]. destruct Hme as [Hp Hmissing].
    assert (algorithms s ⊆ <[n := p]> (algorithms s)) as Hsub
      by (by apply insert_subseteq).
    split; [|done]. split; [|split]; cbn.
    + eapply access_threads_others; [|done|].
      * intros tid' th' Hne Hth'. pose proof (Hths tid' th' Hth') as Hok'.
        eapply access_stage_mono; [done|done| |done].
        intros p' Hst'. exfalso. apply Hne.
        eapply (access_exclusive s tid tid'); [done|done|done|done|].
        by rewrite Hst'.
      * unfold stage_ok. cbn. rewrite lookup_insert_eq. eauto.
    + intros n' p'. destruct (decide (n = n')) as [<-|Hne].
      * rewrite lookup_insert_eq. by intros [= <-].
      * rewrite lookup_insert_ne by done. apply Hreg.
    + destruct s as [m l h ths ab].
      apply (access_lock_same tid AtUnlock (mkState m l h ths ab) _ Hlock Hth eq_refl).
  - intros [= <-]. split; [|done]. split; [|split]; cbn.
    + by eapply access_threads_alter.
    + done.
    + intros t. cbn. rewrite access_holds_alter by done.
      assert (algorithmsLock s = Some tid) as Hmine.
      { apply Hlock. eexists. split; [done|]. done. }
      destruct (decide (t = tid)) as [->|Hne]; [done|].
      split; [done|]. intros Hh. apply Hlock in Hh. congruence.
  - destruct Hme as [p Hp]. rewrite Hp. intros [= <-]. by apply Hquiet.
  - done.
Qed.

Lemma access_start_invariant lookups : invariant (start (A := A) lookups).
Proof.
  split; [|split]; cbn.
  - intros tid th (n & -> & _)%list_lookup_fmap_Some. done.
  - intros n p. by rewrite lookup_empty.
  - intros t. cbn. split; [done|].
    intros (th & (n & -> & _)%list_lookup_fmap_Some & Hl). done.
Qed.

Lemma access_run_invariant schedule s :
  invariant s ->
  invariant (run construct schedule s)
  /\ algorithms s ⊆ algorithms (run construct schedule s).
Proof.
  revert s. induction schedule as [|tid schedule IH]; intros s Hs; [done|].
  cbn [run]. destruct (step construct tid s) as [s'|] eqn:Hstep; cbn [default].
  - destruct (access_step_invariant _ _ _ Hs Hstep) as [Hs' Hsub].
    destruct (IH s' Hs') as [Hfinal Hsub']. split; [done|]. by etrans.
  - by apply IH.
Qed.

Lemma access_alter_names tid st (ths : list Thread) :
  map algorithm (alter (fun th => mkThread (algorithm th) st) tid ths)
  = map algorithm ths.
Proof.
  revert tid. induction ths as [|th ths IH]; intros tid; [done|].
  destruct tid as [|tid]; cbn; [done|]. by rewrite <- (IH tid).
Qed.

Lemma access_step_names tid s s' :
  step construct tid s = Some s' ->
  map algorithm (threads s') = map algorithm (threads s).
Proof.
  unfold step. destruct (aborted s); [done|].
  destruct (threads s !! tid) as [[n st]|]; [|done]. cbn [stage algorithm].
  destruct st; repeat case_match; try done; intros [= <-]; cbn [threads at_stage abort
    set_lock set_algorithms allocate]; by rewrite ?access_alter_names.
Qed.

Lemma access_run_names schedule lookups :
  map algorithm (threads (run construct schedule (start lookups))) = lookups.
Proof.
  assert (forall s, map algorithm (threads (run construct schedule s))
                    = map algorithm (threads s)) as Hgen.
  { induction schedule as [|tid schedule IH]; intros s; [done|].
    cbn [run]. rewrite IH.
    destruct (step construct tid s) as [s'|] eqn:Hstep; cbn [default]; [|done].
    by eapply access_step_names. }
  rewrite Hgen. cbn. rewrite map_map. cbn. apply map_id.
Qed.

(** C7.  In every interleaving of the accesses of concurrent lookups,
    started on an empty registry, with the [contains] of line 350 and the
    [insert] of line 351 as separate steps and the mutex as the only thing
    that keeps other threads out between them: a lookup that has returned
    holds the instance registered under its name, which is a live instance
    and not null; two lookups of one name that have returned hold the same
    instance, however many candidates were constructed; and whatever the
    threads do next, that instance stays the one registered under the
    name. *)
Theorem getAlgorithm_shared lookups schedule more tid1 tid2 p1 p2 :
  let s := run construct schedule (start lookups) in
  lookups !! tid1 = lookups !! tid2 ->
  returned tid1 s = Some p1 ->
  returned tid2 s = Some p2 ->
  p1 = p2
  /\ p1 <> null
  /\ (exists n, lookups !! tid1 = Some n
               /\ algorithms s !! n = Some p1
               /\ algorithms (run construct more s) !! n = Some p1).
Proof.
  intros s Hsame H1 H2.
  destruct (access_run_invariant schedule (start lookups) (access_start_invariant lookups))
    as [Hinv _]. fold s in Hinv. pose proof Hinv as (Hths & Hreg & _).
  unfold returned in H1, H2.
  destruct (threads s !! tid1) as [[n1 [| | | | | | | |q1]]|] eqn:Hth1; try done.
  destruct (threads s !! tid2) as [[n2 [| | | | | | | |q2]]|] eqn:Hth2; try done.
  injection H1 as ->. injection H2 as ->.
  assert (forall tid n st, threads s !! tid = Some (mkThread n st) ->
                           lookups !! tid = Some n) as Hname.
  { intros tid n st Hth. rewrite <- (access_run_names schedule lookups). fold s.
    by rewrite list_lookup_fmap, Hth. }
  pose proof (Hname _ _ _ Hth1) as Hn1. pose proof (Hname _ _ _ Hth2) as Hn2.
  pose proof (Hths _ _ Hth1) as Hp1. pose proof (Hths _ _ Hth2) as Hp2.
  unfold stage_ok in Hp1, Hp2. cbn in Hp1, Hp2.
  assert (n1 = n2) as <- by congruence.
  split; [congruence|]. split.
  - specialize (Hreg _ _ Hp1). unfold null. lia.
  - exists n1. split; [done|]. split; [done|].
    destruct (access_run_invariant more s Hinv) as [_ Hsub].
    by eapply lookup_weaken.
Qed.

End AccessFacts.
End Access.

(** C7, on a concrete race: two threads look up the same name, both find
    the registry empty and construct a candidate.  The first takes the
    mutex and finds the name missing; the second cannot take the mutex
    before the first has inserted its candidate and released it, then
    finds the name registered and discards its own.  Both return the
    first thread's instance. *)
Lemma getAlgorithm_shared_witness :
  let lookups := ["FeatureX:DistanceY"; "FeatureX:DistanceY"] in
  let schedule := [0; 0; 0; 1; 1; 1; 0; 0; 1; 0; 0; 1; 1; 1; 0; 1]%nat in
  let s := AlgorithmManagerAccess.run Demo.construct schedule
             (AlgorithmManagerAccess.start lookups) in
  length (AlgorithmManagerAccess.heap s) = 2%nat
  /\ AlgorithmManagerAccess.returned 0 s = Some 1%nat
  /\ AlgorithmManagerAccess.returned 1 s = Some 1%nat
  /\ AlgorithmManagerAccess.algorithms s !! "FeatureX:DistanceY" = Some 1%nat.
Proof.
  cbv zeta. split; [vm_compute; reflexivity|].
  split; [vm_compute; reflexivity|]. split; [vm_compute; reflexivity|].
  destruct (Access.getAlgorithm_shared Demo.construct
              ["FeatureX:DistanceY"; "FeatureX:DistanceY"]
              [0; 0; 0; 1; 1; 1; 0; 0; 1; 0; 0; 1; 1; 1; 0; 1]%nat [] 0%nat 1%nat
              1%nat 1%nat
              eq_refl ltac:(vm_compute; reflexivity) ltac:(vm_compute; reflexivity))
    as (_ & _ & n & Hn & Hreg & _).
  injection Hn as <-. exact Hreg.
Defined.

(** Without a race: the first lookup constructs and registers the only
    instance, the second finds it registered and constructs nothing. *)
Example getAlgorithm_twice :
  let lookups := ["FeatureX:DistanceY"; "FeatureX:DistanceY"] in
  let schedule := (replicate 7 0 ++ replicate 3 1)%nat in
  let s := AlgorithmManager.run Demo.construct schedule (AlgorithmManager.start lookups) in
  AlgorithmManager.heap s = [Demo.core]
  /\ AlgorithmManager.returned 0 s = Some 1%nat
  /\ AlgorithmManager.returned 1 s = Some 1%nat.
Proof. cbv zeta. repeat split; vm_compute; reflexivity. Qed.

(** * Further properties *)

(** ** The registry: locking, progress, provenance *)

Module RegistryMore.
Import AlgorithmManager AlgorithmManagerLifecycle RegistryInvariant RegistryLock.
Section MoreFacts.
Context {A : Type} (construct : string -> option A).

Implicit Types (s : State (A := A)) (m : gmap string ptr) (th : Thread).

Lemma holds_lock_alter tid t st ths th :
  ths !! tid = Some th ->
  holds_lock t (alter (fun th => mkThread (algorithm th) st) tid ths)
  <-> (if decide (t = tid) then locked st = true else holds_lock t ths).
Proof.
  intros Hth. unfold holds_lock. destruct (decide (t = tid)) as [->|Hne].
  - rewrite list_lookup_alter_eq, Hth. cbn. split.
    + by intros (th' & [= <-] & Hl).
    + intros Hl. eexists. split; [done|]. done.
  - by rewrite list_lookup_alter_ne.
Qed.

(** One statement keeps the mutex and the threads' positions in step. *)
Lemma step_lock_ok tid s s' :
  lock_ok s -> step construct tid s = Some s' -> lock_ok s'.
Proof.
  intros Hok. unfold step.
  destruct (aborted s); [done|].
  destruct (threads s !! tid) as [[n st]|] eqn:Hth; [|done]. cbn [stage algorithm].
  assert (forall st', locked st' = locked st ->
            lock_ok (at_stage tid st' s)) as Hsame.
  { intros st' Hl t. cbn. rewrite holds_lock_alter by done.
    rewrite (Hok t). destruct (decide (t = tid)) as [->|]; [|done].
    rewrite Hl. unfold holds_lock. rewrite Hth. cbn. split.
    - by intros (th' & [= <-] & H').
    - intros H'. eexists. split; [done|]. done. }
  destruct st as [| | |p|p| | |p].
  - case_bool_decide; intros [= <-]; [exact Hok|]. by apply Hsame.
  - destruct (algorithms s !! n); intros [= <-]; by apply Hsame.
  - destruct (construct n); intros [= <-]; [|exact Hok].
    intros t. cbn. rewrite holds_lock_alter by done. rewrite (Hok t).
    destruct (decide (t = tid)) as [->|]; [|done].
    unfold holds_lock. rewrite Hth. cbn. split; [|done].
    by intros (th' & [= <-] & H').
  - destruct (algorithmsLock s) as [holder|] eqn:Hlock; [done|]. intros [= <-].
    intros t. cbn. rewrite holds_lock_alter by done.
    destruct (decide (t = tid)) as [->|Hne]; [done|].
    split; [intros [= ->]; done|].
    intros Hh. apply Hok in Hh. congruence.
  - destruct (algorithms s !! n); intros [= <-].
    + by apply Hsame.
    + intros t. cbn. rewrite holds_lock_alter by done. rewrite (Hok t).
      destruct (decide (t = tid)) as [->|]; [|done].
      unfold holds_lock. rewrite Hth. cbn. split; [done|]. intros _. eauto.
  - intros [= <-]. intros t. cbn. rewrite holds_lock_alter by done.
    assert (algorithmsLock s = Some tid) as Hmine.
    { apply Hok. eexists. split; [done|]. done. }
    destruct (decide (t = tid)) as [->|Hne]; [done|].
    split; [done|]. intros Hh. apply Hok in Hh. congruence.
  - destruct (algorithms s !! n); intros [= <-].
    + by apply Hsame.
    + intros t. cbn. rewrite holds_lock_alter by done. rewrite (Hok t).
      destruct (decide (t = tid)) as [->|]; [|done].
      unfold holds_lock. rewrite Hth. cbn. split; [|done].
      by intros (th' & [= <-] & H').
  - done.
Qed.

Lemma start_lock_ok lookups : lock_ok (start (A := A) lookups).
Proof.
  intros t. cbn. split; [done|].
  intros (th & (n & -> & _)%list_lookup_fmap_Some & Hl). done.
Qed.

Lemma run_lock_ok schedule s : lock_ok s -> lock_ok (run construct schedule s).
Proof.
  revert s. induction schedule as [|tid schedule IH]; intros s Hs; [done|].
  cbn [run]. destruct (step construct tid s) as [s'|] eqn:Hstep; cbn [default].
  - apply IH. by eapply step_lock_ok.
  - by apply IH.
Qed.

(** X1.  Mutual exclusion: in every interleaving of lookups, at most one
    thread is between [lock()] and [unlock()] (lines 350-352), and the
    mutex is held by exactly that thread. *)
Theorem getAlgorithm_mutual_exclusion lookups schedule tid1 tid2 :
  let s := run construct schedule (start lookups) in
  holds_lock tid1 (threads s) ->
  holds_lock tid2 (threads s) ->
  tid1 = tid2 /\ algorithmsLock s = Some tid1.
Proof.
  intros s H1 H2.
  pose proof (run_lock_ok schedule _ (start_lock_ok lookups)) as Hok. fold s in Hok.
  apply Hok in H1. apply Hok in H2. split; congruence.
Qed.

Lemma step_enabled tid s th :
  aborted s = false ->
  threads s !! tid = Some th ->
  has_returned th = false ->
  algorithmsLock s = None \/ locked (stage th) = true ->
  is_Some (step construct tid s).
Proof.
  intros Hab Hth Hret Hfree. unfold step. rewrite Hab, Hth.
  unfold has_returned in Hret.
  destruct (stage th); try done; repeat case_match; try done; eauto.
  destruct Hfree as [Hfree|Hfree]; [congruence|done].
Qed.

Lemma unfinished_thread (ths : list Thread) :
  forallb has_returned ths = false ->
  exists tid th, ths !! tid = Some th /\ has_returned th = false.
Proof.
  induction ths as [|th ths IH]; [done|]. cbn [forallb].
  destruct (has_returned th) eqn:Hth.
  - intros (tid & th' & H1 & H2)%IH. by exists (S tid), th'.
  - intros _. by exists 0%nat, th.
Qed.

Lemma progress s :
  lock_ok s -> aborted s = false -> finished s = false ->
  exists tid s', step construct tid s = Some s'.
Proof.
  intros Hok Hab (tid & th & Hth & Hret)%unfinished_thread.
  destruct (algorithmsLock s) as [holder|] eqn:Hlock.
  - destruct (proj1 (Hok holder) Hlock) as (th' & Hth' & Hl).
    destruct (step_enabled holder s th') as [s' Hs']; try done.
    + unfold has_returned. by destruct (stage th').
    + by right.
    + by exists holder, s'.
  - destruct (step_enabled tid s th) as [s' Hs']; try done; [by left|].
    by exists tid, s'.
Qed.

(** X2.  No deadlock: in every interleaving of lookups, as long as the
    process has not been ended by [qFatal] and some call has not returned,
    some thread can execute its next statement. *)
Theorem getAlgorithm_no_deadlock lookups schedule :
  let s := run construct schedule (start lookups) in
  aborted s = false ->
  finished s = false ->
  exists tid s', step construct tid s = Some s'.
Proof.
  intros s. apply progress. apply run_lock_ok, start_lock_ok.
Qed.

Lemma work_alter tid st (ths : list Thread) th :
  ths !! tid = Some th ->
  (work (alter (fun th => mkThread (algorithm th) st) tid ths) + remaining (stage th)
   = work ths + remaining st)%nat.
Proof.
  revert tid. induction ths as [|th0 ths IH]; intros tid; [done|].
  destruct tid as [|tid]; cbn.
  - intros [= ->]. lia.
  - intros Hth. specialize (IH tid Hth). unfold work in IH. lia.
Qed.

(** A statement that does not end the process brings its thread closer to
    its [return]. *)
Lemma step_work tid s s' :
  step construct tid s = Some s' ->
  aborted s' = true \/ (aborted s' = false /\ (work (threads s') < work (threads s))%nat).
Proof.
  unfold step. destruct (aborted s) eqn:Hab; [done|].
  destruct (threads s !! tid) as [[n st]|] eqn:Hth; [|done]. cbn [stage algorithm].
  destruct st; repeat case_match; try done; intros [= <-]; try (by left); right;
    (split; [done|]); cbn [threads at_stage set_lock set_algorithms allocate];
    match goal with
    | |- context [alter (fun th => mkThread (algorithm th) ?st') tid _] =>
        pose proof (work_alter tid st' _ _ Hth) as Hw
    end; cbn [stage remaining] in Hw; lia.
Qed.

Lemma work_zero (ths : list Thread) :
  work ths = 0%nat -> forallb has_returned ths = true.
Proof.
  induction ths as [|th ths IH]; [done|]. cbn. unfold work in IH.
  unfold has_returned. destruct (stage th); cbn [remaining]; try lia.
  intros Hw. by apply IH.
Qed.

Lemma completes_from (k : nat) s :
  lock_ok s -> (work (threads s) <= k)%nat ->
  exists more, (length more <= k)%nat
    /\ (aborted (run construct more s) = true \/ finished (run construct more s) = true).
Proof.
  revert s. induction k as [|k IH]; intros s Hok Hk.
  - exists []. split; [done|]. cbn [run].
    right. apply work_zero. lia.
  - destruct (aborted s) eqn:Hab; [exists []; split; [cbn; lia|by left]|].
    destruct (finished s) eqn:Hfin; [exists []; split; [cbn; lia|by right]|].
    destruct (progress s Hok Hab Hfin) as (tid & s' & Hstep).
    pose proof (step_lock_ok _ _ _ Hok Hstep) as Hok'.
    pose proof (step_work _ _ _ Hstep) as Hw.
    destruct Hw as [Habs|[_ Hlt]].
    + exists [tid]. split; [cbn; lia|]. left. cbn [run]. by rewrite Hstep.
    + destruct (IH s' Hok') as (more & Hlen & Hend); [lia|].
      exists (tid :: more). split; [cbn; lia|]. cbn [run]. by rewrite Hstep.
Qed.

Lemma work_start lookups :
  work (threads (start (A := A) lookups)) = (7 * length lookups)%nat.
Proof. cbn. induction lookups as [|n l IH]; [done|]. cbn in *. lia. Qed.

Lemma run_work schedule s :
  (work (threads (run construct schedule s)) <= work (threads s))%nat.
Proof.
  revert s. induction schedule as [|tid schedule IH]; intros s; [done|].
  cbn [run]. destruct (step construct tid s) as [s'|] eqn:Hstep; cbn [default]; [|done].
  etrans; [apply IH|]. revert Hstep. unfold step.
  destruct (aborted s) eqn:Hab; [done|].
  destruct (threads s !! tid) as [[n st]|] eqn:Hth; [|done]. cbn [stage algorithm].
  destruct st; repeat case_match; try done; intros [= <-];
    cbn [id threads at_stage set_lock set_algorithms allocate abort]; try lia;
    match goal with
    | |- context [alter (fun th => mkThread (algorithm th) ?st') tid _] =>
        pose proof (work_alter tid st' _ _ Hth) as Hw
    end; cbn [stage remaining] in Hw; lia.
Qed.

(** X3.  Termination: from every state an interleaving of lookups can
    reach, the calls can be run to the end, where every call has returned
    or [qFatal] has ended the process, and that takes no more than seven
    statements per call. *)
Theorem getAlgorithm_completes lookups schedule :
  let s := run construct schedule (start lookups) in
  exists more,
    (length more <= 7 * length lookups)%nat
    /\ (aborted (run construct more s) = true
        \/ finished (run construct more s) = true).
Proof.
  intros s. apply completes_from.
  - apply run_lock_ok, start_lock_ok.
  - rewrite <- work_start. apply run_work.
Qed.

Lemma constructed_from_grow (h : list A) a n p :
  constructed_from construct h n p -> constructed_from construct (h ++ [a]) n p.
Proof.
  intros (b & Hp & Hb & Hc). exists b. split; [done|]. split; [|done].
  by apply lookup_app_l_Some.
Qed.

Lemma provenance_alter (h : list A) (ths : list Thread) tid th st :
  (forall tid th, ths !! tid = Some th -> candidate_ok construct h th) ->
  ths !! tid = Some th ->
  candidate_ok construct h (mkThread (algorithm th) st) ->
  forall tid' th', alter (fun th => mkThread (algorithm th) st) tid ths !! tid' = Some th' ->
                   candidate_ok construct h th'.
Proof.
  intros Hall Hth Hst tid' th'. destruct (decide (tid' = tid)) as [->|Hne].
  - rewrite list_lookup_alter_eq, Hth. by intros [= <-].
  - rewrite list_lookup_alter_ne by done. apply Hall.
Qed.

(** One statement keeps the provenance of candidates and registered
    instances; line 355 never has to insert a null pointer. *)
Lemma step_provenance tid s s' :
  invariant s -> provenance_ok construct s -> step construct tid s = Some s' ->
  provenance_ok construct s'.
Proof.
  intros [Hths _] [Hreg Hcand]. unfold step.
  destruct (aborted s); [done|].
  destruct (threads s !! tid) as [[n st]|] eqn:Hth; [|done].
  pose proof (Hths tid _ Hth) as Hme. unfold stage_ok in Hme.
  pose proof (Hcand tid _ Hth) as Hmine. unfold candidate_ok in Hmine.
  cbn [stage algorithm] in *.
  destruct st as [| | |p|p| | |p].
  - case_bool_decide; intros [= <-]; [done|]. split; [done|]. cbn.
    by eapply provenance_alter.
  - destruct (algorithms s !! n); intros [= <-]; (split; [done|]); cbn;
      by eapply provenance_alter.
  - destruct (construct n) as [a|] eqn:Hn; intros [= <-]; [|done]. split; cbn.
    + intros n' p' Hp'. by apply constructed_from_grow, Hreg.
    + eapply provenance_alter; [|done|].
      * intros tid' th' Hth'. specialize (Hcand tid' th' Hth').
        unfold candidate_ok in *. destruct (stage th'); try done;
          by apply constructed_from_grow.
      * unfold candidate_ok. cbn. exists a. split; [done|]. split; [|done].
        by rewrite lookup_app_r, Nat.sub_diag.
  - destruct (algorithmsLock s); [done|]. intros [= <-]. split; [done|]. cbn.
    by eapply provenance_alter.
  - destruct (algorithms s !! n) eqn:Hn; intros [= <-].
    + split; [done|]. cbn. by eapply provenance_alter.
    + split; cbn.
      * intros n' p'. destruct (decide (n = n')) as [<-|Hne].
        -- rewrite lookup_insert_eq. by intros [= <-].
        -- rewrite lookup_insert_ne by done. apply Hreg.
      * by eapply provenance_alter.
  - intros [= <-]. split; [done|]. cbn. by eapply provenance_alter.
  - destruct Hme as [p Hp]. rewrite Hp. intros [= <-]. split; [done|]. cbn.
    by eapply provenance_alter.
  - done.
Qed.

Lemma start_provenance lookups : provenance_ok construct (start lookups).
Proof.
  split; cbn.
  - intros n p. by rewrite lookup_empty.
  - intros tid th (n & -> & _)%list_lookup_fmap_Some. done.
Qed.

Lemma run_provenance schedule s :
  invariant s -> provenance_ok construct s ->
  provenance_ok construct (run construct schedule s).
Proof.
  revert s. induction schedule as [|tid schedule IH]; intros s Hinv Hs; [done|].
  cbn [run]. destruct (step construct tid s) as [s'|] eqn:Hstep; cbn [default].
  - apply IH.
    + by destruct (Registry.step_invariant construct _ _ _ Hinv Hstep).
    + by eapply step_provenance.
  - by apply IH.
Qed.

(** X4.  Provenance: in every interleaving of lookups started on an empty
    registry, the pointer a call returns is the address of an instance
    that the constructor built from the very name that call asked for. *)
Theorem getAlgorithm_provenance lookups schedule tid p :
  let s := run construct schedule (start lookups) in
  returned tid s = Some p ->
  exists n a, lookups !! tid = Some n
              /\ p <> null
              /\ heap s !! pred p = Some a
              /\ construct n = Some a.
Proof.
  intros s Hret.
  destruct (Registry.run_invariant construct schedule (start lookups)
              (Registry.start_invariant lookups)) as [[Hths _] _].
  pose proof (run_provenance schedule _ (Registry.start_invariant lookups)
                (start_provenance lookups)) as [Hreg _].
  fold s in Hths, Hreg. unfold returned in Hret.
  destruct (threads s !! tid) as [[n [| | | | | | |q]]|] eqn:Hth; try done.
  injection Hret as ->.
  pose proof (Hths _ _ Hth) as Hp. unfold stage_ok in Hp. cbn in Hp.
  destruct (Hreg _ _ Hp) as (a & Hnull & Ha & Hc).
  exists n, a. split; [|done].
  rewrite <- (Registry.run_names construct schedule lookups). fold s.
  by rewrite list_lookup_fmap, Hth.
Qed.

Lemma waiting_alter tid st (ths : list Thread) th :
  ths !! tid = Some th ->
  (waiting (alter (fun th => mkThread (algorithm th) st) tid ths) + pending (stage th)
   = waiting ths + pending st)%nat.
Proof.
  revert tid. induction ths as [|th0 ths IH]; intros tid; [done|].
  destruct tid as [|tid]; cbn.
  - intros [= ->]. lia.
  - intros Hth. specialize (IH tid Hth). unfold waiting in IH. lia.
Qed.

Lemma step_constructions tid s s' :
  step construct tid s = Some s' ->
  (length (heap s') + waiting (threads s') <= length (heap s) + waiting (threads s))%nat.
Proof.
  unfold step. destruct (aborted s); [done|].
  destruct (threads s !! tid) as [[n st]|] eqn:Hth; [|done]. cbn [stage algorithm].
  destruct st; repeat case_match; try done; intros [= <-];
    cbn [heap threads at_stage set_lock set_algorithms allocate abort]; try lia;
    rewrite ?length_app; cbn [length];
    match goal with
    | |- context [alter (fun th => mkThread (algorithm th) ?st') tid _] =>
        pose proof (waiting_alter tid st' _ _ Hth) as Hw
    end; cbn [stage pending] in Hw; lia.
Qed.

Lemma waiting_start lookups :
  waiting (threads (start (A := A) lookups)) = length lookups.
Proof. cbn. induction lookups as [|n l IH]; [done|]. cbn in *. lia. Qed.

(** X24.  Construction is bounded: in every interleaving of lookups, a
    call constructs at most one instance, so no more instances are ever
    constructed than calls were made, races included. *)
Theorem getAlgorithm_constructions lookups schedule :
  let s := run construct schedule (start lookups) in
  (length (heap s) + waiting (threads s) <= length lookups)%nat.
Proof.
  cbv zeta.
  assert (forall s, (length (heap (run construct schedule s))
                     + waiting (threads (run construct schedule s))
                     <= length (heap s) + waiting (threads s))%nat) as Hgen.
  { induction schedule as [|tid schedule IH]; intros s; [done|].
    cbn [run]. destruct (step construct tid s) as [s'|] eqn:Hstep; cbn [default]; [|done].
    etrans; [apply IH|]. exact (step_constructions _ _ _ Hstep). }
  etrans; [apply Hgen|]. by rewrite waiting_start.
Qed.

(** *** One call on its own *)

Lemma thread_at_stage tid st s th :
  threads s !! tid = Some th ->
  threads (at_stage tid st s) !! tid = Some (mkThread (algorithm th) st).
Proof. intros Hth. cbn. by rewrite list_lookup_alter_eq, Hth. Qed.

Lemma run_cons tid rest s s' :
  step construct tid s = Some s' ->
  run construct (tid :: rest) s = run construct rest s'.
Proof. intros Hstep. cbn [run]. by rewrite Hstep. Qed.

Lemma run_aborted schedule s :
  aborted s = true -> run construct schedule s = s.
Proof.
  intros Hab. induction schedule as [|tid schedule IH]; [done|].
  cbn [run]. unfold step. by rewrite Hab.
Qed.

Lemma step_AtEntry tid s n :
  aborted s = false -> threads s !! tid = Some (mkThread n AtEntry) -> n <> "" ->
  step construct tid s = Some (at_stage tid AtCheck s).
Proof. intros Hab Hth Hn. unfold step. rewrite Hab, Hth. cbn. by case_bool_decide. Qed.

Lemma step_AtCheck tid s n :
  aborted s = false -> threads s !! tid = Some (mkThread n AtCheck) ->
  step construct tid s
  = Some (at_stage tid (match algorithms s !! n with
                        | Some _ => AtReturn
                        | None => AtConstruct
                        end) s).
Proof.
  intros Hab Hth. unfold step. rewrite Hab, Hth. cbn. by destruct (algorithms s !! n).
Qed.

Lemma step_AtConstruct tid s n a :
  aborted s = false -> threads s !! tid = Some (mkThread n AtConstruct) ->
  construct n = Some a ->
  step construct tid s
  = Some (at_stage tid (AtLock (S (length (heap s)))) (allocate a s)).
Proof. intros Hab Hth Hn. unfold step. rewrite Hab, Hth. cbn. by rewrite Hn. Qed.

Lemma step_AtLock tid s n p :
  aborted s = false -> threads s !! tid = Some (mkThread n (AtLock p)) ->
  algorithmsLock s = None ->
  step construct tid s = Some (at_stage tid (AtRecheck p) (set_lock (Some tid) s)).
Proof. intros Hab Hth Hl. unfold step. rewrite Hab, Hth. cbn. by rewrite Hl. Qed.

Lemma step_AtRecheck tid s n p :
  aborted s = false -> threads s !! tid = Some (mkThread n (AtRecheck p)) ->
  algorithms s !! n = None ->
  step construct tid s
  = Some (at_stage tid AtUnlock (set_algorithms (<[n := p]> (algorithms s)) s)).
Proof. intros Hab Hth Hn. unfold step. rewrite Hab, Hth. cbn. by rewrite Hn. Qed.

Lemma step_AtUnlock tid s n :
  aborted s = false -> threads s !! tid = Some (mkThread n AtUnlock) ->
  step construct tid s = Some (at_stage tid AtReturn (set_lock None s)).
Proof. intros Hab Hth. unfold step. by rewrite Hab, Hth. Qed.

Lemma step_AtReturn tid s n :
  aborted s = false -> threads s !! tid = Some (mkThread n AtReturn) ->
  step construct tid s
  = Some (match algorithms s !! n with
          | Some p => at_stage tid (Returned p) s
          | None => at_stage tid (Returned null)
                      (set_algorithms (<[n := null]> (algorithms s)) s)
          end).
Proof.
  intros Hab Hth. unfold step. rewrite Hab, Hth. cbn. by destruct (algorithms s !! n).
Qed.

Lemma returned_at_stage tid p s th :
  threads s !! tid = Some th -> returned tid (at_stage tid (Returned p) s) = Some p.
Proof. intros Hth. unfold returned. by rewrite (thread_at_stage _ _ _ _ Hth). Qed.

(** A call that finds its name registered: three statements. *)
Lemma alone_registered s tid n p :
  aborted s = false ->
  threads s !! tid = Some (mkThread n AtEntry) ->
  n <> "" ->
  algorithms s !! n = Some p ->
  let s' := alone construct tid 3 s in
  returned tid s' = Some p
  /\ algorithms s' = algorithms s
  /\ heap s' = heap s
  /\ algorithmsLock s' = algorithmsLock s
  /\ aborted s' = false.
Proof.
  intros Hab Hth Hn Hp. unfold alone. cbn [replicate].
  rewrite (run_cons _ _ _ _ (step_AtEntry _ _ _ Hab Hth Hn)).
  pose proof (thread_at_stage tid AtCheck _ _ Hth) as Hth1. cbn [algorithm] in Hth1.
  rewrite (run_cons _ _ _ _ (step_AtCheck _ (at_stage tid AtCheck s) _ Hab Hth1)).
  cbn [algorithms at_stage]. rewrite Hp.
  pose proof (thread_at_stage tid AtReturn _ _ Hth1) as Hth2. cbn [algorithm] in Hth2.
  rewrite (run_cons _ _ _ _ (step_AtReturn _ (at_stage tid AtReturn (at_stage tid AtCheck s))
                               _ Hab Hth2)).
  cbn [algorithms at_stage]. rewrite Hp. cbn [run].
  split; [by eapply returned_at_stage|]. done.
Qed.

(** A call that finds its name missing, with the mutex free: seven
    statements. *)
Lemma alone_fresh s tid n a :
  aborted s = false ->
  threads s !! tid = Some (mkThread n AtEntry) ->
  n <> "" ->
  algorithms s !! n = None ->
  algorithmsLock s = None ->
  construct n = Some a ->
  let s' := alone construct tid 7 s in
  let p := S (length (heap s)) in
  returned tid s' = Some p
  /\ algorithms s' = <[n := p]> (algorithms s)
  /\ heap s' = heap s ++ [a]
  /\ algorithmsLock s' = None
  /\ aborted s' = false.
Proof.
  intros Hab Hth Hn Hp Hl Ha. unfold alone. cbn [replicate].
  rewrite (run_cons _ _ _ _ (step_AtEntry _ _ _ Hab Hth Hn)).
  pose proof (thread_at_stage tid AtCheck _ _ Hth) as Hth1. cbn [algorithm] in Hth1.
  rewrite (run_cons _ _ _ _ (step_AtCheck _ (at_stage tid AtCheck s) _ Hab Hth1)).
  cbn [algorithms at_stage]. rewrite Hp.
  pose proof (thread_at_stage tid AtConstruct _ _ Hth1) as Hth2. cbn [algorithm] in Hth2.
  rewrite (run_cons _ _ _ _ (step_AtConstruct _ (at_stage tid AtConstruct
                                                   (at_stage tid AtCheck s))
                               _ a Hab Hth2 Ha)).
  set (s3 := at_stage tid (AtLock _) _).
  assert (threads s3 !! tid = Some (mkThread n (AtLock (S (length (heap s)))))) as Hth3.
  { subst s3. cbn. cbn in Hth2. by rewrite list_lookup_alter_eq, Hth2. }
  rewrite (run_cons _ _ _ _ (step_AtLock _ s3 _ _ Hab Hth3 Hl)).
  set (s4 := at_stage tid (AtRecheck _) _).
  assert (threads s4 !! tid = Some (mkThread n (AtRecheck (S (length (heap s)))))) as Hth4.
  { subst s4. cbn. cbn in Hth3. by rewrite list_lookup_alter_eq, Hth3. }
  rewrite (run_cons _ _ _ _ (step_AtRecheck _ s4 _ _ Hab Hth4 Hp)).
  set (s5 := at_stage tid AtUnlock _).
  assert (threads s5 !! tid = Some (mkThread n AtUnlock)) as Hth5.
  { subst s5. cbn. cbn in Hth4. by rewrite list_lookup_alter_eq, Hth4. }
  rewrite (run_cons _ _ _ _ (step_AtUnlock _ s5 _ Hab Hth5)).
  set (s6 := at_stage tid AtReturn _).
  assert (threads s6 !! tid = Some (mkThread n AtReturn)) as Hth6.
  { subst s6. cbn. cbn in Hth5. by rewrite list_lookup_alter_eq, Hth5. }
  rewrite (run_cons _ _ _ _ (step_AtReturn _ s6 _ Hab Hth6)).
  assert (algorithms s6 = <[n := S (length (heap s))]> (algorithms s)) as Hreg by done.
  rewrite Hreg, lookup_insert_eq. cbn [run].
  split; [by eapply returned_at_stage|]. done.
Qed.

(** X5.  A call that finds its name registered returns the registered
    instance after three statements; it constructs nothing, leaves the
    registry as it is and does not touch the mutex, so it returns even
    while another thread holds the mutex. *)
Theorem getAlgorithm_registered s tid n p :
  aborted s = false ->
  threads s !! tid = Some (mkThread n AtEntry) ->
  n <> "" ->
  algorithms s !! n = Some p ->
  let s' := alone construct tid 3 s in
  returned tid s' = Some p
  /\ algorithms s' = algorithms s
  /\ heap s' = heap s
  /\ algorithmsLock s' = algorithmsLock s.
Proof.
  intros Hab Hth Hn Hp s'.
  destruct (alone_registered s tid n p Hab Hth Hn Hp) as (H1 & H2 & H3 & H4 & _).
  done.
Qed.

(** X6.  A call that finds its name missing, on its own and with the
    mutex free, constructs exactly one instance, registers it under the
    name, returns its address and leaves the mutex free. *)
Theorem getAlgorithm_fresh s tid n a :
  aborted s = false ->
  threads s !! tid = Some (mkThread n AtEntry) ->
  n <> "" ->
  algorithms s !! n = None ->
  algorithmsLock s = None ->
  construct n = Some a ->
  let s' := alone construct tid 7 s in
  let p := S (length (heap s)) in
  returned tid s' = Some p
  /\ algorithms s' = <[n := p]> (algorithms s)
  /\ heap s' = heap s ++ [a]
  /\ heap s' !! pred p = Some a
  /\ algorithmsLock s' = None.
Proof.
  intros Hab Hth Hn Hp Hl Ha s' p.
  destruct (alone_fresh s tid n a Hab Hth Hn Hp Hl Ha) as (H1 & H2 & H3 & H4 & _).
  split; [done|]. split; [done|]. split; [done|]. split; [|done].
  fold s' in H3. rewrite H3. subst p. cbn [pred].
  by rewrite lookup_app_r, Nat.sub_diag.
Qed.

(** X7.  A call with an empty name, or with a name that is not registered
    and whose constructor ends in [qFatal], ends the process: nothing is
    registered, nothing is allocated and the call does not return. *)
Theorem getAlgorithm_fatal s tid n k :
  aborted s = false ->
  threads s !! tid = Some (mkThread n AtEntry) ->
  n = "" \/ (algorithms s !! n = None /\ construct n = None) ->
  let s' := alone construct tid (3 + k) s in
  aborted s' = true
  /\ returned tid s' = None
  /\ algorithms s' = algorithms s
  /\ heap s' = heap s.
Proof.
  intros Hab Hth Hbad. unfold alone. cbn [replicate Nat.add].
  destruct (decide (n = "")) as [->|Hn].
  - assert (step construct tid s = Some (abort s)) as Hstep.
    { unfold step. rewrite Hab, Hth. cbn. by case_bool_decide. }
    rewrite (run_cons _ _ _ _ Hstep), run_aborted by done.
    unfold returned. cbn. by rewrite Hth.
  - destruct Hbad as [?|[Hp Hc]]; [done|].
    rewrite (run_cons _ _ _ _ (step_AtEntry _ _ _ Hab Hth Hn)).
    pose proof (thread_at_stage tid AtCheck _ _ Hth) as Hth1. cbn [algorithm] in Hth1.
    rewrite (run_cons _ _ _ _ (step_AtCheck _ (at_stage tid AtCheck s) _ Hab Hth1)).
    cbn [algorithms at_stage]. rewrite Hp.
    pose proof (thread_at_stage tid AtConstruct _ _ Hth1) as Hth2. cbn [algorithm] in Hth2.
    assert (step construct tid (at_stage tid AtConstruct (at_stage tid AtCheck s))
            = Some (abort (at_stage tid AtConstruct (at_stage tid AtCheck s)))) as Hstep.
    { unfold step. rewrite Hth2. cbn [aborted at_stage]. rewrite Hab. cbn. by rewrite Hc. }
    rewrite (run_cons _ _ _ _ Hstep), run_aborted by done.
    unfold returned. cbn [threads abort]. by rewrite Hth2.
Qed.

(** X8.  After [finalize], a call for a name that was registered before
    constructs a new instance and registers it: the caller is given an
    address that differs from the one registered before, so instances are
    not shared across [finalize]. *)
Theorem getAlgorithm_after_finalize lookups schedule tid n a p_old :
  let s := run construct schedule (start lookups) in
  aborted s = false ->
  algorithmsLock s = None ->
  threads s !! tid = Some (mkThread n AtEntry) ->
  n <> "" ->
  construct n = Some a ->
  algorithms s !! n = Some p_old ->
  let s' := alone construct tid 7 (finalize s) in
  exists p, returned tid s' = Some p
            /\ p <> p_old
            /\ algorithms s' = {[ n := p ]}
            /\ heap s' !! pred p = Some a.
Proof.
  intros s Hab Hl Hth Hn Ha Hold s'.
  destruct (Registry.run_invariant construct schedule (start lookups)
              (Registry.start_invariant lookups)) as [[_ Hreg] _].
  fold s in Hreg. specialize (Hreg _ _ Hold).
  destruct (alone_fresh (finalize s) tid n a) as (H1 & H2 & H3 & H4 & _); try done.
  fold s' in H1, H2, H3. cbn [finalize heap set_algorithms algorithms] in *.
  exists (S (length (heap s))). split; [done|]. split; [lia|].
  split; [by rewrite H2, insert_empty|]. rewrite H3.
  cbn [pred]. by rewrite lookup_app_r, Nat.sub_diag.
Qed.

(** X9.  [finalize] between a call's check (line 345) and its [return]
    (line 355) makes that call return a null pointer, and the null pointer
    stays registered: a later call for the name returns null as well and
    constructs nothing. *)
Theorem finalize_before_return s tid tid2 n :
  aborted s = false ->
  threads s !! tid = Some (mkThread n AtReturn) ->
  threads s !! tid2 = Some (mkThread n AtEntry) ->
  n <> "" ->
  let s1 := alone construct tid 1 (finalize s) in
  let s2 := alone construct tid2 3 s1 in
  returned tid s1 = Some null
  /\ algorithms s1 = {[ n := null ]}
  /\ returned tid2 s2 = Some null
  /\ algorithms s2 = {[ n := null ]}
  /\ heap s2 = heap s.
Proof.
  intros Hab Hth Hth2 Hn s1 s2.
  assert (tid <> tid2) as Hne by (intros ->; congruence).
  assert (s1 = at_stage tid (Returned null)
                 (set_algorithms (<[n := null]> ∅) (finalize s))) as Hs1.
  { unfold s1, alone. cbn [replicate].
    rewrite (run_cons _ _ _ _ (step_AtReturn _ (finalize s) _ Hab Hth)). done. }
  assert (threads s1 !! tid2 = Some (mkThread n AtEntry)) as Hth2'.
  { rewrite Hs1. cbn. by rewrite list_lookup_alter_ne. }
  assert (algorithms s1 = {[ n := null ]}) as Hreg.
  { rewrite Hs1. cbn. by rewrite insert_empty. }
  assert (aborted s1 = false) as Hab1 by (by rewrite Hs1).
  destruct (alone_registered s1 tid2 n null Hab1 Hth2' Hn) as (H1 & H2 & H3 & _).
  { rewrite Hreg. by rewrite lookup_singleton_eq. }
  fold s2 in H1, H2, H3.
  split; [rewrite Hs1; by eapply returned_at_stage|].
  split; [done|]. split; [done|]. split; [congruence|].
  rewrite H3, Hs1. done.
Qed.

End MoreFacts.
End RegistryMore.

(** ** Enrollment, retrieval and comparison: what they leave alone *)

Lemma same_settings_refl w : same_settings w w.
Proof. by repeat split. Qed.

Lemma same_settings_trans w1 w2 w3 :
  same_settings w1 w2 -> same_settings w2 w3 -> same_settings w1 w3.
Proof. unfold same_settings. intuition congruence. Qed.

Lemma same_setting_settings w w' : same_setting w w' -> same_settings w w'.
Proof. unfold same_setting, same_settings. tauto. Qed.

Lemma steps_only_settings w w' : steps_only w w' -> same_settings w w'.
Proof. intros (c & t & ->). by repeat split. Qed.

Lemma steps_only_galleries w w' : steps_only w w' -> galleries w' = galleries w.
Proof. by intros (c & t & ->). Qed.

Lemma only_galleries_refl ks w : only_galleries ks w w.
Proof. by intros k _. Qed.

Lemma only_galleries_trans ks w1 w2 w3 :
  only_galleries ks w1 w2 -> only_galleries ks w2 w3 -> only_galleries ks w1 w3.
Proof. intros H12 H23 k Hk. by rewrite H23, H12. Qed.

Lemma only_galleries_mono ks ks' w w' :
  ks ⊆ ks' -> only_galleries ks w w' -> only_galleries ks' w w'.
Proof. intros Hsub Hw k Hk. apply Hw. intros Hin. by apply Hk, Hsub. Qed.

Lemma append_only_refl w : append_only w w.
Proof. intros k. exists []. by rewrite app_nil_r. Qed.

Lemma append_only_trans w1 w2 w3 :
  append_only w1 w2 -> append_only w2 w3 -> append_only w1 w3.
Proof.
  intros H12 H23 k. destruct (H12 k) as [n1 E1]. destruct (H23 k) as [n2 E2].
  exists (n1 ++ n2). by rewrite E2, E1, app_assoc.
Qed.

(** Appending to one gallery. *)
Lemma append_only_one (g : Gallery) w w' new :
  gallery_contents w' g = gallery_contents w g ++ new ->
  only_galleries [key g] w w' ->
  append_only w w'.
Proof.
  intros Hg Hrest k. destruct (decide (k = key g)) as [->|Hne].
  - by exists new.
  - exists []. rewrite Hrest, app_nil_r; [done|]. by intros ->%list_elem_of_singleton.
Qed.

Lemma only_one (g : Gallery) w w' :
  (forall k, k <> key g -> galleries w' !! k = galleries w !! k) ->
  only_galleries [key g] w w'.
Proof. intros Hw k Hk. apply Hw. intros ->. apply Hk. by apply list_elem_of_singleton. Qed.

Section CoreMore.
Context {T D Score : Type} `{!Transform T} `{!Distance D Score} `{!Platform}.

Implicit Types (a : AlgorithmCore (T := T) (D := D)) (w : World) (g : Gallery).

(** One execution of the [do] body of [enroll]. *)
Lemma enrollPass_effects a input gallery g w w' e :
  enrollPass a input gallery g w = Ok (w', e) ->
  same_settings w w'
  /\ only_galleries [key g] w w'
  /\ (exists new, gallery_contents w' g = gallery_contents w g ++ new)
  /\ exists old, Gallery_files w' g = old ++ passList e
       /\ (contains gallery "read" || contains gallery "cache" = true -> old = []).
Proof.
  intros Hpass.
  destruct (cacheHit gallery w g) eqn:Hhit.
  { rewrite enrollPass_hit in Hpass by done. injection Hpass as <- <-.
    split; [apply same_settings_refl|]. split; [apply only_galleries_refl|].
    split; [exists []; by rewrite app_nil_r|].
    exists []. split; [|done]. cbn [passList app].
    unfold cacheHit in Hhit. apply andb_true_iff in Hhit as [_ Hc].
    by rewrite existing_cache. }
  destruct (decide (fromGallery (reads w) input = [])) as [Hempty|Hsome].
  { rewrite enrollPass_empty in Hpass by done. injection Hpass as <- <-.
    split; [by repeat split|]. split; [by intros k _|].
    split; [exists []; by rewrite app_nil_r|]. cbn [passList].
    unfold existing. destruct (contains gallery "read" || contains gallery "cache").
    - exists []. by split.
    - exists (Gallery_files (next_read w) g). split; [by rewrite app_nil_r|done]. }
  destruct (transform a) as [tr|] eqn:Htr.
  2: { by rewrite enrollPass_null in Hpass. }
  destruct (enrollPass_completed a input gallery g w tr Hhit Hsome Htr)
    as (cs & w1 & Hrun & Hcont & _ & _ & Hset & Hrest & _).
  rewrite Hrun in Hpass. injection Hpass as <- <-.
  split; [by apply same_setting_settings|]. split; [by apply only_one|].
  split; [by eexists|]. cbn [passList]. unfold Gallery_files. rewrite Hcont.
  unfold files at 1. rewrite map_app. fold (files (gallery_contents w g)).
  unfold existing. destruct (contains gallery "read" || contains gallery "cache").
  - exists []. by split.
  - eexists. split; [reflexivity|done].
Qed.

Lemma enrollLoop_effects fuel a input gallery g w w' fl :
  enrollLoop fuel a input gallery g w = Some (Ok (w', fl)) ->
  same_settings w w'
  /\ only_galleries [key g] w w'
  /\ (exists new, gallery_contents w' g = gallery_contents w g ++ new)
  /\ exists old, Gallery_files w' g = old ++ fl
       /\ (contains gallery "read" || contains gallery "cache" = true -> old = []).
Proof.
  revert w. induction fuel as [|fuel IH]; intros w; [done|]. cbn [enrollLoop].
  destruct (enrollPass a input gallery g w) as [[w1 e]|m] eqn:Hpass; [|done].
  pose proof (enrollPass_effects _ _ _ _ _ _ _ Hpass) as (Hs & Ho & Hn & Hl).
  destruct e as [fl1|fl1].
  - intros [= <- <-]. done.
  - destruct (getBool input "infinite" false).
    + intros (Hs' & Ho' & [n2 Hn'] & Hl')%IH. destruct Hn as [n1 Hn].
      split; [by eapply same_settings_trans|].
      split; [by eapply only_galleries_trans|].
      split; [|done]. exists (n1 ++ n2). by rewrite Hn', Hn, app_assoc.
    + intros [= <- <-]. done.
Qed.

Lemma Gallery_make_Some (f : File) g :
  Gallery_make f = Some g -> g = mkGallery (name f) 0.
Proof. unfold Gallery_make. destruct (galleryPlugin f); by intros [= <-]. Qed.

Lemma enroll_effects fuel a input gallery w w' fl :
  enroll fuel a input gallery w = Some (Ok (w', fl)) ->
  let g := mkGallery (name (targetGallery a input gallery)) 0 in
  same_settings w w'
  /\ only_galleries [key g] w w'
  /\ (exists new, gallery_contents w' g = gallery_contents w g ++ new)
  /\ (~ (name gallery = "" /\ name input = "") ->
      exists old, Gallery_files w' g = old ++ fl
        /\ (contains (targetGallery a input gallery) "read"
            || contains (targetGallery a input gallery) "cache" = true -> old = [])).
Proof.
  intros Hrun g. unfold enroll in Hrun.
  destruct (bool_decide (name gallery = "") && bool_decide (name input = "")) eqn:Hboth.
  { injection Hrun as <- <-.
    split; [apply same_settings_refl|]. split; [apply only_galleries_refl|].
    split; [exists []; by rewrite app_nil_r|].
    intros Hno. apply andb_true_iff in Hboth as [H1%bool_decide_eq_true H2%bool_decide_eq_true].
    by destruct Hno. }
  fold (targetGallery a input gallery) in Hrun.
  destruct (Gallery_make (targetGallery a input gallery)) as [g'|] eqn:Hg; [|done].
  apply Gallery_make_Some in Hg. fold g in Hg. subst g'.
  destruct (enrollLoop_effects _ _ _ _ _ _ _ _ Hrun) as (Hs & Ho & Hn & Hl).
  done.
Qed.

(** X10.  Enrollment only appends: a call of [enroll] that returns has
    added records behind those the target gallery held, has changed no
    other gallery, and has left block size, parallelism, abbreviations and
    SDK path as they were.  The target is the named gallery, or the
    algorithm's memory gallery for the input when no gallery is named. *)
Theorem enroll_appends fuel a input gallery w w' fl :
  enroll fuel a input gallery w = Some (Ok (w', fl)) ->
  let g := mkGallery (name (targetGallery a input gallery)) 0 in
  same_settings w w'
  /\ only_galleries [key g] w w'
  /\ append_only w w'
  /\ exists new, gallery_contents w' g = gallery_contents w g ++ new.
Proof.
  intros Hrun g.
  destruct (enroll_effects _ _ _ _ _ _ _ Hrun) as (Hs & Ho & [new Hn] & _).
  fold g in Ho, Hn. split; [done|]. split; [done|]. split; [|by exists new].
  by eapply append_only_one.
Qed.

(** X11.  What [enroll] returns: the file list it returns is the tail of
    the target gallery's record list as the call leaves it, and with the
    "read" or the "cache" key on the gallery it is the whole record list,
    also for an input with the "infinite" marker. *)
Theorem enroll_returns_records fuel a input gallery w w' fl :
  ~ (name gallery = "" /\ name input = "") ->
  enroll fuel a input gallery w = Some (Ok (w', fl)) ->
  let target := targetGallery a input gallery in
  let g := mkGallery (name target) 0 in
  (exists old, Gallery_files w' g = old ++ fl)
  /\ (contains target "read" || contains target "cache" = true ->
      fl = Gallery_files w' g).
Proof.
  intros Hno Hrun target g.
  destruct (enroll_effects _ _ _ _ _ _ _ Hrun) as (_ & _ & _ & Hl).
  destruct (Hl Hno) as (old & Hfl & Hold). fold target g in Hfl, Hold.
  split; [by exists old|]. intros Hread. rewrite Hfl, (Hold Hread). done.
Qed.

Lemma enrollPass_fatal a input gallery g w m :
  enrollPass a input gallery g w = Fatal m ->
  m = "Null transform." /\ transform a = None
  /\ cacheHit gallery w g = false /\ fromGallery (reads w) input <> [].
Proof.
  intros Hpass.
  destruct (cacheHit gallery w g) eqn:Hhit; [by rewrite enrollPass_hit in Hpass|].
  destruct (decide (fromGallery (reads w) input = [])) as [Hempty|Hsome];
    [by rewrite enrollPass_empty in Hpass|].
  destruct (transform a) as [tr|] eqn:Htr.
  - destruct (enrollPass_completed a input gallery g w tr Hhit Hsome Htr)
      as (cs & w1 & Hrun & _). by rewrite Hrun in Hpass.
  - rewrite enrollPass_null in Hpass by done. by injection Hpass as <-.
Qed.

(** A pass that runs to the end of the body had a transform. *)
Lemma enrollPass_completed_transform a input gallery g w w' fl :
  enrollPass a input gallery g w = Ok (w', Completed fl) -> is_Some (transform a).
Proof.
  intros Hpass.
  destruct (cacheHit gallery w g) eqn:Hhit; [by rewrite enrollPass_hit in Hpass|].
  destruct (decide (fromGallery (reads w) input = [])) as [Hempty|Hsome];
    [by rewrite enrollPass_empty in Hpass|].
  destruct (transform a) as [tr|] eqn:Htr; [by eexists|].
  by rewrite enrollPass_null in Hpass.
Qed.

Lemma enrollLoop_fatal fuel a input gallery g w m :
  enrollLoop fuel a input gallery g w = Some (Fatal m) ->
  m = "Null transform." /\ transform a = None
  /\ cacheHit gallery w g = false /\ fromGallery (reads w) input <> [].
Proof.
  destruct fuel as [|fuel]; [done|]. cbn [enrollLoop].
  destruct (enrollPass a input gallery g w) as [[w1 [fl1|fl1]]|m1] eqn:Hpass.
  - done.
  - apply enrollPass_completed_transform in Hpass as [tr Htr].
    destruct (getBool input "infinite" false); [|done].
    revert w1. induction fuel as [|fuel IH]; intros w1; [done|]. cbn [enrollLoop].
    destruct (enrollPass a input gallery g w1) as [[w2 [fl2|fl2]]|m2] eqn:Hpass2.
    + done.
    + destruct (getBool input "infinite" false); [apply IH|done].
    + apply enrollPass_fatal in Hpass2 as (_ & Hnone & _). congruence.
  - intros [= <-]. by eapply enrollPass_fatal.
Qed.

Lemma enroll_fatal_message fuel a input gallery w m :
  enroll fuel a input gallery w = Some (Fatal m) ->
  m = "Null gallery!" \/ m = "Null transform.".
Proof.
  unfold enroll. destruct (_ && _); [done|].
  destruct (Gallery_make _) as [g|]; [|intros [= <-]; by left].
  intros (-> & _)%enrollLoop_fatal. by right.
Qed.

(** X22.  [enroll] calls [qFatal] in two cases and in no other: with
    "Null gallery!" when there is no plugin for the target gallery, and
    with "Null transform." when the instance has no transform and there
    are records to enroll, that is when the first execution of the loop
    body is not ended by a cache hit and reads at least one record.  With
    nothing to enroll it returns normally, transform or not: the
    gallery's record list on a cache hit, the list read from the gallery
    when the input delivers no record. *)
Theorem enroll_failures fuel a input gallery w m :
  let target := targetGallery a input gallery in
  let g := mkGallery (name target) 0 in
  let fatal :=
    (m = "Null gallery!" /\ galleryPlugin target = false)
    \/ (m = "Null transform." /\ galleryPlugin target = true
        /\ transform a = None
        /\ cacheHit target w g = false
        /\ fromGallery (reads w) input <> []) in
  (enroll fuel a input gallery w = Some (Fatal m) ->
   ~ (name gallery = "" /\ name input = "") /\ fatal)
  /\ (~ (name gallery = "" /\ name input = "") -> fatal ->
      enroll (S fuel) a input gallery w = Some (Fatal m))
  /\ (~ (name gallery = "" /\ name input = "") ->
      galleryPlugin target = true ->
      (cacheHit target w g = true ->
       enroll (S fuel) a input gallery w = Some (Ok (w, existing target w g)))
      /\ (cacheHit target w g = false ->
          fromGallery (reads w) input = [] ->
          enroll (S fuel) a input gallery w
          = Some (Ok (next_read w, existing target w g)))).
Proof.
  intros target g fatal. unfold fatal. split; [|split].
  - unfold enroll.
    destruct (bool_decide (name gallery = "") && bool_decide (name input = ""))
      eqn:Hboth; [done|].
    fold (targetGallery a input gallery). fold target. unfold Gallery_make.
    intros Hrun. split.
    { intros [H1 H2]. by rewrite !bool_decide_eq_true_2 in Hboth. }
    destruct (galleryPlugin target).
    + fold g in Hrun. apply enrollLoop_fatal in Hrun. right. tauto.
    + injection Hrun as <-. by left.
  - intros Hexplicit Hfatal. unfold enroll.
    destruct (bool_decide (name gallery = "") && bool_decide (name input = ""))
      eqn:Hboth.
    { apply andb_true_iff in Hboth as [H1%bool_decide_eq_true H2%bool_decide_eq_true].
      by destruct Hexplicit. }
    fold (targetGallery a input gallery). fold target. unfold Gallery_make.
    destruct Hfatal as [[-> Hplugin]|(-> & Hplugin & Htr & Hhit & Hsome)];
      rewrite Hplugin; [done|].
    fold g. cbn [enrollLoop]. by rewrite enrollPass_null.
  - intros Hexplicit Hplugin.
    assert (Gallery_make (targetGallery a input gallery) = Some g) as Hg.
    { fold target. unfold Gallery_make. by rewrite Hplugin. }
    rewrite (enroll_unfold _ _ _ _ g) by done. fold target. cbn [enrollLoop].
    split.
    + intros Hhit. by rewrite enrollPass_hit.
    + intros Hhit Hnone. by rewrite enrollPass_empty.
Qed.

(** *** retrieveOrEnroll *)

Lemma retrieveOrEnroll_effects fuel a f w w' g fl :
  retrieveOrEnroll fuel a f w = Some (Ok (w', g, fl)) ->
  same_settings w w'
  /\ only_galleries [name (getMemoryGallery a f)] w w'
  /\ append_only w w'
  /\ (storedGallery f = true -> w' = w)
  /\ fl = Gallery_files w' g.
Proof.
  unfold retrieveOrEnroll. fold (storedGallery f).
  destruct (storedGallery f).
  - destruct (Gallery_make f) as [g'|]; [|done]. intros [= <- <- <-].
    split; [apply same_settings_refl|]. split; [apply only_galleries_refl|].
    split; [apply append_only_refl|]. done.
  - destruct (Gallery_make (getMemoryGallery a f)) as [g'|] eqn:Hg; [|done].
    destruct (negb _).
    + intros [= <- <- <-].
      split; [apply same_settings_refl|]. split; [apply only_galleries_refl|].
      split; [apply append_only_refl|]. done.
    + destruct (enroll fuel a f File_null w) as [[[w1 fl1]|m]|] eqn:Hrun; [|done|done].
      intros [= <- <- <-].
      destruct (enroll_effects _ _ _ _ _ _ _ Hrun) as (Hs & Ho & [new Hn] & _).
      change (targetGallery a f File_null) with (getMemoryGallery a f) in Ho, Hn.
      split; [done|]. split; [done|]. split; [by eapply append_only_one|]. done.
Qed.

(** X12.  [retrieveOrEnroll] enrolls an input at most once: after a call
    that returned a non-empty record list, another call for the same file
    returns the same gallery and the same list and changes nothing,
    whatever its fuel. *)
Theorem retrieveOrEnroll_once fuel fuel' a f w w1 g fl :
  retrieveOrEnroll fuel a f w = Some (Ok (w1, g, fl)) ->
  fl <> [] ->
  retrieveOrEnroll fuel' a f w1 = Some (Ok (w1, g, fl)).
Proof.
  unfold retrieveOrEnroll. destruct (_ && _).
  - destruct (Gallery_make f) as [g'|]; [|done]. by intros [= <- <- <-].
  - destruct (Gallery_make (getMemoryGallery a f)) as [g'|] eqn:Hg; [|done].
    destruct (isEmpty (Gallery_files w g')) eqn:Hold; cbn [negb].
    + destruct (enroll fuel a f File_null w) as [[[w2 fl2]|m]|]; [|done|done].
      intros [= <- <- <-] Hfl.
      destruct (isEmpty (Gallery_files w2 g')) eqn:Hnew; cbn [negb]; [|done].
      by apply isEmpty_nil in Hnew.
    + intros [= <- <- <-] _. by rewrite Hold.
Qed.

(** *** compare *)

Lemma compareLists_file d (target query : TemplateList) (o : Output (Score := Score)) :
  output_file (compareLists d target query o) = output_file o.
Proof. by rewrite compareLists_scores. Qed.

Lemma insert_same_file (outputs : list (Output (Score := Score))) i o o' :
  outputs !! i = Some o -> output_file o' = output_file o ->
  map output_file (<[i := o']> outputs) = map output_file outputs.
Proof.
  intros Ho Hf. change (output_file <$> <[i:=o']> outputs = output_file <$> outputs).
  rewrite list_fmap_insert. apply list_insert_id. by rewrite list_lookup_fmap, Ho, Hf.
Qed.

Lemma targetLoop_effects fuel d sizes i queries queries_i qb tb t outputs w w' t' outputs' :
  targetLoop fuel d sizes i queries queries_i qb tb t outputs w
  = Some (Ok (w', t', outputs')) ->
  steps_only w w' /\ map output_file outputs' = map output_file outputs.
Proof.
  revert tb t outputs w. induction fuel as [|fuel IH]; intros tb t outputs w; [done|].
  cbn [targetLoop]. destruct (readBlock w t) as [[targets targetDone] t1].
  destruct (outputs !! i) as [o|] eqn:Ho; [|done].
  set (targetPartitions := if negb (isEmpty sizes) then _ else _).
  destruct (targetPartitions !! i) as [targets_i|]; [|by destruct targetDone].
  assert (steps_only w (add_steps (Z.of_nat (length targets) * Z.of_nat (length queries)) w))
    as Hstep by (eexists _, _; reflexivity).
  destruct targetDone.
  - intros [= <- <- <-]. split; [done|].
    eapply insert_same_file; [done|]. by rewrite compareLists_file.
  - intros [Hs Hf]%IH. split; [exact (steps_only_trans _ _ _ Hstep Hs)|].
    rewrite Hf. eapply insert_same_file; [done|]. by rewrite compareLists_file.
Qed.

Lemma partitionLoop_effects fuel d sizes i queries todo qb t outputs w w' t' outputs' :
  partitionLoop fuel d sizes i queries todo qb t outputs w
  = Some (Ok (w', t', outputs')) ->
  steps_only w w' /\ map output_file outputs' = map output_file outputs.
Proof.
  revert i t outputs w. induction todo as [|queries_i todo IH]; intros i t outputs w.
  - intros [= <- <- <-]. split; [apply steps_only_refl|done].
  - cbn [partitionLoop].
    destruct (targetLoop _ _ _ _ _ _ _ _ _ _ _) as [[[[w1 t1] outputs1]|m]|] eqn:Ht;
      [|done|done].
    apply targetLoop_effects in Ht as [Hs1 Hf1].
    intros [Hs Hf]%IH. split; [exact (steps_only_trans _ _ _ Hs1 Hs)|congruence].
Qed.

Lemma queryLoop_effects fuel d sizes qb t q outputs w w' outputs' :
  queryLoop fuel d sizes qb t q outputs w = Some (Ok (w', outputs')) ->
  steps_only w w' /\ map output_file outputs' = map output_file outputs.
Proof.
  revert qb t q outputs w. induction fuel as [|fuel IH]; intros qb t q outputs w; [done|].
  cbn [queryLoop]. destruct (readBlock w q) as [[queries queryDone] q1].
  destruct (partitionLoop _ _ _ _ _ _ _ _ _ _) as [[[[w1 t1] outputs1]|m]|] eqn:Hp;
    [|done|done].
  apply partitionLoop_effects in Hp as [Hs1 Hf1].
  destruct queryDone.
  - by intros [= <- <-].
  - intros [Hs Hf]%IH. split; [exact (steps_only_trans _ _ _ Hs1 Hs)|congruence].
Qed.

(** X13.  What a comparison leaves alone: [compare] changes no setting
    and no gallery other than the memory galleries of its two inputs,
    which it only extends; when both inputs are stored galleries no
    gallery changes at all.  Unless it stops at once on a cached output,
    the sinks it returns are those of the output files, in their order. *)
Theorem compare_effects fuel a targetGallery queryGallery output w w' outputs :
  compare fuel a targetGallery queryGallery output w = Some (Ok (w', outputs)) ->
  let query := if File_eqb queryGallery "." then targetGallery else queryGallery in
  same_settings w w'
  /\ only_galleries [name (getMemoryGallery a targetGallery);
                     name (getMemoryGallery a query)] w w'
  /\ append_only w w'
  /\ (storedGallery targetGallery = true -> storedGallery query = true ->
      galleries w' = galleries w)
  /\ (exists_ w (name output) && get_bool output "cache" false = false ->
      exists sizes, outputFiles output = Ok (sizes, map output_file outputs)).
Proof.
  intros Hrun query. unfold compare in Hrun. fold query in Hrun.
  destruct (exists_ w (name output) && get_bool output "cache" false).
  { injection Hrun as <- <-.
    split; [apply same_settings_refl|]. split; [apply only_galleries_refl|].
    split; [apply append_only_refl|]. done. }
  destruct (retrieveOrEnroll fuel a targetGallery w) as [[[[w1 t] targetFiles]|m]|] eqn:Ht;
    [|done|done].
  destruct (retrieveOrEnroll fuel a query w1) as [[[[w2 q] queryFiles]|m]|] eqn:Hq;
    [|done|done].
  destruct (outputFiles output) as [[sizes ofiles]|m] eqn:Hout; [|done].
  destruct (distance a) as [d|]; [|done].
  destruct (queryLoop _ _ _ _ _ _ _ _) as [[[w3 outputs3]|m]|] eqn:Hloop; [|done|done].
  injection Hrun as <- <-.
  apply queryLoop_effects in Hloop as [Hsteps Hfiles].
  destruct (retrieveOrEnroll_effects _ _ _ _ _ _ _ Ht) as (Hs1 & Ho1 & Ha1 & Hst1 & _).
  destruct (retrieveOrEnroll_effects _ _ _ _ _ _ _ Hq) as (Hs2 & Ho2 & Ha2 & Hst2 & _).
  assert (steps_only w2 (set_steps (currentStep (Globals w3)) 0 w3)) as Hfinal.
  { eapply steps_only_trans; [|eapply steps_only_trans; [exact Hsteps|]];
      eexists _, _; reflexivity. }
  pose proof (steps_only_galleries _ _ Hfinal) as Hgal.
  split.
  { eapply same_settings_trans; [exact Hs1|].
    eapply same_settings_trans; [exact Hs2|]. by apply steps_only_settings. }
  split.
  { intros k Hk. rewrite Hgal.
    rewrite Ho2, Ho1; [done| |]; intros ->%list_elem_of_singleton; apply Hk; set_solver. }
  split.
  { eapply append_only_trans; [exact Ha1|].
    eapply append_only_trans; [exact Ha2|].
    intros k. exists []. by rewrite Hgal, app_nil_r. }
  split.
  { intros H1 H2. rewrite Hgal, (Hst2 H2), (Hst1 H1). done. }
  intros _. exists sizes. rewrite Hfiles, map_map. cbn [Output_make output_file].
  by rewrite map_id.
Qed.

(** X14.  An output with the "split" key and an empty list of partition
    sizes: no sink is made, and the first block pair indexes the empty
    list of sinks, which ends the process, also when both galleries are
    empty. *)
Theorem compare_empty_split fuel a targetGallery queryGallery output w w1 w2 t q
    targetFiles queryFiles :
  exists_ w (name output) && get_bool output "cache" false = false ->
  retrieveOrEnroll (S (S fuel)) a targetGallery w = Some (Ok (w1, t, targetFiles)) ->
  retrieveOrEnroll (S (S fuel)) a
    (if File_eqb queryGallery "." then targetGallery else queryGallery) w1
  = Some (Ok (w2, q, queryFiles)) ->
  contains output "split" = true ->
  hasMarker (fileName output) "%1" = true ->
  getList output "split" = [] ->
  is_Some (distance a) ->
  compare (S (S fuel)) a targetGallery queryGallery output w = Some indexOutOfRange.
Proof.
  intros Hcache Ht Hq Hsplit Hmark Hsizes [d Hd]. unfold compare.
  rewrite Hcache, Ht, Hq, (outputFiles_split _ Hsplit Hmark), Hsizes, Hd.
  cbn [length seq map queryLoop].
  destruct (readBlock _ q) as [[queries queryDone] q1].
  cbn [isEmpty negb partitionLoop targetLoop].
  destruct (readBlock _ t) as [[targets targetDone] t1]. done.
Qed.

Lemma retrieveOrEnroll_fatal fuel a f w m :
  retrieveOrEnroll fuel a f w = Some (Fatal m) ->
  m = "null pointer dereference" \/ m = "Null gallery!" \/ m = "Null transform.".
Proof.
  unfold retrieveOrEnroll, nullDereference. destruct (_ && _).
  - destruct (Gallery_make f); [done|]. intros [= <-]. by left.
  - destruct (Gallery_make (getMemoryGallery a f)); [|intros [= <-]; by left].
    destruct (negb _); [done|].
    destruct (enroll fuel a f File_null w) as [[[w1 fl1]|m1]|] eqn:Hrun.
    + done.
    + intros [= <-]. right. by eapply enroll_fatal_message.
    + done.
Qed.

(** X23.  Comparison needs a distance: [compare] on a classifier never
    returns normally unless it stops at once on a cached output.  It calls
    [qFatal] with "Null distance." exactly when both inputs have been
    retrieved or enrolled and the output files have been named, so only
    after that work is done: when retrieving or enrolling the target ends
    the process or does not return, so does the comparison, with the same
    message. *)
Theorem compare_classifier fuel a targetGallery queryGallery output w :
  distance a = None ->
  exists_ w (name output) && get_bool output "cache" false = false ->
  let query := if File_eqb queryGallery "." then targetGallery else queryGallery in
  (forall w' outputs,
     compare fuel a targetGallery queryGallery output w <> Some (Ok (w', outputs)))
  /\ (compare fuel a targetGallery queryGallery output w = Some (Fatal "Null distance.")
      <-> exists w1 w2 t q targetFiles queryFiles sizes ofiles,
            retrieveOrEnroll fuel a targetGallery w = Some (Ok (w1, t, targetFiles))
            /\ retrieveOrEnroll fuel a query w1 = Some (Ok (w2, q, queryFiles))
            /\ outputFiles output = Ok (sizes, ofiles))
  /\ (forall m, retrieveOrEnroll fuel a targetGallery w = Some (Fatal m) ->
                compare fuel a targetGallery queryGallery output w = Some (Fatal m))
  /\ (retrieveOrEnroll fuel a targetGallery w = None ->
      compare fuel a targetGallery queryGallery output w = None).
Proof.
  intros Hd Hcache query. unfold compare. fold query. rewrite Hcache, Hd.
  split; [|split; [|split]].
  - intros w' outputs. repeat case_match; done.
  - split.
    + destruct (retrieveOrEnroll fuel a targetGallery w)
        as [[[[w1 t] targetFiles]|m1]|] eqn:Ht; [| |done].
      * destruct (retrieveOrEnroll fuel a query w1)
          as [[[[w2 q] queryFiles]|m2]|] eqn:Hq; [| |done].
        -- destruct (outputFiles output) as [[sizes ofiles]|m3] eqn:Hout.
           ++ intros _. by exists w1, w2, t, q, targetFiles, queryFiles, sizes, ofiles.
           ++ unfold outputFiles in Hout. repeat case_match; try done.
              injection Hout as <-. done.
        -- intros [= ->]. by apply retrieveOrEnroll_fatal in Hq as [?|[?|?]].
      * intros [= ->]. by apply retrieveOrEnroll_fatal in Ht as [?|[?|?]].
    + intros (w1 & w2 & t & q & targetFiles & queryFiles & sizes & ofiles
              & -> & -> & ->). done.
  - by intros m ->.
  - by intros ->.
Qed.

End CoreMore.

(** ** Models: load, init, train *)

Lemma append_nonempty (s1 s2 : string) : s1 <> "" -> s1 +:+ s2 <> "".
Proof. by destruct s1. Qed.

Lemma getFileName_exists w description :
  getFileName w description <> "" -> exists_ w (getFileName w description) = true.
Proof. unfold getFileName. by destruct (exists_ w _) eqn:E. Qed.

Section Models.
Context {T D Score : Type} `{!Transform T} `{!Distance D Score} `{!Platform}.

Implicit Types (a : AlgorithmCore (T := T) (D := D)) (w : World).

(** X15.  Which components a loaded instance has is decided by its stored
    name, not by the stored flag: after a [load] that returns, the
    instance has a transform, and it has a distance exactly when the
    description that the stored name stands for gives one.  The flag only
    decides whether a distance blob is read. *)
Theorem load_distance_by_name fuel w a_in model loaded :
  load fuel w a_in model = Some (Ok loaded) ->
  exists compressed data stored rest shell,
    disk w !! model = Some compressed
    /\ qUncompress compressed = Some data
    /\ getString data = Some (stored, rest)
    /\ init fuel w (mkCore (transform a_in) (distance a_in) stored) (resolved w stored)
       = Some (Ok shell)
    /\ core_name loaded = core_name shell
    /\ is_Some (transform loaded)
    /\ (is_Some (distance loaded) <-> is_Some (distance shell)).
Proof.
  unfold load, load_with.
  destruct (disk w !! model) as [compressed|] eqn:Hdisk; [|done].
  destruct (qUncompress compressed) as [data|] eqn:Hzip; [|done].
  destruct (getString data) as [[stored rest]|] eqn:Hstr; [|done].
  fold (resolved w stored).
  destruct (init fuel w _ (resolved w stored)) as [[shell|m]|] eqn:Hinit; [|done|done].
  destruct (transform shell) as [sh|]; [|done].
  destruct (Transform_load sh rest) as [[tr rest1]|]; [|done].
  destruct (getBool_stream rest1) as [[hasDistance rest2]|]; [|done].
  intros Hload. exists compressed, data, stored, rest, shell.
  do 4 (split; [done|]).
  destruct hasDistance.
  - destruct (distance shell) as [shd|] eqn:Hd; [|done].
    destruct (Distance_load shd rest2) as [[d rest3]|]; [|done].
    injection Hload as <-. cbn. by repeat split; eauto.
  - injection Hload as <-. cbn. by repeat split; eauto.
Qed.

Lemma described_name a description r :
  described a description = Ok r ->
  core_name r = core_name a /\ is_Some (transform r).
Proof.
  unfold described. repeat case_match; try done; intros [= <-]; cbn; eauto.
Qed.

(** X16.  An instance constructed from an abbreviation is built from the
    expansion alone, as a description of its own, and keeps the
    abbreviation as its name. *)
Theorem AlgorithmCore_new_abbreviation fuel w abbreviation expansion :
  let description := toFile abbreviation in
  getFileName w (name description) = "" ->
  exists_ w (name description) = false ->
  abbreviations (Globals w) !! name description = Some expansion ->
  getFileName w (name (toFile expansion)) = "" ->
  exists_ w (name (toFile expansion)) = false ->
  abbreviations (Globals w) !! name (toFile expansion) = None ->
  AlgorithmCore_new (S (S fuel)) w abbreviation
  = Some (described (mkCore None None abbreviation) (toFile expansion))
  /\ forall a, AlgorithmCore_new (S (S fuel)) w abbreviation = Some (Ok a) ->
               core_name a = abbreviation /\ is_Some (transform a).
Proof.
  intros description Hfile Hexists Habbr Hfile' Hexists' Hplain.
  assert (AlgorithmCore_new (S (S fuel)) w abbreviation
          = Some (described (mkCore None None abbreviation) (toFile expansion))) as Hnew.
  { unfold AlgorithmCore_new. fold description.
    change (init (S (S fuel)) w ?a description)
      with (let file := getFileName w (name description) in
            if negb (bool_decide (file = ""))
            then init (S fuel) w a (toFile file)
            else if exists_ w (name description)
                 then load_with (init (S fuel) w) w a (name description)
                 else match abbreviations (Globals w) !! name description with
                      | Some expansion => init (S fuel) w a (toFile expansion)
                      | None => Some (parseDescription a description)
                      end).
    cbv zeta. rewrite Hfile, Hexists, Habbr.
    rewrite bool_decide_eq_true_2 by done. cbn [negb].
    by apply init_parse. }
  split; [exact Hnew|]. intros a. rewrite Hnew. intros [= Ha].
  by apply described_name in Ha.
Qed.

Section Codecs.
Variables (kinT : T -> T -> Prop) (kinD : D -> D -> Prop).
Hypothesis getString_putString :
  forall s rest, getString (putString s ++ rest) = Some (s, rest).
Hypothesis getBool_putBool :
  forall b rest, getBool_stream (putBool b ++ rest) = Some (b, rest).
Hypothesis qUncompress_qCompress :
  forall data, qUncompress (qCompress data) = Some data.
Hypothesis Transform_load_store :
  forall sh tr rest, kinT sh tr ->
    Transform_load sh (Transform_store tr ++ rest) = Some (tr, rest).
Hypothesis Distance_load_store :
  forall sh d rest, kinD sh d ->
    Distance_load sh (Distance_store d ++ rest) = Some (d, rest).

(** Loading what [store] wrote, for any way of calling back into [init]. *)
Lemma load_with_stored init' a a_in model w w' shell :
  store a model w = Ok w' ->
  init' (mkCore (transform a_in) (distance a_in) (core_name a))
        (resolved w' (core_name a)) = Some (Ok shell) ->
  core_name shell = core_name a ->
  sameKinds kinT kinD shell a ->
  load_with init' w' a_in model = Some (Ok a).
Proof.
  intros Hstore Hinit Hname [HkT HkD]. unfold store in Hstore.
  destruct a as [[tr|] da na]; cbn [transform distance core_name] in *;
    [|by destruct (transform shell)].
  injection Hstore as <-. unfold load_with. cbn [disk set_disk].
  rewrite lookup_insert_eq, qUncompress_qCompress, getString_putString.
  unfold resolved in Hinit. cbn [Globals set_disk] in *. rewrite Hinit.
  destruct shell as [[sh|] ds ns]; cbn [transform distance core_name] in *; [|done].
  subst ns. rewrite (Transform_load_store sh tr _ HkT), getBool_putBool.
  destruct da as [d|], ds as [shd|]; try done; cbn [isClassifier distance negb].
  by rewrite <- (app_nil_r (Distance_store d)), (Distance_load_store shd d [] HkD).
Qed.

(** X17.  A pre-built model: when the models directory of the SDK holds
    a stored instance under the description asked for, the constructor
    loads it, components and stored name, provided the stored name stands
    for a description that builds components of the same kinds. *)
Theorem AlgorithmCore_new_prebuilt fuel a w0 w descriptor model shell :
  store a model w0 = Ok w ->
  model <> "" ->
  getFileName w (name (toFile descriptor)) = model ->
  name (toFile model) = model ->
  getFileName w model = "" ->
  init fuel w (mkCore None None (core_name a)) (resolved w (core_name a))
  = Some (Ok shell) ->
  core_name shell = core_name a ->
  sameKinds kinT kinD shell a ->
  AlgorithmCore_new (S (S fuel)) w descriptor = Some (Ok a).
Proof.
  intros Hstore Hmodel Hfile Hpath Hnone Hinit Hname Hkinds.
  assert (exists_ w model = true) as Hexists.
  { rewrite <- Hfile. apply getFileName_exists. by rewrite Hfile. }
  unfold AlgorithmCore_new.
  change (init (S (S fuel)) w ?a0 ?description)
    with (let file := getFileName w (name description) in
          if negb (bool_decide (file = ""))
          then init (S fuel) w a0 (toFile file)
          else if exists_ w (name description)
               then load_with (init (S fuel) w) w a0 (name description)
               else match abbreviations (Globals w) !! name description with
                    | Some expansion => init (S fuel) w a0 (toFile expansion)
                    | None => Some (parseDescription a0 description)
                    end).
  cbv zeta. rewrite Hfile, bool_decide_eq_false_2 by done. cbn [negb].
  change (init (S fuel) w ?a0 ?description)
    with (let file := getFileName w (name description) in
          if negb (bool_decide (file = ""))
          then init fuel w a0 (toFile file)
          else if exists_ w (name description)
               then load_with (init fuel w) w a0 (name description)
               else match abbreviations (Globals w) !! name description with
                    | Some expansion => init fuel w a0 (toFile expansion)
                    | None => Some (parseDescription a0 description)
                    end).
  cbv zeta. rewrite Hpath, Hnone, bool_decide_eq_true_2 by done. cbn [negb].
  rewrite Hexists. by eapply load_with_stored.
Qed.

Context `{!Training T D}.

(** X18.  What training leaves alone: [train] reads the input once,
    changes no gallery and no setting, keeps the instance's name and
    whether it is a classifier, and writes the model file and no other
    file, or no file at all when the model path is empty.  It projects
    nothing for a classifier and otherwise one batch, the records of the
    input, each with the "Train" marker set. *)
Theorem train_effects a input model w w' a' :
  train a input model w = Ok (w', a') ->
  core_name a' = core_name a
  /\ isClassifier a' = isClassifier a
  /\ is_Some (transform a')
  /\ galleries w' = galleries w
  /\ Globals w' = Globals w
  /\ reads w' = S (reads w)
  /\ (forall path, path <> model \/ model = "" -> disk w' !! path = disk w !! path)
  /\ exists data,
       projected w' = projected w ++ (if isClassifier a then [] else [data])
       /\ files data = map (File_set "Train" (VBool true))
                          (files (fromGallery (reads w) input))
       /\ forall t, t ∈ data -> m_metadata (file t) !! "Train" = Some (VBool true).
Proof.
  unfold train. destruct (transform a) as [tr|] eqn:Htr; [|done].
  set (data := markTrain (fromGallery (reads w) input)).
  assert (forall t, t ∈ data -> m_metadata (file t) !! "Train" = Some (VBool true)) as Hmark.
  { intros t (t0 & -> & _)%list_elem_of_fmap. cbn. apply lookup_insert_eq. }
  destruct (distance a) as [d|] eqn:Hd.
  - case_bool_decide as Hm.
    + intros [= <- <-]. cbn. unfold isClassifier. rewrite Hd. cbn.
      do 2 (split; [done|]). split; [eauto|]. do 4 (split; [done|]).
      exists data. split; [by rewrite ?app_nil_r|]. split; [|done].
      unfold data, markTrain, files. by rewrite !map_map.
    + unfold store. cbn [transform distance core_name].
      intros [= <- <-]. cbn. unfold isClassifier. rewrite Hd. cbn.
      do 2 (split; [done|]). split; [eauto|]. do 3 (split; [done|]).
      split.
      { intros path [Hp|Hp]; [|done]. by rewrite lookup_insert_ne. }
      exists data. split; [by rewrite ?app_nil_r|]. split; [|done].
      unfold data, markTrain, files. by rewrite !map_map.
  - case_bool_decide as Hm.
    + intros [= <- <-]. cbn. unfold isClassifier. rewrite Hd. cbn.
      do 2 (split; [done|]). split; [eauto|]. do 4 (split; [done|]).
      exists data. split; [by rewrite ?app_nil_r|]. split; [|done].
      unfold data, markTrain, files. by rewrite !map_map.
    + unfold store. cbn [transform distance core_name].
      intros [= <- <-]. cbn. unfold isClassifier. rewrite Hd. cbn.
      do 2 (split; [done|]). split; [eauto|]. do 3 (split; [done|]).
      split.
      { intros path [Hp|Hp]; [|done]. by rewrite lookup_insert_ne. }
      exists data. split; [by rewrite ?app_nil_r|]. split; [|done].
      unfold data, markTrain, files. by rewrite !map_map.
Qed.

(** X19.  Training to a model path and loading that path gives back the
    trained instance, provided the instance's name stands for a
    description that builds components of the same kinds. *)
Theorem train_then_load fuel a a_in input model w w' a' shell :
  model <> "" ->
  train a input model w = Ok (w', a') ->
  init fuel w' (mkCore (transform a_in) (distance a_in) (core_name a))
       (resolved w' (core_name a)) = Some (Ok shell) ->
  core_name shell = core_name a ->
  sameKinds kinT kinD shell a' ->
  load fuel w' a_in model = Some (Ok a').
Proof.
  intros Hmodel Htrain Hinit Hname Hkinds. unfold train in Htrain.
  destruct (transform a) as [tr|]; [|done].
  destruct (distance a) as [d|].
  - rewrite bool_decide_eq_false_2 in Htrain by done.
    match type of Htrain with
    | match store ?x model ?w1 with _ => _ end = _ =>
        destruct (store x model w1) as [w2|m] eqn:Hstore; [|done]
    end.
    injection Htrain as <- <-. unfold load.
    eapply load_with_stored; [exact Hstore|exact Hinit|exact Hname|exact Hkinds].
  - rewrite bool_decide_eq_false_2 in Htrain by done.
    match type of Htrain with
    | match store ?x model ?w1 with _ => _ end = _ =>
        destruct (store x model w1) as [w2|m] eqn:Hstore; [|done]
    end.
    injection Htrain as <- <-. unfold load.
    eapply load_with_stored; [exact Hstore|exact Hinit|exact Hname|exact Hkinds].
Qed.

End Codecs.
End Models.

(** ** Copying galleries *)

Section GalleryCopyFacts.
Context `{!Platform}.

Implicit Types (w : World) (g : Gallery).

Lemma writeBlock_contents g data w :
  gallery_contents (writeBlock g data w) g = gallery_contents w g ++ data.
Proof. unfold gallery_contents, writeBlock. cbn. by rewrite lookup_insert_eq. Qed.

Lemma writeBlock_others g data w k :
  k <> key g -> galleries (writeBlock g data w) !! k = galleries w !! k.
Proof. intros Hk. unfold writeBlock. cbn. by rewrite lookup_insert_ne. Qed.

(** The copy loop moves what is left of the source gallery behind the
    records of the destination, block by block. *)
Lemma copyBlocks_spec fuel before after w :
  key before <> key after ->
  0 < blockSize (Globals w) ->
  (length (drop (cursor before) (gallery_contents w before)) < fuel)%nat ->
  exists w',
    copyBlocks fuel before after w = Some (w', mkGallery (key before) 0)
    /\ gallery_contents w' after
       = gallery_contents w after ++ drop (cursor before) (gallery_contents w before)
    /\ (forall k, k <> key after -> galleries w' !! k = galleries w !! k)
    /\ Globals w' = Globals w.
Proof.
  intros Hkeys. revert before w Hkeys.
  induction fuel as [|fuel IH]; intros before w Hkeys HB Hfuel; [lia|].
  cbn [copyBlocks]. unfold readBlock.
  set (rest := drop (cursor before) (gallery_contents w before)) in *.
  set (B := Z.to_nat (blockSize (Globals w))).
  assert (0 < B)%nat as HBpos by (unfold B; lia).
  destruct (isEmpty (drop B rest)) eqn:Hdone.
  - eexists. split; [reflexivity|].
    split; [by rewrite writeBlock_contents, (passBlocks_last_short B rest Hdone)|].
    split; [|done]. intros k Hk. by apply writeBlock_others.
  - destruct (passBlocks_full B rest Hdone) as [Hlen Hne].
    set (before1 := mkGallery (key before) (cursor before + length (take B rest))).
    set (w1 := writeBlock after (take B rest) w).
    assert (gallery_contents w1 before1 = gallery_contents w before) as Hsame.
    { unfold gallery_contents, w1. by rewrite writeBlock_others. }
    assert (drop (cursor before1) (gallery_contents w1 before1) = drop B rest) as Hrest.
    { rewrite Hsame. unfold before1. cbn [cursor]. rewrite Hlen. unfold rest.
      by rewrite drop_drop. }
    destruct (IH before1 w1) as (w' & Hrun & Hcont & Hothers & Hglob).
    + done.
    + done.
    + rewrite Hrest, length_drop. lia.
    + exists w'. split; [exact Hrun|]. split; [|split].
      * rewrite Hcont, Hrest. unfold w1. rewrite writeBlock_contents, <- app_assoc.
        by rewrite take_drop.
      * intros k Hk. rewrite Hothers by done. by apply writeBlock_others.
      * by rewrite Hglob.
Qed.

(** X20.  [br::Convert] for galleries: with both gallery plugins
    available, distinct galleries and a positive block size, the call
    returns and has put every record of the input gallery, in order, behind
    those the output gallery held; no other gallery and no setting has
    changed. *)
Theorem convertGallery_copies fuel inputFile outputFile w :
  galleryPlugin inputFile = true ->
  galleryPlugin outputFile = true ->
  name inputFile <> name outputFile ->
  0 < blockSize (Globals w) ->
  (length (gallery_contents w (mkGallery (name inputFile) 0)) < fuel)%nat ->
  exists w',
    convertGallery fuel inputFile outputFile w = Some (Ok w')
    /\ gallery_contents w' (mkGallery (name outputFile) 0)
       = gallery_contents w (mkGallery (name outputFile) 0)
         ++ gallery_contents w (mkGallery (name inputFile) 0)
    /\ only_galleries [name outputFile] w w'
    /\ Globals w' = Globals w.
Proof.
  intros Hin Hout Hkeys HB Hfuel. unfold convertGallery, Gallery_make.
  rewrite Hin, Hout.
  destruct (copyBlocks_spec fuel (mkGallery (name inputFile) 0)
              (mkGallery (name outputFile) 0) w Hkeys HB)
    as (w' & -> & Hcont & Hothers & Hglob); [by rewrite drop_0|].
  exists w'. split; [done|]. split; [by rewrite Hcont, drop_0|]. split; [|done].
  intros k Hk. apply Hothers. cbn. intros ->. apply Hk. by apply list_elem_of_singleton.
Qed.

Lemma catBlocks_spec fuel inputFiles og w :
  cursor og = 0%nat ->
  0 < blockSize (Globals w) ->
  (forall i, i ∈ inputFiles ->
     galleryPlugin (toFile i) = true
     /\ name (toFile i) <> key og
     /\ (length (gallery_contents w (mkGallery (name (toFile i)) 0)) < fuel)%nat) ->
  exists w',
    catBlocks fuel inputFiles og w = Some (Ok w')
    /\ gallery_contents w' og
       = gallery_contents w og
         ++ concat (map (fun i => gallery_contents w (mkGallery (name (toFile i)) 0))
                        inputFiles)
    /\ (forall k, k <> key og -> galleries w' !! k = galleries w !! k)
    /\ Globals w' = Globals w.
Proof.
  intros Hog. revert w. induction inputFiles as [|i rest IH]; intros w HB Hall.
  - exists w. split; [done|]. split; [by rewrite app_nil_r|]. done.
  - destruct (Hall i) as (Hplugin & Hkey & Hfuel); [by left|].
    cbn [catBlocks]. unfold Gallery_make. rewrite Hplugin.
    destruct (copyBlocks_spec fuel (mkGallery (name (toFile i)) 0) og w Hkey HB)
      as (w1 & -> & Hcont & Hothers & Hglob); [by rewrite drop_0|].
    assert (forall j, j ∈ rest ->
              gallery_contents w1 (mkGallery (name (toFile j)) 0)
              = gallery_contents w (mkGallery (name (toFile j)) 0)) as Hsame.
    { intros j Hj. destruct (Hall j) as (_ & Hkj & _); [by right|].
      unfold gallery_contents. by rewrite Hothers. }
    destruct (IH w1) as (w' & Hrun & Hcont' & Hothers' & Hglob').
    + by rewrite Hglob.
    + intros j Hj. destruct (Hall j) as (Hp & Hk & Hf); [by right|].
      split; [done|]. split; [done|]. by rewrite Hsame.
    + exists w'. split; [exact Hrun|]. split; [|split].
      * rewrite Hcont', Hcont, drop_0, <- app_assoc. cbn [map concat]. f_equal. f_equal.
        f_equal. apply map_ext_in. intros j Hj%list_elem_of_In. by apply Hsame.
      * intros k Hk. by rewrite Hothers', Hothers.
      * by rewrite Hglob'.
Qed.

(** X21.  [br::Cat] for galleries: when the output is named among the
    inputs the call ends the process before anything is copied;
    otherwise, with the gallery plugins available, no input stored under
    the output's name and a positive block size, it returns and has put
    the records of all input galleries, in the order of the inputs, behind
    those the output gallery held. *)
Theorem catGallery_appends fuel inputFiles outputFile w :
  (name outputFile ∈ inputFiles ->
   catGallery fuel inputFiles outputFile w
   = Some (Fatal "outputFile must not be in inputFiles."))
  /\ (name outputFile ∉ inputFiles ->
      galleryPlugin outputFile = true ->
      0 < blockSize (Globals w) ->
      (forall i, i ∈ inputFiles ->
         galleryPlugin (toFile i) = true
         /\ name (toFile i) <> name outputFile
         /\ (length (gallery_contents w (mkGallery (name (toFile i)) 0)) < fuel)%nat) ->
      exists w',
        catGallery fuel inputFiles outputFile w = Some (Ok w')
        /\ gallery_contents w' (mkGallery (name outputFile) 0)
           = gallery_contents w (mkGallery (name outputFile) 0)
             ++ concat (map (fun i => gallery_contents w (mkGallery (name (toFile i)) 0))
                            inputFiles)
        /\ only_galleries [name outputFile] w w'
        /\ Globals w' = Globals w).
Proof.
  unfold catGallery. split.
  - intros Hin. by rewrite bool_decide_eq_true_2.
  - intros Hnotin Hout HB Hall. rewrite bool_decide_eq_false_2 by done.
    unfold Gallery_make. rewrite Hout.
    destruct (catBlocks_spec fuel inputFiles (mkGallery (name outputFile) 0) w eq_refl HB Hall)
      as (w' & -> & Hcont & Hothers & Hglob).
    exists w'. split; [done|]. split; [done|]. split; [|done].
    intros k Hk. apply Hothers. cbn. intros ->. apply Hk. by apply list_elem_of_singleton.
Qed.

End GalleryCopyFacts.

(** X1, on a race: the first thread is between [lock()] and [unlock()],
    the second has constructed its candidate and waits for the mutex. *)
Lemma getAlgorithm_mutual_exclusion_witness :
  let lookups := ["FeatureX:DistanceY"; "FeatureX:DistanceY"] in
  let schedule := [0; 0; 0; 1; 1; 1; 0; 1; 1]%nat in
  let s := AlgorithmManager.run Demo.construct schedule (AlgorithmManager.start lookups) in
  AlgorithmManager.algorithmsLock s = Some 0%nat
  /\ map AlgorithmManager.stage (AlgorithmManager.threads s)
     = [AlgorithmManager.AtRecheck 1%nat; AlgorithmManager.AtLock 2%nat].
Proof.
  cbv zeta. split; [|vm_compute; reflexivity].
  refine (proj2 (RegistryMore.getAlgorithm_mutual_exclusion Demo.construct
            ["FeatureX:DistanceY"; "FeatureX:DistanceY"]
            [0; 0; 0; 1; 1; 1; 0; 1; 1]%nat 0%nat 0%nat _ _));
    (eexists; split; [vm_compute; reflexivity|reflexivity]).
Defined.

(** X2, in the same race: the thread that waits for the mutex cannot move,
    the one that holds it can. *)
Lemma getAlgorithm_no_deadlock_witness :
  let lookups := ["FeatureX:DistanceY"; "FeatureX:DistanceY"] in
  let schedule := [0; 0; 0; 1; 1; 1; 0]%nat in
  let s := AlgorithmManager.run Demo.construct schedule (AlgorithmManager.start lookups) in
  AlgorithmManager.step Demo.construct 1 s = None
  /\ exists tid s', AlgorithmManager.step Demo.construct tid s = Some s'.
Proof.
  cbv zeta. split; [vm_compute; reflexivity|].
  exact (RegistryMore.getAlgorithm_no_deadlock Demo.construct
           ["FeatureX:DistanceY"; "FeatureX:DistanceY"]
           [0; 0; 0; 1; 1; 1; 0]%nat
           ltac:(vm_compute; reflexivity) ltac:(vm_compute; reflexivity)).
Defined.

(** X4, after a race in which two candidates were constructed: the
    instance both calls return was built from the name they asked for. *)
Lemma getAlgorithm_provenance_witness :
  let lookups := ["FeatureX:DistanceY"; "FeatureX:DistanceY"] in
  let schedule := [0; 0; 0; 1; 1; 1; 1; 1; 1; 1; 0; 0; 0; 0]%nat in
  let s := AlgorithmManager.run Demo.construct schedule (AlgorithmManager.start lookups) in
  exists n a, lookups !! 0%nat = Some n
              /\ 2%nat <> AlgorithmManager.null
              /\ AlgorithmManager.heap s !! 1%nat = Some a
              /\ Demo.construct n = Some a.
Proof.
  cbv zeta.
  exact (RegistryMore.getAlgorithm_provenance Demo.construct
           ["FeatureX:DistanceY"; "FeatureX:DistanceY"]
           [0; 0; 0; 1; 1; 1; 1; 1; 1; 1; 0; 0; 0; 0]%nat 0%nat 2%nat
           ltac:(vm_compute; reflexivity)).
Defined.

(** X5, while another thread holds the mutex: the first call has
    registered one name, the second holds the mutex for another name, the
    third asks for the first name and returns. *)
Lemma getAlgorithm_registered_witness :
  let lookups := ["FeatureX:DistanceY"; "FeatureZ"; "FeatureX:DistanceY"] in
  let schedule := (replicate 7 0 ++ replicate 4 1)%nat in
  let s := AlgorithmManager.run Demo.construct schedule (AlgorithmManager.start lookups) in
  AlgorithmManager.algorithmsLock s = Some 1%nat
  /\ AlgorithmManager.returned 2 (RegistryLock.alone Demo.construct 2 3 s) = Some 1%nat.
Proof.
  cbv zeta. split; [vm_compute; reflexivity|].
  refine (proj1 (RegistryMore.getAlgorithm_registered Demo.construct
            (AlgorithmManager.run Demo.construct (replicate 7 0 ++ replicate 4 1)%nat
               (AlgorithmManager.start
                  ["FeatureX:DistanceY"; "FeatureZ"; "FeatureX:DistanceY"]))
            2%nat "FeatureX:DistanceY" 1%nat _ _ _ _)).
  - vm_compute; reflexivity.
  - vm_compute; reflexivity.
  - discriminate.
  - vm_compute; reflexivity.
Defined.

(** X6, on an empty registry. *)
Lemma getAlgorithm_fresh_witness :
  let s := AlgorithmManager.start ["FeatureX:DistanceY"] in
  let s' := RegistryLock.alone Demo.construct 0 7 s in
  AlgorithmManager.returned 0 s' = Some 1%nat
  /\ AlgorithmManager.algorithms s' = {[ "FeatureX:DistanceY" := 1%nat ]}
  /\ AlgorithmManager.heap s' = [Demo.core].
Proof.
  cbv zeta.
  destruct (RegistryMore.getAlgorithm_fresh Demo.construct
              (AlgorithmManager.start ["FeatureX:DistanceY"]) 0%nat
              "FeatureX:DistanceY" Demo.core eq_refl eq_refl ltac:(discriminate)
              eq_refl eq_refl ltac:(vm_compute; reflexivity))
    as (H1 & H2 & H3 & _).
  split; [exact H1|]. split; [|exact H3].
  rewrite H2. reflexivity.
Defined.

(** X7, for a description with three parts, which the constructor
    rejects. *)
Lemma getAlgorithm_fatal_witness :
  let s := AlgorithmManager.start ["FeatureX:DistanceY:Extra"] in
  let s' := RegistryLock.alone Demo.construct 0 7 s in
  AlgorithmManager.aborted s' = true
  /\ AlgorithmManager.returned 0 s' = None.
Proof.
  cbv zeta.
  assert (Demo.construct "FeatureX:DistanceY:Extra" = None) as Hc
    by (vm_compute; reflexivity).
  destruct (RegistryMore.getAlgorithm_fatal Demo.construct
              (AlgorithmManager.start ["FeatureX:DistanceY:Extra"]) 0%nat
              "FeatureX:DistanceY:Extra" 4%nat eq_refl eq_refl
              (or_intror (conj eq_refl Hc)))
    as (H1 & H2 & _).
  split; [exact H1|exact H2].
Defined.

(** X8: the first call registers instance 1; after [finalize] the second
    call for the same name is given instance 2. *)
Lemma getAlgorithm_after_finalize_witness :
  let lookups := ["FeatureX:DistanceY"; "FeatureX:DistanceY"] in
  let s := AlgorithmManager.run Demo.construct (replicate 7 0%nat)
             (AlgorithmManager.start lookups) in
  let s' := RegistryLock.alone Demo.construct 1 7 (AlgorithmManagerLifecycle.finalize s) in
  AlgorithmManager.returned 0 s = Some 1%nat
  /\ exists p, AlgorithmManager.returned 1 s' = Some p /\ p <> 1%nat.
Proof.
  cbv zeta. split; [vm_compute; reflexivity|].
  destruct (RegistryMore.getAlgorithm_after_finalize Demo.construct
              ["FeatureX:DistanceY"; "FeatureX:DistanceY"] (replicate 7 0%nat)
              1%nat "FeatureX:DistanceY" Demo.core 1%nat
              ltac:(vm_compute; reflexivity) ltac:(vm_compute; reflexivity)
              ltac:(vm_compute; reflexivity) ltac:(discriminate)
              ltac:(vm_compute; reflexivity) ltac:(vm_compute; reflexivity))
    as (p & H1 & H2 & _).
  exists p. split; [exact H1|exact H2].
Defined.

(** X9: the second call has passed its check when [finalize] runs; it and
    the third call return null. *)
Lemma finalize_before_return_witness :
  let lookups := ["FeatureX:DistanceY"; "FeatureX:DistanceY"; "FeatureX:DistanceY"] in
  let s := AlgorithmManager.run Demo.construct (replicate 7 0 ++ [1; 1])%nat
             (AlgorithmManager.start lookups) in
  let s1 := RegistryLock.alone Demo.construct 1 1 (AlgorithmManagerLifecycle.finalize s) in
  let s2 := RegistryLock.alone Demo.construct 2 3 s1 in
  AlgorithmManager.returned 0 s = Some 1%nat
  /\ AlgorithmManager.returned 1 s1 = Some AlgorithmManager.null
  /\ AlgorithmManager.returned 2 s2 = Some AlgorithmManager.null.
Proof.
  cbv zeta. split; [vm_compute; reflexivity|].
  destruct (RegistryMore.finalize_before_return Demo.construct
              (AlgorithmManager.run Demo.construct (replicate 7 0 ++ [1; 1])%nat
                 (AlgorithmManager.start
                    ["FeatureX:DistanceY"; "FeatureX:DistanceY"; "FeatureX:DistanceY"]))
              1%nat 2%nat "FeatureX:DistanceY"
              ltac:(vm_compute; reflexivity) ltac:(vm_compute; reflexivity)
              ltac:(vm_compute; reflexivity) ltac:(discriminate))
    as (H1 & _ & H3 & _).
  split; [exact H1|exact H3].
Defined.

(** ** The core on the concrete platform *)

(** X10: two more records into a gallery that holds two, beside a gallery
    that is not enrolled into. *)
Lemma enroll_appends_witness :
  let w := DemoMore.holding 10 [("out.gal", 2); ("other.gal", 1)]%nat in
  exists w' fl,
    enroll 1 Demo.core (Demo.source "in" [2; 3]) (File_of "out.gal") w = Some (Ok (w', fl))
    /\ only_galleries ["out.gal"] w w'
    /\ append_only w w'.
Proof.
  cbv zeta.
  assert (exists w' fl,
            enroll 1 Demo.core (Demo.source "in" [2; 3]) (File_of "out.gal")
              (DemoMore.holding 10 [("out.gal", 2); ("other.gal", 1)]%nat)
            = Some (Ok (w', fl))) as (w' & fl & Hrun)
    by (vm_compute; eexists _, _; reflexivity).
  exists w', fl. split; [exact Hrun|].
  destruct (enroll_appends 1 Demo.core (Demo.source "in" [2; 3]) (File_of "out.gal")
              (DemoMore.holding 10 [("out.gal", 2); ("other.gal", 1)]%nat) w' fl Hrun)
    as (_ & Ho & Ha & _).
  split; [exact Ho|exact Ha].
Defined.

(** X11: with the "read" key the list returned names the two records
    held and the two enrolled. *)
Lemma enroll_returns_records_witness :
  let w := DemoMore.holding 10 [("out.gal", 2)]%nat in
  let gallery := Demo.flag "read" (File_of "out.gal") in
  exists w' fl,
    enroll 1 Demo.core (Demo.source "in" [2; 3]) gallery w = Some (Ok (w', fl))
    /\ names fl = ["r00"; "r01"; "r02"; "r03"]
    /\ fl = Gallery_files w' (mkGallery "out.gal" 0).
Proof.
  cbv zeta.
  assert (exists w' fl,
            enroll 1 Demo.core (Demo.source "in" [2; 3])
              (Demo.flag "read" (File_of "out.gal"))
              (DemoMore.holding 10 [("out.gal", 2)]%nat)
            = Some (Ok (w', fl))
            /\ names fl = ["r00"; "r01"; "r02"; "r03"]) as (w' & fl & Hrun & Hnames)
    by (vm_compute; eexists _, _; split; reflexivity).
  exists w', fl. split; [exact Hrun|]. split; [exact Hnames|].
  refine (proj2 (enroll_returns_records 1 Demo.core (Demo.source "in" [2; 3])
                   (Demo.flag "read" (File_of "out.gal"))
                   (DemoMore.holding 10 [("out.gal", 2)]%nat) w' fl _ Hrun) _).
  - intros [Hname _]. discriminate Hname.
  - vm_compute; reflexivity.
Defined.

(** X12: the first call enrolls three records into the memory gallery,
    the second finds them there and needs no fuel. *)
Lemma retrieveOrEnroll_once_witness :
  let f := Demo.source "in" [0; 1; 2] in
  exists w1 g fl,
    retrieveOrEnroll 1 Demo.core f (Demo.world 10 1) = Some (Ok (w1, g, fl))
    /\ length fl = 3%nat
    /\ retrieveOrEnroll 0 Demo.core f w1 = Some (Ok (w1, g, fl)).
Proof.
  cbv zeta.
  assert (exists w1 g fl,
            retrieveOrEnroll 1 Demo.core (Demo.source "in" [0; 1; 2]) (Demo.world 10 1)
            = Some (Ok (w1, g, fl))
            /\ length fl = 3%nat) as (w1 & g & fl & Hrun & Hlen)
    by (vm_compute; eexists _, _, _; split; reflexivity).
  exists w1, g, fl. split; [exact Hrun|]. split; [exact Hlen|].
  apply (retrieveOrEnroll_once 1 0 Demo.core (Demo.source "in" [0; 1; 2])
           (Demo.world 10 1) w1 g fl Hrun).
  intros ->. discriminate Hlen.
Defined.

(** X13: two stored galleries compared; no gallery changes. *)
Lemma compare_effects_witness :
  let w := Demo.stocked 2 [("t.gal", Demo.records 3); ("q.gal", Demo.records 2)] in
  exists w' outputs,
    compare 9 Demo.core (File_of "t.gal") (File_of "q.gal") (File_of "out.mtx") w
    = Some (Ok (w', outputs))
    /\ galleries w' = galleries w
    /\ map output_file outputs = [File_of "out.mtx"].
Proof.
  cbv zeta.
  assert (exists w' outputs,
            compare 9 Demo.core (File_of "t.gal") (File_of "q.gal") (File_of "out.mtx")
              (Demo.stocked 2 [("t.gal", Demo.records 3); ("q.gal", Demo.records 2)])
            = Some (Ok (w', outputs))) as (w' & outputs & Hrun)
    by (vm_compute; eexists _, _; reflexivity).
  exists w', outputs. split; [exact Hrun|].
  destruct (compare_effects 9 Demo.core (File_of "t.gal") (File_of "q.gal")
              (File_of "out.mtx")
              (Demo.stocked 2 [("t.gal", Demo.records 3); ("q.gal", Demo.records 2)])
              w' outputs Hrun) as (_ & _ & _ & Hstored & Hfiles).
  split.
  - apply Hstored; vm_compute; reflexivity.
  - destruct Hfiles as [sizes Hsizes]; [vm_compute; reflexivity|].
    injection Hsizes as _ Hfiles. symmetry. exact Hfiles.
Defined.

(** X14: an output split into no shards. *)
Lemma compare_empty_split_witness :
  let w := Demo.stocked 2 [("t.gal", Demo.records 3); ("q.gal", Demo.records 2)] in
  compare 2 Demo.core (File_of "t.gal") (File_of "q.gal") (Demo.sharded "out%1.mtx" []) w
  = Some indexOutOfRange.
Proof.
  cbv zeta.
  apply (compare_empty_split 0 Demo.core (File_of "t.gal") (File_of "q.gal")
           (Demo.sharded "out%1.mtx" [])
           (Demo.stocked 2 [("t.gal", Demo.records 3); ("q.gal", Demo.records 2)])
           (Demo.stocked 2 [("t.gal", Demo.records 3); ("q.gal", Demo.records 2)])
           (Demo.stocked 2 [("t.gal", Demo.records 3); ("q.gal", Demo.records 2)])
           (mkGallery "t.gal" 0) (mkGallery "q.gal" 0)
           (files (Demo.records 3)) (files (Demo.records 2))).
  - vm_compute; reflexivity.
  - vm_compute; reflexivity.
  - vm_compute; reflexivity.
  - vm_compute; reflexivity.
  - vm_compute; reflexivity.
  - vm_compute; reflexivity.
  - eexists. reflexivity.
Defined.

(** X15: a stored instance with a distance, loaded. *)
Lemma load_distance_by_name_witness :
  exists w' shell,
    store Demo.trained "model.bin" (Demo.world 10 1) = Ok w'
    /\ load 1 w' (Demo.blank "model.bin") "model.bin" = Some (Ok Demo.trained)
    /\ init 1 w' (Demo.blank "FeatureX:DistanceY") (resolved w' "FeatureX:DistanceY")
       = Some (Ok shell)
    /\ (is_Some (distance Demo.trained) <-> is_Some (distance shell)).
Proof.
  eexists _, Demo.core. split; [reflexivity|].
  match goal with
  | |- load 1 ?w' _ _ = _ /\ _ =>
      assert (load 1 w' (Demo.blank "model.bin") "model.bin" = Some (Ok Demo.trained))
        as Hload by (vm_compute; reflexivity);
      destruct (load_distance_by_name 1 w' (Demo.blank "model.bin") "model.bin"
                  Demo.trained Hload)
        as (compressed & data & stored & rest & shell & _ & _ & _ & _ & _ & _ & Hdist)
  end.
  split; [exact Hload|]. split; [vm_compute; reflexivity|].
  split; intros _; by eexists.
Defined.

(** X16: "Face" stands for "FeatureX:DistanceY". *)
Lemma AlgorithmCore_new_abbreviation_witness :
  AlgorithmCore_new 2 (DemoMore.abbreviated "Face" "FeatureX:DistanceY") "Face"
  = Some (Ok (mkCore (transform Demo.core) (distance Demo.core) "Face")).
Proof.
  pose proof (AlgorithmCore_new_abbreviation (T := Demo.Scale) (D := Demo.Pairing)
                0 (DemoMore.abbreviated "Face" "FeatureX:DistanceY")
                "Face" "FeatureX:DistanceY") as Hnew.
  cbv zeta in Hnew.
  destruct Hnew as [Hnew _].
  - vm_compute; reflexivity.
  - vm_compute; reflexivity.
  - vm_compute; reflexivity.
  - vm_compute; reflexivity.
  - vm_compute; reflexivity.
  - vm_compute; reflexivity.
  - rewrite Hnew. vm_compute; reflexivity.
Defined.

(** X17: the trained instance stored in the models directory under
    "Face", and constructed from that name. *)
Lemma AlgorithmCore_new_prebuilt_witness :
  let model := "/opt/openbr/share/openbr/models/algorithms/Face" in
  exists w,
    store (DemoMore.named "Face") model (DemoMore.abbreviated "Face" "FeatureX:DistanceY")
    = Ok w
    /\ AlgorithmCore_new 3 w "Face" = Some (Ok (DemoMore.named "Face")).
Proof.
  cbv zeta. eexists. split; [reflexivity|].
  pose proof (AlgorithmCore_new_prebuilt (T := Demo.Scale) (D := Demo.Pairing)
                Demo.kinT Demo.kinD) as Hprebuilt.
  apply (Hprebuilt decode_encodeString decode_encodeBool
           (fun data => eq_refl) scale_load_store pairing_load_store
           1%nat (DemoMore.named "Face")
           (DemoMore.abbreviated "Face" "FeatureX:DistanceY") _ "Face"
           "/opt/openbr/share/openbr/models/algorithms/Face"
           (mkCore (transform Demo.core) (distance Demo.core) "Face")).
  - reflexivity.
  - discriminate.
  - vm_compute; reflexivity.
  - reflexivity.
  - vm_compute; reflexivity.
  - vm_compute; reflexivity.
  - reflexivity.
  - split; reflexivity.
Defined.

(** X18: training on three records, to a model file. *)
Lemma train_effects_witness :
  let w := Demo.world 10 1 in
  exists w' a',
    train Demo.core (Demo.source "in" [1; 2; 3]) "model.bin" w = Ok (w', a')
    /\ core_name a' = "FeatureX:DistanceY"
    /\ galleries w' = galleries w
    /\ reads w' = 1%nat
    /\ disk w' !! "other.bin" = None.
Proof.
  cbv zeta.
  assert (exists w' a',
            train Demo.core (Demo.source "in" [1; 2; 3]) "model.bin" (Demo.world 10 1)
            = Ok (w', a')) as (w' & a' & Hrun)
    by (vm_compute; eexists _, _; reflexivity).
  exists w', a'. split; [exact Hrun|].
  destruct (train_effects Demo.core (Demo.source "in" [1; 2; 3]) "model.bin"
              (Demo.world 10 1) w' a' Hrun)
    as (Hname & _ & _ & Hgal & _ & Hreads & Hdisk & _).
  split; [exact Hname|]. split; [exact Hgal|]. split; [exact Hreads|].
  rewrite Hdisk; [reflexivity|]. left. discriminate.
Defined.

(** X19: the instance trained on three records, stored and loaded: a gain
    of 3, and a bias of 3, the first record's value 1 scaled by the gain. *)
Lemma train_then_load_witness :
  exists w',
    train Demo.core (Demo.source "in" [1; 2; 3]) "model.bin" (Demo.world 10 1)
    = Ok (w', mkCore (Some (Demo.mkScale "DistributeTemplate(FeatureX)" x03))
                     (Some (Demo.mkPairing "DistanceY" x03)) "FeatureX:DistanceY")
    /\ load 1 w' (Demo.blank "model.bin") "model.bin"
       = Some (Ok (mkCore (Some (Demo.mkScale "DistributeTemplate(FeatureX)" x03))
                          (Some (Demo.mkPairing "DistanceY" x03)) "FeatureX:DistanceY")).
Proof.
  eexists. split; [vm_compute; reflexivity|].
  pose proof (train_then_load (T := Demo.Scale) (D := Demo.Pairing)
                Demo.kinT Demo.kinD) as Hload.
  apply (Hload decode_encodeString decode_encodeBool
           (fun data => eq_refl) scale_load_store pairing_load_store
           DemoMore.training 1%nat Demo.core (Demo.blank "model.bin") (Demo.source "in" [1; 2; 3])
           "model.bin" (Demo.world 10 1) _ _ Demo.core).
  - discriminate.
  - vm_compute; reflexivity.
  - vm_compute; reflexivity.
  - reflexivity.
  - split; reflexivity.
Defined.

(** X20: five records copied, in blocks of two, behind the one record the
    output gallery holds. *)
Lemma convertGallery_copies_witness :
  let w := DemoMore.holding 2 [("in.gal", 5); ("out.gal", 1)]%nat in
  exists w',
    convertGallery 6 (File_of "in.gal") (File_of "out.gal") w = Some (Ok w')
    /\ gallery_contents w' (mkGallery "out.gal" 0) = Demo.records 1 ++ Demo.records 5.
Proof.
  cbv zeta.
  destruct (convertGallery_copies 6 (File_of "in.gal") (File_of "out.gal")
              (DemoMore.holding 2 [("in.gal", 5); ("out.gal", 1)]%nat))
    as (w' & Hrun & Hcont & _).
  - reflexivity.
  - reflexivity.
  - discriminate.
  - vm_compute; reflexivity.
  - vm_compute; lia.
  - exists w'. split; [exact Hrun|]. etrans; [exact Hcont|]. vm_compute; reflexivity.
Defined.

(** X21: one gallery appended twice and another once; and an output that
    is among the inputs. *)
Lemma catGallery_appends_witness :
  let w := DemoMore.holding 2 [("a.gal", 3); ("b.gal", 1)]%nat in
  (exists w',
     catGallery 4 ["a.gal"; "b.gal"; "a.gal"] (File_of "out.gal") w = Some (Ok w')
     /\ gallery_contents w' (mkGallery "out.gal" 0)
        = Demo.records 3 ++ Demo.records 1 ++ Demo.records 3)
  /\ catGallery 4 ["a.gal"; "out.gal"] (File_of "out.gal") w
     = Some (Fatal "outputFile must not be in inputFiles.").
Proof.
  cbv zeta. split.
  - destruct (proj2 (catGallery_appends 4 ["a.gal"; "b.gal"; "a.gal"] (File_of "out.gal")
                       (DemoMore.holding 2 [("a.gal", 3); ("b.gal", 1)]%nat)))
      as (w' & Hrun & Hcont & _).
    + rewrite !not_elem_of_cons. repeat split; try discriminate. apply not_elem_of_nil.
    + reflexivity.
    + vm_compute; reflexivity.
    + intros i Hi. rewrite !elem_of_cons, elem_of_nil in Hi.
      destruct Hi as [->|[->|[->|[]]]];
        (split; [reflexivity|split; [discriminate|vm_compute; lia]]).
    + exists w'. split; [exact Hrun|]. etrans; [exact Hcont|]. vm_compute; reflexivity.
  - apply (proj1 (catGallery_appends 4 ["a.gal"; "out.gal"] (File_of "out.gal")
                    (DemoMore.holding 2 [("a.gal", 3); ("b.gal", 1)]%nat))).
    rewrite !elem_of_cons. right. left. reflexivity.
Defined.

(** X22: an instance without a transform is fatal when given a record to
    enroll, and returns an empty list when given none. *)
Lemma enroll_failures_witness :
  enroll 1 (Demo.blank "FeatureX") (Demo.source "in" [0]) (File_of "out.gal")
    (Demo.world 10 1)
  = Some (Fatal "Null transform.")
  /\ (forall m,
        enroll 1 (Demo.blank "FeatureX") (Demo.source "idle" []) (File_of "out.gal")
          (Demo.world 10 1)
        <> Some (Fatal m))
  /\ enroll 1 (Demo.blank "FeatureX") (Demo.source "idle" []) (File_of "out.gal")
       (Demo.world 10 1)
     = Some (Ok (next_read (Demo.world 10 1), [])).
Proof.
  split; [|split].
  - refine (proj1 (proj2 (enroll_failures 0 (Demo.blank "FeatureX")
                            (Demo.source "in" [0]) (File_of "out.gal")
                            (Demo.world 10 1) "Null transform.")) _ _).
    + intros [Hname _]. discriminate Hname.
    + right. split; [reflexivity|]. split; [reflexivity|]. split; [reflexivity|].
      split; [vm_compute; reflexivity|discriminate].
  - intros m Hrun.
    destruct (proj1 (enroll_failures 1 (Demo.blank "FeatureX") (Demo.source "idle" [])
                       (File_of "out.gal") (Demo.world 10 1) m) Hrun)
      as (_ & [[_ Hplugin]|(_ & _ & _ & _ & Hrecords)]).
    + discriminate Hplugin.
    + apply Hrecords. reflexivity.
  - refine (proj2 (proj2 (proj2 (enroll_failures 0 (Demo.blank "FeatureX")
                                   (Demo.source "idle" []) (File_of "out.gal")
                                   (Demo.world 10 1) ""))
                   _ eq_refl) _ _).
    + intros [Hname _]. discriminate Hname.
    + vm_compute; reflexivity.
    + reflexivity.
Defined.

(** X23: a classifier asked to compare two stored galleries; and an
    instance with neither transform nor distance asked to compare a target
    it has to enroll first, which ends in the message of the enrollment,
    not in "Null distance.". *)
Lemma compare_classifier_witness :
  let w := Demo.stocked 2 [("t.gal", Demo.records 3); ("q.gal", Demo.records 2)] in
  let classifier : AlgorithmCore (T := Demo.Scale) (D := Demo.Pairing) :=
    mkCore (transform Demo.core) None "FeatureX" in
  compare 9 classifier (File_of "t.gal") (File_of "q.gal") (File_of "out.mtx") w
  = Some (Fatal "Null distance.")
  /\ compare 9 (Demo.blank "FeatureX") (Demo.source "in" [0]) (File_of "q.gal")
       (File_of "out.mtx") w
     = Some (Fatal "Null transform.").
Proof.
  cbv zeta. split; [|
    destruct (compare_classifier 9 (Demo.blank "FeatureX") (Demo.source "in" [0])
                (File_of "q.gal") (File_of "out.mtx")
                (Demo.stocked 2 [("t.gal", Demo.records 3); ("q.gal", Demo.records 2)])
                eq_refl ltac:(vm_compute; reflexivity)) as (_ & _ & Hsame & _);
    apply Hsame; vm_compute; reflexivity].
  destruct (compare_classifier 9 (mkCore (transform Demo.core) None "FeatureX")
              (File_of "t.gal") (File_of "q.gal") (File_of "out.mtx")
              (Demo.stocked 2 [("t.gal", Demo.records 3); ("q.gal", Demo.records 2)])
              eq_refl ltac:(vm_compute; reflexivity)) as (_ & [_ Hfatal] & _).
  apply Hfatal.
  exists (Demo.stocked 2 [("t.gal", Demo.records 3); ("q.gal", Demo.records 2)]),
    (Demo.stocked 2 [("t.gal", Demo.records 3); ("q.gal", Demo.records 2)]),
    (mkGallery "t.gal" 0), (mkGallery "q.gal" 0),
    (files (Demo.records 3)), (files (Demo.records 2)), [], [File_of "out.mtx"].
  split; [vm_compute; reflexivity|]. split; vm_compute; reflexivity.
Defined.
